(** * dxfuse: the manifest loader

    A shallow embedding of [manifest.go] of dxfuse (package [dxfuse]) and of
    the parts of the Go standard library it calls ([strings.HasPrefix],
    [strings.Count], [path/filepath.Clean], [filepath.Dir], [filepath.Split],
    [sort.Sort], [unicode/utf8], [unicode/utf16], [strconv.FormatInt], and
    the encoder, the scanner and the decoder of [encoding/json]), followed
    by the properties of the manifest loader.

    Conventions.
    - A Go [string] is a sequence of bytes: Rocq's [string] (a list of 8-bit
      [ascii]).  [len(p)] is [String.length p].
    - [int64] fields are [Z]; the loader does no arithmetic on them.
    - [map[string]bool] used as a set ([tree], [allDirs], [fileIds],
      [projectIds]) is a [gset string]; a map with values is a [gmap].
    - Go iterates over a map in an unspecified order and [sort.Sort] is not
      stable: both are parameters of the functions that use them, constrained
      only by what Go guarantees.
    - A function that returns [(T, error)] returns an [outcome T]; a function
      that returns [error] returns an [option error] ([None] is [nil]). *)

From Stdlib Require Import Ascii String ZArith NArith Lia List.
From Stdlib Require Import Decimal DecimalFacts DecimalPos DecimalZ DecimalString.
From stdpp Require Import base option list sorting gmap strings.

Local Open Scope string_scope.

(* ================================================================== *)
(** * Part I: definitions *)
(* ================================================================== *)

(** ** Go strings *)

(** [s[:k]] and [s[k:]], for [k <= len(s)]. *)
Definition slice_to (k : nat) (s : string) : string := substring 0 k s.
Definition slice_from (k : nat) (s : string) : string :=
  substring k (String.length s - k) s.

Module strings.

(** [strings.HasPrefix(s, prefix)]:
    [len(s) >= len(prefix) && s[0:len(prefix)] == prefix]. *)
Definition HasPrefix (s prefix : string) : bool :=
  (String.length prefix <=? String.length s)%nat
  && String.eqb (slice_to (String.length prefix) s) prefix.

(** [strings.Count(s, substr)] for a [substr] of one byte [c]: the number
    of bytes of [s] equal to [c]. *)
Fixpoint CountByte (s : string) (c : ascii) : nat :=
  match s with
  | EmptyString => 0
  | String b s' => (if Ascii.eqb b c then 1 else 0) + CountByte s' c
  end.

End strings.

(** ** path/filepath (Unix) *)

Module filepath.

Definition Separator : ascii := "/"%char.

(** [os.IsPathSeparator] *)
Definition IsPathSeparator (c : ascii) : bool := Ascii.eqb c Separator.

(** Is the next byte of [rest] absent or a separator?  This is the test
    [r+k == n || os.IsPathSeparator(path[r+k])] of [Clean], [rest] being
    [path[r+k:]]. *)
Definition atEndOrSep (rest : string) : bool :=
  match rest with
  | EmptyString => true
  | String c _ => IsPathSeparator c
  end.

(** The [lazybuf] of [Clean] is modelled by its logical contents: the bytes
    written so far, the last written first.  [out.w] is the length of the
    list, [out.append(c)] is [c :: out], [out.w--] drops the head, and
    [out.index(out.w)] read just after [out.w--] is the byte dropped. *)

(** [for out.w > dotdot && !os.IsPathSeparator(out.index(out.w)) { out.w-- }],
    [dropped] being [out.index(out.w)]. *)
Fixpoint backtrack_loop (dropped : ascii) (out : list ascii) (dotdot : nat)
  : list ascii :=
  match out with
  | [] => []
  | c :: out' =>
      if (dotdot <? length out)%nat && negb (IsPathSeparator dropped)
      then backtrack_loop c out' dotdot
      else out
  end.

(** [out.w--] followed by the loop above. *)
Definition backtrack (out : list ascii) (dotdot : nat) : list ascii :=
  match out with
  | [] => []
  | c :: out' => backtrack_loop c out' dotdot
  end.

(** [for ; r < n && !os.IsPathSeparator(path[r]); r++ { out.append(path[r]) }];
    returns [path[r:]] and the buffer. *)
Fixpoint copy_element (rest : string) (out : list ascii)
  : string * list ascii :=
  match rest with
  | EmptyString => (rest, out)
  | String c rest' =>
      if IsPathSeparator c then (rest, out)
      else copy_element rest' (c :: out)
  end.

(** The main loop [for r < n { switch ... }] of [Clean]; [rest] is
    [path[r:]].  Every iteration advances [r], so [n] iterations are
    enough: [fuel] counts them. *)
Fixpoint clean_loop (fuel : nat) (rooted : bool) (rest : string)
    (out : list ascii) (dotdot : nat) : list ascii :=
  match fuel with
  | 0 => out
  | S fuel' =>
      match rest with
      | EmptyString => out
      | String c rest1 =>
          if IsPathSeparator c then
            (* empty path element *)
            clean_loop fuel' rooted rest1 out dotdot
          else if Ascii.eqb c "." && atEndOrSep rest1 then
            (* . element *)
            clean_loop fuel' rooted rest1 out dotdot
          else if Ascii.eqb c "."
                  && match rest1 with
                     | String c1 rest2 => Ascii.eqb c1 "." && atEndOrSep rest2
                     | EmptyString => false
                     end then
            (* .. element: remove to last separator *)
            let rest2 := match rest1 with
                         | String _ rest2 => rest2
                         | EmptyString => EmptyString
                         end in
            if (dotdot <? length out)%nat then
              (* can backtrack *)
              clean_loop fuel' rooted rest2 (backtrack out dotdot) dotdot
            else if negb rooted then
              (* cannot backtrack, but not rooted, so append .. element *)
              let out1 := if (0 <? length out)%nat then Separator :: out
                          else out in
              let out2 := "."%char :: "."%char :: out1 in
              clean_loop fuel' rooted rest2 out2 (length out2)
            else
              clean_loop fuel' rooted rest2 out dotdot
          else
            (* real path element: add slash if needed, copy element *)
            let out1 :=
              if (rooted && negb (length out =? 1)%nat)
                 || (negb rooted && negb (length out =? 0)%nat)
              then Separator :: out else out in
            let '(rest', out2) := copy_element rest out1 in
            clean_loop fuel' rooted rest' out2 dotdot
      end
  end.

(** [filepath.Clean].  On Unix the volume name is empty and [FromSlash] is
    the identity. *)
Definition Clean (path : string) : string :=
  match path with
  | EmptyString => "."
  | String c0 rest0 =>
      let rooted := IsPathSeparator c0 in
      let n := String.length path in
      let out :=
        if rooted then clean_loop n rooted rest0 [Separator] 1
        else clean_loop n rooted path [] 0 in
      (* Turn empty string into "." *)
      let out := if (length out =? 0)%nat then ["."%char] else out in
      string_of_list_ascii (rev out)
  end.

(** [i := len(path) - 1; for i >= 0 && !os.IsPathSeparator(path[i]) { i-- }];
    the argument [k] and the result are [i+1]. *)
Fixpoint lastSeparator (path : string) (k : nat) : nat :=
  match k with
  | 0 => 0
  | S i =>
      match String.get i path with
      | Some c => if IsPathSeparator c then k else lastSeparator path i
      | None => lastSeparator path i
      end
  end.

(** [filepath.Split]: [path[:i+1], path[i+1:]]. *)
Definition Split (path : string) : string * string :=
  let k := lastSeparator path (String.length path) in
  (slice_to k path, slice_from k path).

(** [filepath.Dir]: [Clean(path[:i+1])]. *)
Definition Dir (path : string) : string :=
  let k := lastSeparator path (String.length path) in
  Clean (slice_to k path).

End filepath.

(** ** The manifest *)

Module ManifestFile.
Record t : Type := mk {
  ProjId : string;          (* json:"proj_id" *)
  FileId : string;          (* json:"file_id" *)
  Parent : string;          (* json:"parent" *)
  Fname : string;           (* json:"fname,omitempty" *)
  Size : Z;                 (* json:"size,omitempty" *)
  CtimeMillisec : Z;        (* json:"ctime,omitempty" *)
  MtimeMillisec : Z;        (* json:"mtime,omitempty" *)
}.
End ManifestFile.

Module ManifestDir.
Record t : Type := mk {
  ProjId : string;          (* json:"proj_id" *)
  Folder : string;          (* json:"folder" *)
  Dirname : string;         (* json:"dirname" *)
  CtimeMillisec : Z;        (* json:"ctime,omitempty" *)
  MtimeMillisec : Z;        (* json:"mtime,omitempty" *)
}.
End ManifestDir.

Record Manifest : Type := mkManifest {
  Files : list ManifestFile.t;          (* json:"files" *)
  Directories : list ManifestDir.t;     (* json:"directories" *)
}.

(** ** Errors and outcomes *)

(** The error values the loader builds, one constructor for each
    [fmt.Errorf] format and its arguments, and one for each error the loader
    only passes on. *)
Inductive error : Type :=
  | ErrProjectInvalidID (pId : string)
      (* "project has invalid ID %s" *)
  | ErrFileInvalidID (fId : string)
      (* "file has invalid ID %s" *)
  | ErrDirectoryEmpty (p : string)
      (* "the directory cannot be empty %s" *)
  | ErrDirectoryNoSlash (p : string)
      (* "the directory name must start with a slash %s" *)
  | ErrDirectoryUsedTwice (d : string)
      (* "manifest error: directory %s is used twice" *)
  | ErrNotLeaf (d : string) (elems : list string)
      (* "manifest error: %s is a not leaf on the directory scaffolding (%v). ..." *)
  | ErrUnmarshal
      (* an error of json.Unmarshal *)
  | ErrRemote (msg : string)
      (* an error of DxDescribeBulkObjects or DxDescribeProject *).

(** Modelled from the spec: the names the specification gives to the
    failures of the manifest loader (the code has no error types, only
    messages).  [InvalidMountPath] is the rejection the specification asks
    for in its design notes. *)
Inductive ErrorKind : Type :=
  | InvalidManifest
  | DuplicateMount
  | IllegalMountNotLeaf
  | InvalidMountPath
  | MalformedJSON
  | RemoteFailure.

Definition error_kind (e : error) : ErrorKind :=
  match e with
  | ErrProjectInvalidID _ | ErrFileInvalidID _
  | ErrDirectoryEmpty _ | ErrDirectoryNoSlash _ => InvalidManifest
  | ErrDirectoryUsedTwice _ => DuplicateMount
  | ErrNotLeaf _ _ => IllegalMountNotLeaf
  | ErrUnmarshal => MalformedJSON
  | ErrRemote _ => RemoteFailure
  end.

(** What a call does: return a value, return an error, panic, or recurse
    until the goroutine stack is exhausted (which ends the process). *)
Inductive outcome (A : Type) : Type :=
  | Ok (a : A)
  | Err (e : error)
  | Panic
  | StackOverflow.
Arguments Ok {A} a.
Arguments Err {A} e.
Arguments Panic {A}.
Arguments StackOverflow {A}.

Global Instance outcome_bind : MBind outcome := fun A B k x =>
  match x with
  | Ok a => k a
  | Err e => Err e
  | Panic => Panic
  | StackOverflow => StackOverflow
  end.

(** ** Validate and Clean *)

Definition validateDirName (p : string) : option error :=
  match p with
  | EmptyString => Some (ErrDirectoryEmpty p)
  | String c _ =>
      if negb (Ascii.eqb c "/") then Some (ErrDirectoryNoSlash p) else None
  end.

Definition validProject (pId : string) : bool :=
  if strings.HasPrefix pId "project-" then true
  else if strings.HasPrefix pId "container-" then true
  else false.

(** The loop [for _, fl := range m.Files] of [Validate]. *)
Fixpoint validateFiles (files : list ManifestFile.t) : option error :=
  match files with
  | [] => None
  | fl :: files' =>
      if negb (validProject (ManifestFile.ProjId fl)) then
        Some (ErrProjectInvalidID (ManifestFile.ProjId fl))
      else if negb (strings.HasPrefix (ManifestFile.FileId fl) "file-") then
        Some (ErrFileInvalidID (ManifestFile.FileId fl))
      else match validateDirName (ManifestFile.Parent fl) with
           | Some err => Some err
           | None => validateFiles files'
           end
  end.

(** The loop [for _, d := range m.Directories] of [Validate]. *)
Fixpoint validateDirectories (dirs : list ManifestDir.t) : option error :=
  match dirs with
  | [] => None
  | d :: dirs' =>
      if negb (validProject (ManifestDir.ProjId d)) then
        Some (ErrProjectInvalidID (ManifestDir.ProjId d))
      else match validateDirName (ManifestDir.Dirname d) with
           | Some err => Some err
           | None => validateDirectories dirs'
           end
  end.

Definition Validate (m : Manifest) : option error :=
  match validateFiles (Files m) with
  | Some err => Some err
  | None => validateDirectories (Directories m)
  end.

Definition cleanFile (fl : ManifestFile.t) : ManifestFile.t :=
  ManifestFile.mk (ManifestFile.ProjId fl) (ManifestFile.FileId fl)
    (filepath.Clean (ManifestFile.Parent fl))
    (ManifestFile.Fname fl) (ManifestFile.Size fl)
    (ManifestFile.CtimeMillisec fl) (ManifestFile.MtimeMillisec fl).

Definition cleanDir (d : ManifestDir.t) : ManifestDir.t :=
  ManifestDir.mk (ManifestDir.ProjId d) (ManifestDir.Folder d)
    (filepath.Clean (ManifestDir.Dirname d))
    (ManifestDir.CtimeMillisec d) (ManifestDir.MtimeMillisec d).

(** [Manifest.Clean]: the manifest after the in-place update. *)
Definition Clean (m : Manifest) : Manifest :=
  mkManifest (map cleanFile (Files m)) (map cleanDir (Directories m)).

(** ** ancestors *)

(** [ancestors], with [fuel] bounding the depth of the recursion. *)
Fixpoint ancestors_depth (fuel : nat) (p : string) : outcome (list string) :=
  match fuel with
  | 0 => StackOverflow
  | S fuel' =>
      if String.eqb p "" || String.eqb p "/" then Ok ["/"]
      else
        let parent := filepath.Dir p in
        ators ← ancestors_depth fuel' parent;
        if (length ators =? 0)%nat then Panic
        else Ok (ators ++ [filepath.Clean p])%list
  end.

(** [ancestors].  The recursion on an absolute path is never deeper than
    the length of the path plus one (lemma [PathFacts.ancestors_depth_enough]:
    a larger bound gives the same list), and on any other non-empty path it
    never ends (lemma [PathFacts.ancestors_relative]: every bound is
    exhausted). *)
Definition ancestors (p : string) : outcome (list string) :=
  ancestors_depth (S (String.length p)) p.

(** ** DirSkeleton *)

(** [Dirs.Less], on the two elements compared. *)
Definition Dirs_Less (ei ej : string) : bool :=
  let nI := strings.CountByte ei "/" in
  let nJ := strings.CountByte ej "/" in
  (nI <? nJ)%nat.

(** The loop [for _, file := range m.Files] of [DirSkeleton]: record all
    the parents.  The inner loop sets [tree[p] = true] for every [p] of the
    list, which adds the elements of the list to the set. *)
Fixpoint recordFileParents (files : list ManifestFile.t) (tree : gset string)
  : outcome (gset string) :=
  match files with
  | [] => Ok tree
  | file :: files' =>
      let dirpath := ManifestFile.Parent file in
      ps ← ancestors dirpath;
      recordFileParents files' (list_to_set ps ∪ tree)
  end.

(** The first loop [for _, d := range m.Directories] of [DirSkeleton]:
    record all the directory parents, check that a directory is not used
    twice. *)
Fixpoint recordDirParents (dirs : list ManifestDir.t)
    (tree allDirs : gset string) : outcome (gset string * gset string) :=
  match dirs with
  | [] => Ok (tree, allDirs)
  | d :: dirs' =>
      let '(dirParent, _) := filepath.Split (ManifestDir.Dirname d) in
      ps ← ancestors dirParent;
      let tree := list_to_set ps ∪ tree in
      if decide (ManifestDir.Dirname d ∈ allDirs) then
        Err (ErrDirectoryUsedTwice (ManifestDir.Dirname d))
      else
        recordDirParents dirs' tree ({[ ManifestDir.Dirname d ]} ∪ allDirs)
  end.

(** The last loop of [DirSkeleton]: make sure that the directories are all
    leaves on the skeleton. *)
Fixpoint checkLeaves (dirs : list ManifestDir.t) (tree : gset string)
    (elems : list string) : option error :=
  match dirs with
  | [] => None
  | d :: dirs' =>
      if decide (ManifestDir.Dirname d ∈ tree) then
        Some (ErrNotLeaf (ManifestDir.Dirname d) elems)
      else checkLeaves dirs' tree elems
  end.

Section DirSkeleton.

(** [for p, _ := range tree]: the keys of the map in the order in which
    this run of the program visits them. *)
Variable range_keys : gset string -> list string.

(** [sort.Sort] on a [Dirs], given its [Less]; the result is the slice
    after the call. *)
Variable sort_Sort : (string -> string -> bool) -> list string -> list string.

Definition DirSkeleton (m : Manifest) : outcome (list string) :=
  tree ← recordFileParents (Files m) ∅;
  '(tree, allDirs) ← recordDirParents (Directories m) tree ∅;
  let elements := range_keys tree in
  let de := sort_Sort Dirs_Less elements in
  (* do not include the root, because it already exists *)
  let retval := filter (fun e => e ≠ "/") de in
  match checkLeaves (Directories m) tree de with
  | Some err => Err err
  | None => Ok retval
  end.

End DirSkeleton.

(** A run of [DirSkeleton] in which the map is visited in the order of
    [elements] and the sort is a merge sort. *)
Definition sort_by_merge (less : string -> string -> bool) (l : list string)
  : list string :=
  @merge_sort string (fun a b => less b a = false)
    (fun a b => bool_eq_dec (less b a) false) l.

Definition DirSkeleton_run : Manifest -> outcome (list string) :=
  DirSkeleton elements sort_by_merge.

(** ** FillInMissingFields *)

(** Modelled from the spec: the record [DxDescribeBulkObjects] returns for a
    file, declared in a part of the repository that is not among the sources;
    the fields are those [FillInMissingFields] reads. *)
Module DxDescribe.
Record t : Type := mk {
  Name : string;
  Size : Z;
  CtimeMillisec : Z;
  MtimeMillisec : Z;
}.
End DxDescribe.

(** Modelled from the spec: the record [DxDescribeProject] returns, declared
    in a part of the repository that is not among the sources. *)
Module DxDescribePrj.
Record t : Type := mk {
  Id : string;
  Name : string;
  CtimeMillisec : Z;
  MtimeMillisec : Z;
}.
End DxDescribePrj.

(** The calls to the platform, in the order in which they are made. *)
Inductive remote_call : Type :=
  | CallDescribeBulkObjects (fileIds : list string)
  | CallDescribeProject (projId : string).

(** [fl.Fname == "" || fl.Size == 0 || fl.CtimeMillisec == 0 || fl.MtimeMillisec == 0] *)
Definition fileMissingDetails (fl : ManifestFile.t) : bool :=
  String.eqb (ManifestFile.Fname fl) ""
  || (ManifestFile.Size fl =? 0)%Z
  || (ManifestFile.CtimeMillisec fl =? 0)%Z
  || (ManifestFile.MtimeMillisec fl =? 0)%Z.

(** [d.CtimeMillisec == 0 || d.MtimeMillisec == 0] *)
Definition dirMissingTimes (d : ManifestDir.t) : bool :=
  (ManifestDir.CtimeMillisec d =? 0)%Z || (ManifestDir.MtimeMillisec d =? 0)%Z.

(** Make a list of all the files that are missing details. *)
Fixpoint collectFileIds (files : list ManifestFile.t) (fileIds : gset string)
  : gset string :=
  match files with
  | [] => fileIds
  | fl :: files' =>
      collectFileIds files'
        (if fileMissingDetails fl then {[ ManifestFile.FileId fl ]} ∪ fileIds
         else fileIds)
  end.

(** The body of the loop that fills in missing information for files. *)
Definition fillFile (dataObjs : gmap string DxDescribe.t) (fl : ManifestFile.t)
  : ManifestFile.t :=
  match dataObjs !! ManifestFile.FileId fl with
  | Some fDesc =>
      ManifestFile.mk (ManifestFile.ProjId fl) (ManifestFile.FileId fl)
        (ManifestFile.Parent fl)
        (if String.eqb (ManifestFile.Fname fl) "" then DxDescribe.Name fDesc
         else ManifestFile.Fname fl)
        (DxDescribe.Size fDesc)
        (DxDescribe.CtimeMillisec fDesc)
        (DxDescribe.MtimeMillisec fDesc)
  | None => fl
  end.

(** Make a list of all the projects we need to query. *)
Fixpoint collectProjectIds (dirs : list ManifestDir.t) (projectIds : gset string)
  : gset string :=
  match dirs with
  | [] => projectIds
  | d :: dirs' =>
      collectProjectIds dirs'
        (if dirMissingTimes d then {[ ManifestDir.ProjId d ]} ∪ projectIds
         else projectIds)
  end.

(** The body of the loop that fills in missing ctime, mtime for directories. *)
Definition fillDir (projDescs : gmap string DxDescribePrj.t) (d : ManifestDir.t)
  : ManifestDir.t :=
  match projDescs !! ManifestDir.ProjId d with
  | Some pDesc =>
      ManifestDir.mk (ManifestDir.ProjId d) (ManifestDir.Folder d)
        (ManifestDir.Dirname d)
        (DxDescribePrj.CtimeMillisec pDesc)
        (DxDescribePrj.MtimeMillisec pDesc)
  | None => d
  end.

Section FillInMissingFields.

(** The two describe calls of the repository, which are not among the
    sources: what each returns for its argument. *)
Variable DxDescribeBulkObjects :
  list string -> error + gmap string DxDescribe.t.
Variable DxDescribeProject : string -> error + DxDescribePrj.t.

(** [for fId, _ := range fileIds] and [for pId, _ := range projectIds]. *)
Variable range_fileIds : gset string -> list string.
Variable range_projectIds : gset string -> list string.

(** The loop [for pId, _ := range projectIds]: describe the projects.
    Returns the calls made, the map built so far and the error, if any. *)
Fixpoint describeProjects (pIds : list string)
    (projDescs : gmap string DxDescribePrj.t)
  : list remote_call * (error + gmap string DxDescribePrj.t) :=
  match pIds with
  | [] => ([], inr projDescs)
  | pId :: pIds' =>
      match DxDescribeProject pId with
      | inl err => ([CallDescribeProject pId], inl err)
      | inr pDesc =>
          let '(calls, r) :=
            describeProjects pIds' (<[ DxDescribePrj.Id pDesc := pDesc ]> projDescs) in
          (CallDescribeProject pId :: calls, r)
      end
  end.

(** [Manifest.FillInMissingFields]: the calls made to the platform, the
    manifest after the call (it is updated in place, also when the call
    returns an error) and the error returned.  The line written to the log
    is not modelled. *)
Definition FillInMissingFields (m : Manifest)
  : list remote_call * Manifest * option error :=
  let fileIds := collectFileIds (Files m) ∅ in
  let fileIdList := range_fileIds fileIds in
  match DxDescribeBulkObjects fileIdList with
  | inl err => ([CallDescribeBulkObjects fileIdList], m, Some err)
  | inr dataObjs =>
      let files := map (fillFile dataObjs) (Files m) in
      let projectIds := collectProjectIds (Directories m) ∅ in
      match describeProjects (range_projectIds projectIds) ∅ with
      | (calls, inl err) =>
          (CallDescribeBulkObjects fileIdList :: calls,
           mkManifest files (Directories m), Some err)
      | (calls, inr projDescs) =>
          (CallDescribeBulkObjects fileIdList :: calls,
           mkManifest files (map (fillDir projDescs) (Directories m)), None)
      end
  end.

End FillInMissingFields.

(** ** unicode/utf8 and unicode/utf16 *)

(** A byte as a number. *)
Definition byte_val (c : ascii) : N := N_of_ascii c.
Definition byte_of (n : N) : ascii := ascii_of_N (n mod 256).

Module utf8.

Definition RuneError : N := 65533.    (* U+FFFD *)
Definition RuneSelf : N := 128.
Definition MaxRune : N := 1114111.    (* U+10FFFF *)

(** What the table [first] says of a first byte: an ASCII byte, a byte that
    starts no encoding, or the first byte of an encoding of [size] bytes
    whose second byte is in [lo, hi]. *)
Inductive lead : Type :=
  | LeadASCII
  | LeadInvalid
  | Lead (size : nat) (lo hi : N).

Definition first (b : N) : lead :=
  if (b <? 128)%N then LeadASCII            (* 0x00-0x7F *)
  else if (b <? 194)%N then LeadInvalid     (* 0x80-0xC1 *)
  else if (b <? 224)%N then Lead 2 128 191  (* 0xC2-0xDF *)
  else if (b =? 224)%N then Lead 3 160 191  (* 0xE0 *)
  else if (b <? 237)%N then Lead 3 128 191  (* 0xE1-0xEC *)
  else if (b =? 237)%N then Lead 3 128 159  (* 0xED *)
  else if (b <? 240)%N then Lead 3 128 191  (* 0xEE-0xEF *)
  else if (b =? 240)%N then Lead 4 144 191  (* 0xF0 *)
  else if (b <? 244)%N then Lead 4 128 191  (* 0xF1-0xF3 *)
  else if (b =? 244)%N then Lead 4 128 143  (* 0xF4 *)
  else LeadInvalid.                         (* 0xF5-0xFF *)

(** A continuation byte: [locb <= b && b <= hicb]. *)
Definition continuation (b : N) : bool := (128 <=? b)%N && (b <=? 191)%N.

(** [utf8.DecodeRuneInString(s)]: the rune and its width in bytes;
    [(RuneError, 1)] for a byte that starts no valid encoding. *)
Definition DecodeRuneInString (s : string) : N * nat :=
  match s with
  | EmptyString => (RuneError, 0)
  | String c0 s1 =>
      let s0 := byte_val c0 in
      match first s0 with
      | LeadASCII => (s0, 1)
      | LeadInvalid => (RuneError, 1)
      | Lead sz lo hi =>
          match s1 with
          | EmptyString => (RuneError, 1)
          | String c1 s2 =>
              let b1 := byte_val c1 in
              if (b1 <? lo)%N || (hi <? b1)%N then (RuneError, 1)
              else if (sz <=? 2)%nat then
                (N.lor (N.shiftl (N.land s0 31) 6) (N.land b1 63), 2)
              else
                match s2 with
                | EmptyString => (RuneError, 1)
                | String c2 s3 =>
                    let b2 := byte_val c2 in
                    if negb (continuation b2) then (RuneError, 1)
                    else if (sz <=? 3)%nat then
                      (N.lor (N.lor (N.shiftl (N.land s0 15) 12)
                                (N.shiftl (N.land b1 63) 6))
                         (N.land b2 63), 3)
                    else
                      match s3 with
                      | EmptyString => (RuneError, 1)
                      | String c3 _ =>
                          let b3 := byte_val c3 in
                          if negb (continuation b3) then (RuneError, 1)
                          else
                            (N.lor (N.lor (N.lor (N.shiftl (N.land s0 7) 18)
                                             (N.shiftl (N.land b1 63) 12))
                                      (N.shiftl (N.land b2 63) 6))
                               (N.land b3 63), 4)
                      end
                end
          end
      end
  end.

(** [utf8.EncodeRune]: the bytes written for a rune. *)
Definition encode3 (r : N) : string :=
  String (byte_of (N.lor 224 (N.shiftr r 12)))
    (String (byte_of (N.lor 128 (N.land (N.shiftr r 6) 63)))
       (String (byte_of (N.lor 128 (N.land r 63))) "")).

Definition EncodeRune (r : N) : string :=
  if (r <=? 127)%N then String (byte_of r) ""
  else if (r <=? 2047)%N then
    String (byte_of (N.lor 192 (N.shiftr r 6)))
      (String (byte_of (N.lor 128 (N.land r 63))) "")
  else if (MaxRune <? r)%N || ((55296 <=? r)%N && (r <=? 57343)%N) then
    encode3 RuneError
  else if (r <=? 65535)%N then encode3 r
  else
    String (byte_of (N.lor 240 (N.shiftr r 18)))
      (String (byte_of (N.lor 128 (N.land (N.shiftr r 12) 63)))
         (String (byte_of (N.lor 128 (N.land (N.shiftr r 6) 63)))
            (String (byte_of (N.lor 128 (N.land r 63))) ""))).

(** What is left of a string after the [size] bytes of its first rune. *)
Definition after_rune (size : nat) (rest : string) : string :=
  match size, rest with
  | 2, String _ r => r
  | 3, String _ (String _ r) => r
  | 4, String _ (String _ (String _ r)) => r
  | _, _ => rest
  end.

(** [utf8.ValidString(s)]: no byte of [s] is decoded as [(RuneError, 1)]. *)
Fixpoint ValidString (s : string) : bool :=
  match s with
  | EmptyString => true
  | String c rest =>
      let '(r, size) := DecodeRuneInString s in
      if (r =? RuneError)%N && (size =? 1)%nat then false
      else
        match size, rest with
        | 2, String _ r => ValidString r
        | 3, String _ (String _ r) => ValidString r
        | 4, String _ (String _ (String _ r)) => ValidString r
        | _, _ => ValidString rest
        end
  end.

End utf8.

Module utf16.

(** [utf16.IsSurrogate(r)] *)
Definition IsSurrogate (r : N) : bool := (55296 <=? r)%N && (r <? 57344)%N.

(** [utf16.DecodeRune(r1, r2)]: the rune of a surrogate pair, U+FFFD when
    the two are no pair. *)
Definition DecodeRune (r1 r2 : N) : N :=
  if (55296 <=? r1)%N && (r1 <? 56320)%N && (56320 <=? r2)%N && (r2 <? 57344)%N
  then (N.lor (N.shiftl (r1 - 55296) 10) (r2 - 56320) + 65536)%N
  else utf8.RuneError.

End utf16.

(** ** strconv *)

Module strconv.

(** [strconv.FormatInt(z, 10)]: the decimal digits, after "-" when [z] is
    negative. *)
Definition FormatInt (z : Z) : string := NilZero.string_of_int (Z.to_int z).

(** [strconv.ParseInt(s, 10, 64)] on a string of decimal digits after an
    optional "-", before the check of the range. *)
Definition ParseInt (s : string) : option Z :=
  option_map Z.of_int (NilZero.int_of_string s).

End strconv.

(** ** encoding/json *)

(** A JSON document as a tree.  [encode] writes the text of a document
    and [scan] reads the document of a text, as the encoder and the scanner
    of [encoding/json] do; [Marshal] and [Unmarshal] map the three
    structures of the manifest to documents and back, as the [json:"..."]
    tags of the source decide. *)
#[warnings="-register-all"] Inductive json : Type :=
  | JNull
  | JBool (b : bool)
  | JNumber (z : Z)            (* a number literal without fraction or exponent *)
  | JFloat (literal : string)  (* any other number literal *)
  | JString (s : string)
  | JArray (elems : list json)
  | JObject (members : list (string * json)).

Module encoding_json.

Definition int64_min : Z := - 2 ^ 63.
Definition int64_max : Z := 2 ^ 63 - 1.
Definition is_int64 (z : Z) : bool := (int64_min <=? z)%Z && (z <=? int64_max)%Z.

(** *** The encoder *)

(** [hex[n]], for [n < 16]. *)
Definition hex (n : N) : ascii :=
  if (n <? 10)%N then ascii_of_N (48 + n) else ascii_of_N (87 + n).

(** [htmlSafeSet[b]], for an ASCII byte: every byte from the space on but
    the quote, the backslash, and the three that HTML escaping covers. *)
Definition htmlSafe (b : ascii) : bool :=
  (32 <=? byte_val b)%N
  && negb (Ascii.eqb b "034") && negb (Ascii.eqb b "\")
  && negb (Ascii.eqb b "<") && negb (Ascii.eqb b ">") && negb (Ascii.eqb b "&").

(** What is written for an ASCII byte that is not safe.  (From Go 1.22 on,
    the bytes 8 and 12 are written [\b] and [\f]; the decoder reads both
    forms as the same byte.) *)
Definition escapeByte (b : ascii) : string :=
  if Ascii.eqb b "\" || Ascii.eqb b "034" then String "\" (String b "")
  else if Ascii.eqb b "010" then "\n"
  else if Ascii.eqb b "013" then "\r"
  else if Ascii.eqb b "009" then "\t"
  else "\u00" +:+ String (hex (N.shiftr (byte_val b) 4))
                    (String (hex (N.land (byte_val b) 15)) "").

(** The loop of [appendString] over the bytes of [src], with HTML
    escaping: a byte that is no valid UTF-8 is written as the escape of U+FFFD, and
    U+2028 and U+2029 are written as escapes. *)
Fixpoint appendString_loop (src : string) : string :=
  match src with
  | EmptyString => ""
  | String b rest =>
      if (byte_val b <? utf8.RuneSelf)%N then
        (if htmlSafe b then String b "" else escapeByte b)
        +:+ appendString_loop rest
      else
        let '(c, size) := utf8.DecodeRuneInString src in
        if (c =? utf8.RuneError)%N && (size =? 1)%nat then
          "\ufffd" +:+ appendString_loop rest
        else
          let out :=
            if (c =? 8232)%N || (c =? 8233)%N    (* U+2028, U+2029 *)
            then "\u202" +:+ String (hex (N.land c 15)) ""
            else substring 0 size src in
          match size, rest with
          | 2, String _ r
          | 3, String _ (String _ r)
          | 4, String _ (String _ (String _ r)) => out +:+ appendString_loop r
          | _, _ => out +:+ appendString_loop rest
          end
  end.

Definition appendString (src : string) : string :=
  String "034" (appendString_loop src +:+ String "034" "").

(** [strings.Join(elems, ",")] *)
Fixpoint join_comma (elems : list string) : string :=
  match elems with
  | [] => ""
  | [e] => e
  | e :: elems' => e +:+ String "," (join_comma elems')
  end.

(** The text of a document, as the encoder writes it: no space, and the
    members of an object in their order. *)
Fixpoint encode (v : json) : string :=
  match v with
  | JNull => "null"
  | JBool true => "true"
  | JBool false => "false"
  | JNumber z => strconv.FormatInt z
  | JFloat literal => literal
  | JString s => appendString s
  | JArray elems => String "[" (join_comma (map encode elems) +:+ "]")
  | JObject members =>
      String "{"
        (join_comma (map (fun m => appendString (fst m) +:+ String ":" (encode (snd m)))
                       members) +:+ "}")
  end.

(** *** The scanner *)

(** [isSpace(c)] *)
Definition isSpace (c : ascii) : bool :=
  Ascii.eqb c " " || Ascii.eqb c "009" || Ascii.eqb c "013" || Ascii.eqb c "010".

Fixpoint skipSpace (s : string) : string :=
  match s with
  | String c rest => if isSpace c then skipSpace rest else s
  | EmptyString => s
  end.

Definition isDigit (c : ascii) : bool :=
  (48 <=? byte_val c)%N && (byte_val c <=? 57)%N.

(** The value of a hexadecimal digit, as [getu4] reads it. *)
Definition hexValue (c : ascii) : option N :=
  let b := byte_val c in
  if (48 <=? b)%N && (b <=? 57)%N then Some (b - 48)%N          (* 0-9 *)
  else if (97 <=? b)%N && (b <=? 102)%N then Some (b - 97 + 10)%N  (* a-f *)
  else if (65 <=? b)%N && (b <=? 70)%N then Some (b - 65 + 10)%N   (* A-F *)
  else None.

Definition isHex (c : ascii) : bool :=
  match hexValue c with Some _ => true | None => false end.

(** The states [stateInString], [stateInStringEsc] and
    [stateInStringEscU...] of the scanner: from the byte after the opening
    quote, the bytes of the literal up to its closing quote, and what
    follows the closing quote. *)
Fixpoint scanString (s : string) : option (string * string) :=
  match s with
  | EmptyString => None
  | String c rest =>
      if Ascii.eqb c "034" then Some ("", rest)
      else if Ascii.eqb c "\" then
        match rest with
        | EmptyString => None
        | String e rest1 =>
            if Ascii.eqb e "b" || Ascii.eqb e "f" || Ascii.eqb e "n"
               || Ascii.eqb e "r" || Ascii.eqb e "t" || Ascii.eqb e "\"
               || Ascii.eqb e "/" || Ascii.eqb e "034"
            then
              '(lit, after) ← scanString rest1;
              Some (String c (String e lit), after)
            else if Ascii.eqb e "u" then
              match rest1 with
              | String h1 (String h2 (String h3 (String h4 rest5))) =>
                  if isHex h1 && isHex h2 && isHex h3 && isHex h4
                  then
                    '(lit, after) ← scanString rest5;
                    Some (String c (String e (String h1 (String h2
                            (String h3 (String h4 lit))))), after)
                  else None
              | _ => None
              end
            else None
        end
      else if (byte_val c <? 32)%N then None
      else
        '(lit, after) ← scanString rest;
        Some (String c lit, after)
  end.

(** The digits at the start of a text, and what follows them. *)
Fixpoint scanDigits (s : string) : string * string :=
  match s with
  | String c rest =>
      if isDigit c then
        let '(ds, after) := scanDigits rest in (String c ds, after)
      else ("", s)
  | EmptyString => ("", s)
  end.

(** The states [state0] and [state1] of the scanner: the digits before the
    fraction, "0" or a digit from 1 to 9 and more digits. *)
Definition scanInt (s : string) : option (string * string) :=
  match s with
  | String c rest =>
      if Ascii.eqb c "0" then Some ("0", rest)
      else if isDigit c then
        let '(ds, after) := scanDigits rest in Some (String c ds, after)
      else None
  | EmptyString => None
  end.

(** The states [stateDot] and [stateDot0]: the fraction, if there is one. *)
Definition scanFrac (s : string) : option (string * string) :=
  match s with
  | String c rest =>
      if Ascii.eqb c "." then
        let '(ds, after) := scanDigits rest in
        match ds with
        | EmptyString => None
        | _ => Some (String c ds, after)
        end
      else Some ("", s)
  | EmptyString => Some ("", s)
  end.

(** The states [stateE], [stateESign] and [stateE0]: the exponent, if
    there is one. *)
Definition scanExp (s : string) : option (string * string) :=
  match s with
  | String c rest =>
      if Ascii.eqb c "e" || Ascii.eqb c "E" then
        let '(sg, rest1) :=
          match rest with
          | String c1 rest' =>
              if Ascii.eqb c1 "+" || Ascii.eqb c1 "-"
              then (String c1 "", rest') else ("", rest)
          | EmptyString => ("", rest)
          end in
        let '(ds, after) := scanDigits rest1 in
        match ds with
        | EmptyString => None
        | _ => Some (String c (sg +:+ ds), after)
        end
      else Some ("", s)
  | EmptyString => Some ("", s)
  end.

(** The number literal at the start of a text (from [stateNeg] on when it
    starts with "-"), whether it has neither fraction nor exponent, and what
    follows it. *)
Definition scanNumber (s : string) : option (string * bool * string) :=
  let '(sign, s1) :=
    match s with
    | String c rest => if Ascii.eqb c "-" then ("-", rest) else ("", s)
    | EmptyString => ("", s)
    end in
  '(int, s2) ← scanInt s1;
  '(frac, s3) ← scanFrac s2;
  '(exp, s4) ← scanExp s3;
  Some (sign +:+ int +:+ frac +:+ exp,
        String.eqb frac "" && String.eqb exp "", s4).

(** [getu4(s)]: the rune of the escape [\uXXXX] at the start of [s];
    [None] is Go's -1. *)
Definition getu4 (s : string) : option N :=
  match s with
  | String b (String u (String h1 (String h2 (String h3 (String h4 _))))) =>
      if Ascii.eqb b "\" && Ascii.eqb u "u" then
        d1 ← hexValue h1; d2 ← hexValue h2; d3 ← hexValue h3; d4 ← hexValue h4;
        Some (((d1 * 16 + d2) * 16 + d3) * 16 + d4)%N
      else None
  | _ => None
  end.

(** The loop of [unquoteBytes] over the bytes between the quotes of a
    literal: escapes are replaced by what they stand for, a surrogate
    without its pair and a byte that is no valid UTF-8 by U+FFFD. *)
Fixpoint unquote_loop (s : string) : option string :=
  match s with
  | EmptyString => Some ""
  | String c rest =>
      if Ascii.eqb c "\" then
        match rest with
        | EmptyString => None
        | String e rest1 =>
            if Ascii.eqb e "034" || Ascii.eqb e "\" || Ascii.eqb e "/"
               || Ascii.eqb e "'"
            then String e <$> unquote_loop rest1
            else if Ascii.eqb e "b" then String "008" <$> unquote_loop rest1
            else if Ascii.eqb e "f" then String "012" <$> unquote_loop rest1
            else if Ascii.eqb e "n" then String "010" <$> unquote_loop rest1
            else if Ascii.eqb e "r" then String "013" <$> unquote_loop rest1
            else if Ascii.eqb e "t" then String "009" <$> unquote_loop rest1
            else if Ascii.eqb e "u" then
              match getu4 s, rest1 with
              | Some rr, String _ (String _ (String _ (String _ rest5))) =>
                  if utf16.IsSurrogate rr then
                    let dec :=
                      match getu4 rest5 with
                      | Some rr1 => utf16.DecodeRune rr rr1
                      | None => utf8.RuneError
                      end in
                    match (dec =? utf8.RuneError)%N, rest5 with
                    | false, String _ (String _ (String _ (String _
                               (String _ (String _ rest11))))) =>
                        (* a valid pair; consume *)
                        append (utf8.EncodeRune dec) <$> unquote_loop rest11
                    | _, _ =>
                        (* invalid surrogate; fall back to replacement rune *)
                        append (utf8.EncodeRune utf8.RuneError)
                          <$> unquote_loop rest5
                    end
                  else append (utf8.EncodeRune rr) <$> unquote_loop rest5
              | _, _ => None
              end
            else None
        end
      else if Ascii.eqb c "034" || (byte_val c <? 32)%N then None
      else if (byte_val c <? utf8.RuneSelf)%N then String c <$> unquote_loop rest
      else
        (* coerce to well-formed UTF-8 *)
        let '(rr, size) := utf8.DecodeRuneInString s in
        match size, rest with
        | 2, String _ r
        | 3, String _ (String _ r)
        | 4, String _ (String _ (String _ r)) =>
            append (utf8.EncodeRune rr) <$> unquote_loop r
        | _, _ => append (utf8.EncodeRune rr) <$> unquote_loop rest
        end
  end.

(** [maxNestingDepth] *)
Definition maxNestingDepth : N := 10000.

(** What the parser is reading: a value, the elements of an array after
    those of [acc], or the members of an object after those of [acc]. *)
Inductive reading : Type :=
  | RValue
  | RElements (acc : list json)
  | RMembers (acc : list (string * json)).

Definition stripPrefix (p s : string) : option string :=
  if String.prefix p s
  then Some (substring (String.length p) (String.length s - String.length p) s)
  else None.

(** A string literal after its opening quote: what it stands for, and the
    text after it. *)
Definition parseString (s : string) : option (string * string) :=
  '(lit, after) ← scanString s;
  str ← unquote_loop lit;
  Some (str, after).

(** The document at the start of a text and the text after it; [fuel]
    bounds the number of nested calls and [depth] is the number of arrays
    and objects that are open. *)
Fixpoint parse (fuel : nat) (depth : N) (what : reading) (s : string)
  : option (json * string) :=
  match fuel with
  | 0 => None
  | S fuel' =>
      match what with
      | RValue =>
          match s with
          | EmptyString => None
          | String c rest =>
              if Ascii.eqb c "{" then
                if (maxNestingDepth <=? depth)%N then None
                else
                  match skipSpace rest with
                  | String c1 rest1 =>
                      if Ascii.eqb c1 "}" then Some (JObject [], rest1)
                      else parse fuel' (depth + 1)%N (RMembers []) (skipSpace rest)
                  | EmptyString => None
                  end
              else if Ascii.eqb c "[" then
                if (maxNestingDepth <=? depth)%N then None
                else
                  match skipSpace rest with
                  | String c1 rest1 =>
                      if Ascii.eqb c1 "]" then Some (JArray [], rest1)
                      else parse fuel' (depth + 1)%N (RElements []) (skipSpace rest)
                  | EmptyString => None
                  end
              else if Ascii.eqb c "034" then
                '(str, after) ← parseString rest; Some (JString str, after)
              else if Ascii.eqb c "-" || isDigit c then
                '(lit, isInt, after) ← scanNumber s;
                if isInt : bool then
                  z ← strconv.ParseInt lit; Some (JNumber z, after)
                else Some (JFloat lit, after)
              else if Ascii.eqb c "t" then
                after ← stripPrefix "true" s; Some (JBool true, after)
              else if Ascii.eqb c "f" then
                after ← stripPrefix "false" s; Some (JBool false, after)
              else if Ascii.eqb c "n" then
                after ← stripPrefix "null" s; Some (JNull, after)
              else None
          end
      | RElements acc =>
          '(v, after) ← parse fuel' depth RValue s;
          match skipSpace after with
          | String c rest =>
              if Ascii.eqb c "," then
                parse fuel' depth (RElements (acc ++ [v])) (skipSpace rest)
              else if Ascii.eqb c "]" then Some (JArray (acc ++ [v]), rest)
              else None
          | EmptyString => None
          end
      | RMembers acc =>
          match s with
          | String c rest =>
              if Ascii.eqb c "034" then
                '(key, after) ← parseString rest;
                match skipSpace after with
                | String c1 rest1 =>
                    if Ascii.eqb c1 ":" then
                      '(v, after1) ← parse fuel' depth RValue (skipSpace rest1);
                      match skipSpace after1 with
                      | String c2 rest2 =>
                          if Ascii.eqb c2 "," then
                            parse fuel' depth (RMembers (acc ++ [(key, v)]))
                              (skipSpace rest2)
                          else if Ascii.eqb c2 "}" then
                            Some (JObject (acc ++ [(key, v)]), rest2)
                          else None
                      | EmptyString => None
                      end
                    else None
                | EmptyString => None
                end
              else None
          | EmptyString => None
          end
      end
  end.

(** The document of a text: one value, with nothing but space before and
    after it.  The fuel is enough for any text: a call of [parse] that
    gives a result gives it with as much fuel as it takes bytes. *)
Definition scan (data : string) : option json :=
  '(v, after) ← parse (S (String.length data)) 0 RValue (skipSpace data);
  match skipSpace after with
  | EmptyString => Some v
  | String _ _ => None
  end.

(** *** Marshal *)

(** A field tagged [omitempty] is left out when it is "" or 0. *)
Definition omitemptyString (name s : string) : list (string * json) :=
  if String.eqb s "" then [] else [(name, JString s)].
Definition omitemptyInt64 (name : string) (z : Z) : list (string * json) :=
  if (z =? 0)%Z then [] else [(name, JNumber z)].

Definition marshalFile (fl : ManifestFile.t) : json :=
  JObject ([("proj_id", JString (ManifestFile.ProjId fl));
            ("file_id", JString (ManifestFile.FileId fl));
            ("parent", JString (ManifestFile.Parent fl))]
           ++ omitemptyString "fname" (ManifestFile.Fname fl)
           ++ omitemptyInt64 "size" (ManifestFile.Size fl)
           ++ omitemptyInt64 "ctime" (ManifestFile.CtimeMillisec fl)
           ++ omitemptyInt64 "mtime" (ManifestFile.MtimeMillisec fl))%list.

Definition marshalDir (d : ManifestDir.t) : json :=
  JObject ([("proj_id", JString (ManifestDir.ProjId d));
            ("folder", JString (ManifestDir.Folder d));
            ("dirname", JString (ManifestDir.Dirname d))]
           ++ omitemptyInt64 "ctime" (ManifestDir.CtimeMillisec d)
           ++ omitemptyInt64 "mtime" (ManifestDir.MtimeMillisec d))%list.

(** A slice is written [null] when it is nil and as an array otherwise.  A
    list does not tell a nil slice from a slice without elements that is
    not nil: [isNil] says which of the two the empty list stands for. *)
Definition marshalSlice (isNil : bool) (elems : list json) : json :=
  match elems with
  | [] => if isNil then JNull else JArray []
  | _ :: _ => JArray elems
  end.

(** The document that [json.Marshal(m)] writes, [encode] giving its
    text; [nilFiles] and [nilDirs] say whether [m.Files] and
    [m.Directories] are nil when they have no element.  The strings are
    the strings of [m]: it is [encode] that replaces what is no UTF-8. *)
Definition Marshal (nilFiles nilDirs : bool) (m : Manifest) : json :=
  JObject [("files", marshalSlice nilFiles (map marshalFile (Files m)));
           ("directories", marshalSlice nilDirs (map marshalDir (Directories m)))].

(** *** Unmarshal *)

(** The key of an object member matches a field when it equals the name in
    the field's tag, or equals it under case folding: ASCII letters
    without regard to case, the Kelvin sign (bytes E2 84 AA) for [k] and
    the long s (bytes C5 BF) for [s]. *)
Definition lowerByte (c : ascii) : ascii :=
  let n := nat_of_ascii c in
  if (65 <=? n)%nat && (n <=? 90)%nat then ascii_of_nat (n + 32) else c.

Fixpoint foldKey (key : string) : string :=
  match key with
  | EmptyString => EmptyString
  | String "226" (String "132" (String "170" key')) => String "k" (foldKey key')
  | String "197" (String "191" key') => String "s" (foldKey key')
  | String c key' => String (lowerByte c) (foldKey key')
  end.

Definition keyMatches (key name : string) : bool :=
  String.eqb key name || String.eqb (foldKey key) name.

(** Decoding a value into a [string] or an [int64] that holds [cur]:
    [null] leaves the field as it is, a value of the wrong type (or a
    number that does not fit) is an error. *)
Definition intoString (cur : string) (v : json) : option string :=
  match v with
  | JString s => Some s
  | JNull => Some cur
  | _ => None
  end.

Definition intoInt64 (cur : Z) (v : json) : option Z :=
  match v with
  | JNumber z => if is_int64 z then Some z else None
  | JNull => Some cur
  | _ => None
  end.

(** One member of an object decoded into a [ManifestFile]. *)
Definition setFileField (fl : ManifestFile.t) (member : string * json)
  : option ManifestFile.t :=
  let '(key, v) := member in
  let '(ManifestFile.mk projId fileId parent fname size ctime mtime) := fl in
  if keyMatches key "proj_id" then
    s ← intoString projId v; Some (ManifestFile.mk s fileId parent fname size ctime mtime)
  else if keyMatches key "file_id" then
    s ← intoString fileId v; Some (ManifestFile.mk projId s parent fname size ctime mtime)
  else if keyMatches key "parent" then
    s ← intoString parent v; Some (ManifestFile.mk projId fileId s fname size ctime mtime)
  else if keyMatches key "fname" then
    s ← intoString fname v; Some (ManifestFile.mk projId fileId parent s size ctime mtime)
  else if keyMatches key "size" then
    z ← intoInt64 size v; Some (ManifestFile.mk projId fileId parent fname z ctime mtime)
  else if keyMatches key "ctime" then
    z ← intoInt64 ctime v; Some (ManifestFile.mk projId fileId parent fname size z mtime)
  else if keyMatches key "mtime" then
    z ← intoInt64 mtime v; Some (ManifestFile.mk projId fileId parent fname size ctime z)
  else Some fl.

(** One member of an object decoded into a [ManifestDir]. *)
Definition setDirField (d : ManifestDir.t) (member : string * json)
  : option ManifestDir.t :=
  let '(key, v) := member in
  let '(ManifestDir.mk projId folder dirname ctime mtime) := d in
  if keyMatches key "proj_id" then
    s ← intoString projId v; Some (ManifestDir.mk s folder dirname ctime mtime)
  else if keyMatches key "folder" then
    s ← intoString folder v; Some (ManifestDir.mk projId s dirname ctime mtime)
  else if keyMatches key "dirname" then
    s ← intoString dirname v; Some (ManifestDir.mk projId folder s ctime mtime)
  else if keyMatches key "ctime" then
    z ← intoInt64 ctime v; Some (ManifestDir.mk projId folder dirname z mtime)
  else if keyMatches key "mtime" then
    z ← intoInt64 mtime v; Some (ManifestDir.mk projId folder dirname ctime z)
  else Some d.

(** The members of an object are decoded in order, a later member
    overwriting what an earlier one set. *)
Fixpoint setFields {A : Type} (set : A -> string * json -> option A)
    (cur : A) (members : list (string * json)) : option A :=
  match members with
  | [] => Some cur
  | member :: members' => cur' ← set cur member; setFields set cur' members'
  end.

(** A value decoded into a structure that holds [cur]. *)
Definition intoStruct {A : Type} (set : A -> string * json -> option A)
    (cur : A) (v : json) : option A :=
  match v with
  | JObject members => setFields set cur members
  | JNull => Some cur
  | _ => None
  end.

(** A slice as the decoder finds it: its elements, and the elements of its
    array that lie behind its length.  The latter were decoded under an
    earlier occurrence of the same key, which a later and shorter one cut
    off; they are met again when the slice is extended within its array.
    (What has never been written is zero, and the array is only replaced
    when the slice fills it, so nothing else of the array matters.) *)
Record slice (A : Type) : Type :=
  mkSlice { slice_elems : list A; slice_spare : list A }.
Arguments mkSlice {A} slice_elems slice_spare.
Arguments slice_elems {A} s.
Arguments slice_spare {A} s.

(** The loop of [decodeState.array] over the elements of an array, [array]
    being what the array of the slice holds from index [i] on: element [i]
    is decoded into [v.Index(i)], which is the element that is there, within
    the length of the slice or behind it, and a zero value when there is
    none.  Returns the elements decoded and what the array holds behind
    them. *)
Fixpoint intoElems {A : Type} (into : A -> json -> option A) (zero : A)
    (array : list A) (elems : list json) : option (list A * list A) :=
  match elems with
  | [] => Some ([], array)
  | v :: elems' =>
      x ← into (hd zero array) v;
      '(xs, spare) ← intoElems into zero (tl array) elems';
      Some (x :: xs, spare)
  end.

(** A value decoded into a slice: [null] sets the slice to nil; an array
    without elements sets it to [MakeSlice(0, 0)], a slice with an array of
    its own; any other array is decoded into the elements of the slice and
    of its array, and the length is set to the number of elements read. *)
Definition intoSlice {A : Type} (into : A -> json -> option A) (zero : A)
    (cur : slice A) (v : json) : option (slice A) :=
  match v with
  | JArray [] => Some (mkSlice [] [])
  | JArray elems =>
      '(xs, spare) ← intoElems into zero (slice_elems cur ++ slice_spare cur) elems;
      Some (mkSlice xs spare)
  | JNull => Some (mkSlice [] [])
  | _ => None
  end.

Definition zeroFile : ManifestFile.t := ManifestFile.mk "" "" "" "" 0 0 0.
Definition zeroDir : ManifestDir.t := ManifestDir.mk "" "" "" 0 0.

(** One member of an object decoded into [mRaw], of which the decoder
    holds the two slices. *)
Definition setManifestField
    (mRaw : slice ManifestFile.t * slice ManifestDir.t) (member : string * json)
  : option (slice ManifestFile.t * slice ManifestDir.t) :=
  let '(key, v) := member in
  let '(files, directories) := mRaw in
  if keyMatches key "files" then
    fls ← intoSlice (intoStruct setFileField) zeroFile files v;
    Some (fls, directories)
  else if keyMatches key "directories" then
    ds ← intoSlice (intoStruct setDirField) zeroDir directories v;
    Some (files, ds)
  else Some mRaw.

(** [json.Unmarshal(data, &mRaw)] on the document of [data], [mRaw] being
    the zero manifest, whose slices are nil; [None] is an error. *)
Definition Unmarshal (doc : json) : option Manifest :=
  '(files, directories) ←
    intoStruct setManifestField (mkSlice [] [], mkSlice [] []) doc;
  Some (mkManifest (slice_elems files) (slice_elems directories)).

End encoding_json.

(** ** ReadManifest *)

Section ReadManifest.

(** [ioutil.ReadFile]: the contents of the file, [None] when it cannot be
    read. *)
Variable ioutil_ReadFile : string -> option string.

(** The scanner of [encoding/json]: the document of a text, [None] when
    the text is not JSON.  It is [encoding_json.scan]; what does not depend
    on the text is shown for any scanner. *)
Variable json_scan : string -> option json.

Definition json_Unmarshal (data : string) : option Manifest :=
  doc ← json_scan data; encoding_json.Unmarshal doc.

(** [ReadManifest]: read the manifest from a file into a memory structure.
    Reading a [bytes.Reader] over [srcData] to its end gives [srcData]. *)
Definition ReadManifest (fname : string) : outcome Manifest :=
  match ioutil_ReadFile fname with
  | None => Panic
  | Some srcData =>
      let data := srcData in
      match json_Unmarshal data with
      | None => Err ErrUnmarshal
      | Some mRaw =>
          match Validate mRaw with
          | Some err => Err err
          | None => Ok (Clean mRaw)
          end
      end
  end.

End ReadManifest.

(* ================================================================== *)
(** * Part I, continued: the vocabulary of the properties

    The definitions below are not code of the repository.  They name what
    the properties of Part II speak of: the shape of a canonical path, what
    [Validate] checks, what [FillInMissingFields] looks at, what JSON can
    carry, and a few concrete manifests and a concrete platform on which the
    properties are tried. *)
(* ================================================================== *)

(** ** Absolute paths as lists of names *)

(** No byte of [s] is a separator. *)
Fixpoint sep_free (s : string) : bool :=
  match s with
  | EmptyString => true
  | String c s' => negb (filepath.IsPathSeparator c) && sep_free s'
  end.

(** A name: a path element that [Clean] keeps. *)
Definition is_name (e : string) : bool :=
  sep_free e && negb (String.eqb e "") && negb (String.eqb e ".")
  && negb (String.eqb e "..").

(** A list of names. *)
Definition names (cs : list string) : Prop := Forall (fun c => is_name c = true) cs.

(** [strings.Join(cs, "/")] *)
Fixpoint join_slash (cs : list string) : string :=
  match cs with
  | [] => ""
  | c :: cs' =>
      match cs' with
      | [] => c
      | _ :: _ => c +:+ String "/" (join_slash cs')
      end
  end.

(** The absolute path of the names [cs]: "/" for no name, "/a/b" for
    ["a"; "b"]. *)
Definition render (cs : list string) : string := String "/" (join_slash cs).

(** What follows the first element of a joined list. *)
Definition tail_of (es : list string) : string :=
  match es with
  | [] => ""
  | _ :: _ => String "/" (join_slash es)
  end.

(** [strings.Split(s, "/")] *)
Fixpoint split_slash (s : string) : list string :=
  match s with
  | EmptyString => [""]
  | String c s' =>
      if filepath.IsPathSeparator c then "" :: split_slash s'
      else match split_slash s' with
           | e :: es => String c e :: es
           | [] => [String c ""]
           end
  end.

(** What [Clean] does with one element of a rooted path, on the names kept
    so far. *)
Definition step (cs : list string) (e : string) : list string :=
  if String.eqb e "" || String.eqb e "." then cs
  else if String.eqb e ".." then removelast cs
  else cs ++ [e].

Definition normalize (es : list string) : list string := foldl step [] es.

(** The length of the path of [cs], the root apart. *)
Definition weight (cs : list string) : nat :=
  foldr (fun c n => S (String.length c) + n) 0 cs.

(** The buffer of [Clean] that holds the path of [cs]. *)
Definition buf (cs : list string) : list ascii :=
  rev (list_ascii_of_string (render cs)).

(** The prefixes of a list, the shortest first. *)
Fixpoint inits {A : Type} (l : list A) : list (list A) :=
  [] :: match l with
        | [] => []
        | x :: l' => map (cons x) (inits l')
        end.

(** The names of the canonical form of an absolute path. *)
Definition names_of (p : string) : list string :=
  match p with
  | EmptyString => []
  | String _ s => normalize (split_slash s)
  end.

Definition absolute (p : string) : Prop := exists rest, p = String "/" rest.


(** ** Manifests as sets of paths *)

(** The mount paths of a manifest, in the order of its directory entries. *)
Definition mounts (m : Manifest) : list string :=
  map ManifestDir.Dirname (Directories m).

(** Every parent path and every mount path is absolute, which is what
    [Validate] requires of the paths. *)
Definition paths_absolute (m : Manifest) : Prop :=
  Forall (fun fl => absolute (ManifestFile.Parent fl)) (Files m)
  /\ Forall (fun d => absolute (ManifestDir.Dirname d)) (Directories m).

(** No mount path of [ms] occurs twice or is in [allDirs]. *)
Definition fresh_mounts (ms : list string) (allDirs : gset string) : Prop :=
  NoDup ms /\ Forall (fun x => x ∉ allDirs) ms.

(** [p] is a directory above [q]: [q] is [p], a separator and some more. *)
Definition ancestor_dir (p q : string) : Prop :=
  exists r, q = p +:+ String "/" r.

(** [a] has no more separators than [b]. *)
Definition slashes_le (a b : string) : Prop :=
  strings.CountByte a "/" <= strings.CountByte b "/".

(** A directory entry that mounts the root folder of a project at [path],
    and a file entry under [parent]; used in examples. *)
Definition example_dir (path : string) : ManifestDir.t :=
  ManifestDir.mk "project-1" "/" path 0 0.
Definition example_file (parent : string) : ManifestFile.t :=
  ManifestFile.mk "project-1" "file-1" parent "" 0 0 0.

(** A non-empty path that does not start with a separator. *)
Definition relative (p : string) : Prop :=
  exists c rest, p = String c rest /\ filepath.IsPathSeparator c = false.

(** The first byte written to the buffer of [Clean], if any, is not a
    separator. *)
Definition unrooted (out : list ascii) : Prop :=
  forall c, last out = Some c -> filepath.IsPathSeparator c = false.

(** ** What Validate checks *)

Definition has_prefix (pre s : string) : Prop := exists rest, s = pre +:+ rest.

Definition valid_project_id (pId : string) : Prop :=
  has_prefix "project-" pId \/ has_prefix "container-" pId.

Definition file_entry_ok (fl : ManifestFile.t) : Prop :=
  valid_project_id (ManifestFile.ProjId fl)
  /\ has_prefix "file-" (ManifestFile.FileId fl)
  /\ absolute (ManifestFile.Parent fl).

Definition dir_entry_ok (d : ManifestDir.t) : Prop :=
  valid_project_id (ManifestDir.ProjId d)
  /\ absolute (ManifestDir.Dirname d).

Definition manifest_ok (m : Manifest) : Prop :=
  Forall file_entry_ok (Files m) /\ Forall dir_entry_ok (Directories m).

(** ** What FillInMissingFields looks at *)

(** A file entry lacks its name, its size or one of its times. *)
Definition file_incomplete (fl : ManifestFile.t) : Prop :=
  ManifestFile.Fname fl = "" \/ ManifestFile.Size fl = 0%Z
  \/ ManifestFile.CtimeMillisec fl = 0%Z \/ ManifestFile.MtimeMillisec fl = 0%Z.

(** A directory entry lacks one of its times. *)
Definition dir_incomplete (d : ManifestDir.t) : Prop :=
  ManifestDir.CtimeMillisec d = 0%Z \/ ManifestDir.MtimeMillisec d = 0%Z.

(** The file ids, and the project ids, that have to be described. *)
Definition file_id_needed (m : Manifest) (fId : string) : Prop :=
  exists fl, fl ∈ Files m /\ ManifestFile.FileId fl = fId /\ file_incomplete fl.
Definition project_id_needed (m : Manifest) (pId : string) : Prop :=
  exists d, d ∈ Directories m /\ ManifestDir.ProjId d = pId /\ dir_incomplete d.

(** A platform on which every file is called "data", has 7 bytes and the
    times 1 and 2, and every project is called "proj" and has the times 10
    and 20; used in examples. *)
Definition example_DescribeBulk (fileIds : list string)
  : error + gmap string DxDescribe.t :=
  inr (list_to_map (map (fun fId => (fId, DxDescribe.mk "data" 7 1 2)) fileIds)).
Definition example_DescribeProject (pId : string) : error + DxDescribePrj.t :=
  inr (DxDescribePrj.mk pId "proj" 10 20).

(** ** Manifests that JSON can carry *)

(** The string is valid UTF-8: the encoder writes it as it is. *)
Definition utf8_ok (s : string) : Prop := utf8.ValidString s = true.

(** The number is an [int64], as every value of the Go field is. *)
Definition int64_ok (z : Z) : Prop := encoding_json.is_int64 z = true.

Definition file_encodable (fl : ManifestFile.t) : Prop :=
  utf8_ok (ManifestFile.ProjId fl) /\ utf8_ok (ManifestFile.FileId fl)
  /\ utf8_ok (ManifestFile.Parent fl) /\ utf8_ok (ManifestFile.Fname fl)
  /\ int64_ok (ManifestFile.Size fl) /\ int64_ok (ManifestFile.CtimeMillisec fl)
  /\ int64_ok (ManifestFile.MtimeMillisec fl).

Definition dir_encodable (d : ManifestDir.t) : Prop :=
  utf8_ok (ManifestDir.ProjId d) /\ utf8_ok (ManifestDir.Folder d)
  /\ utf8_ok (ManifestDir.Dirname d)
  /\ int64_ok (ManifestDir.CtimeMillisec d) /\ int64_ok (ManifestDir.MtimeMillisec d).

Definition manifest_encodable (m : Manifest) : Prop :=
  Forall file_encodable (Files m) /\ Forall dir_encodable (Directories m).

(** ** Texts *)

Section Texts.

Import encoding_json.

(** What [DecodeRuneInString] accepts at a byte that is not ASCII: two,
    three or four bytes, none of them ASCII, that [EncodeRune] writes for
    the rune, whatever follows them. *)
Definition encoding_of (r : N) (pre : string) : Prop :=
  utf8.EncodeRune r = pre
  /\ (forall t, utf8.DecodeRuneInString (pre +:+ t) = (r, String.length pre))
  /\ Forall (fun c => (128 <= byte_val c)%N) (list_ascii_of_string pre).

(** A literal that starts with [out] is [out] and a literal. *)
Definition prepend (out : string) (r : option (string * string))
  : option (string * string) :=
  match r with
  | Some (lit, after) => Some (out +:+ lit, after)
  | None => None
  end.

(** What the encoder writes for a rune that is not ASCII. *)
Definition rune_out (r : N) (pre : string) : string :=
  if (r =? 8232)%N || (r =? 8233)%N
  then "\u202" +:+ String (hex (N.land r 15)) ""
  else pre.

(** What can follow a value in a text: nothing, a comma, or the end of an
    array or of an object. *)
Definition ends_value (rest : string) : Prop :=
  match rest with
  | EmptyString => True
  | String c _ => c = ","%char \/ c = "]"%char \/ c = "}"%char
  end.

(** A document that the encoder writes and the scanner reads back as it
    was: strings and keys of valid UTF-8, no number with a fraction or an
    exponent. *)
Fixpoint printable (v : json) : bool :=
  match v with
  | JNull | JBool _ | JNumber _ => true
  | JFloat _ => false
  | JString s => utf8.ValidString s
  | JArray elems => forallb printable elems
  | JObject members =>
      forallb (fun m => utf8.ValidString (fst m) && printable (snd m)) members
  end.

(** The number of arrays and objects that are open at the deepest place of
    a document. *)
Fixpoint height (v : json) : N :=
  match v with
  | JArray elems => 1 + fold_right (fun e h => N.max (height e) h) 0%N elems
  | JObject members =>
      1 + fold_right (fun m h => N.max (height (snd m)) h) 0%N members
  | _ => 0
  end.

(** What is to show of a value: the parser reads what the encoder wrote. *)
Definition reads_back (v : json) : Prop :=
  printable v = true ->
  forall (fuel : nat) (depth : N) (rest : string),
    String.length (encode v) <= fuel ->
    (depth + height v <= maxNestingDepth)%N ->
    ends_value rest ->
    parse fuel depth RValue (encode v +:+ rest) = Some (v, rest).

(** What the encoder writes for a member of an object. *)
Definition encode_member (m : string * json) : string :=
  appendString (fst m) +:+ String ":" (encode (snd m)).

(** A call of the parser that gives a result takes bytes from the text, and
    gives the same result with any fuel that is not less than the number of
    bytes it takes. *)
Definition fuel_bound (fuel : nat) : Prop :=
  forall depth what s v rest,
    parse fuel depth what s = Some (v, rest) ->
    String.length rest < String.length s
    /\ forall fuel', String.length s - String.length rest <= fuel' ->
         parse fuel' depth what s = Some (v, rest).

(** Induction on a document, with the property at hand for the elements of
    an array and for the values of the members of an object. *)
Section json_induction.
Variable P : json -> Prop.
Hypothesis HNull : P JNull.
Hypothesis HBool : forall b, P (JBool b).
Hypothesis HNumber : forall z, P (JNumber z).
Hypothesis HFloat : forall l, P (JFloat l).
Hypothesis HString : forall s, P (JString s).
Hypothesis HArray : forall elems, Forall P elems -> P (JArray elems).
Hypothesis HObject :
  forall members, Forall (fun m => P (snd m)) members -> P (JObject members).

Fixpoint json_nested_ind (v : json) : P v :=
  match v with
  | JNull => HNull
  | JBool b => HBool b
  | JNumber z => HNumber z
  | JFloat l => HFloat l
  | JString s => HString s
  | JArray elems =>
      HArray elems
        ((fix go (l : list json) : Forall P l :=
            match l with
            | [] => @List.Forall_nil _ P
            | e :: l' => @List.Forall_cons _ P e l' (json_nested_ind e) (go l')
            end) elems)
  | JObject members =>
      HObject members
        ((fix go (l : list (string * json)) : Forall (fun m => P (snd m)) l :=
            match l with
            | [] => @List.Forall_nil _ _
            | m :: l' =>
                @List.Forall_cons _ (fun m => P (snd m)) m l'
                  (json_nested_ind (snd m)) (go l')
            end) members)
  end.
End json_induction.

End Texts.

(** A manifest with one complete and one incomplete entry of each kind; used
    in examples. *)
Definition example_manifest : Manifest :=
  mkManifest
    [ManifestFile.mk "project-1" "file-1" "/a" "name" 5 3 4;
     ManifestFile.mk "project-1" "file-2" "/b" "" 0 0 0]
    [ManifestDir.mk "project-1" "/" "/x" 3 4;
     ManifestDir.mk "project-2" "/" "/y" 0 0].

(* ================================================================== *)
(** * Part I, continued: the rest of the code *)
(* ================================================================== *)

(** ** defs.go: utility functions *)

Definition MaxInt64 (x y : Z) : Z := if (x <? y)%Z then y else x.

Definition MinInt64 (x y : Z) : Z := if (x >? y)%Z then y else x.

(** ** Dirs: the sort.Interface of the directory list *)

(** [Dirs.Len] *)
Definition Dirs_Len (elems : list string) : nat := length elems.

(** [Dirs.Swap]: the slice after [d.elems[i], d.elems[j] = d.elems[j],
    d.elems[i]]; [None] when an index is out of range, which panics. *)
Definition Dirs_Swap (elems : list string) (i j : nat) : option (list string) :=
  match elems !! i, elems !! j with
  | Some ei, Some ej => Some (<[j := ei]> (<[i := ej]> elems))
  | _, _ => None
  end.

(** [Dirs.Less] on indices; [None] when an index is out of range. *)
Definition Dirs_Less_at (elems : list string) (i j : nat) : option bool :=
  match elems !! i, elems !! j with
  | Some ei, Some ej => Some (Dirs_Less ei ej)
  | _, _ => None
  end.

(** ** MakeManifestFromProjectIds *)

(** The errors of [MakeManifestFromProjectIds]: one that it passes on (from
    [DxDescribeProject] or from [Validate]), or its own. *)
Inductive make_error : Type :=
  | MakePassedOn (err : error)
  | ErrNonPosixName (pId name : string)
      (* "Project %s has a non posix compliant name (%s)" *).

(** The directory entry built for a project: the root of the project,
    mounted at [/<ProjectName>]. *)
Definition projectDir (pDesc : DxDescribePrj.t) : ManifestDir.t :=
  ManifestDir.mk (DxDescribePrj.Id pDesc) "/"
    (filepath.Clean (String "/" (DxDescribePrj.Name pDesc)))
    (DxDescribePrj.CtimeMillisec pDesc) (DxDescribePrj.MtimeMillisec pDesc).

Section MakeManifestFromProjectIds.

Variable DxDescribeProject : string -> error + DxDescribePrj.t.

(** [FilenameIsPosixCompliant], a function of the repository that is not
    among the sources. *)
Variable FilenameIsPosixCompliant : string -> bool.

(** The two loops [for _, pDesc := range projDescs]: the values of the map
    in the order in which each loop visits them. *)
Variable range_validate : gmap string DxDescribePrj.t -> list DxDescribePrj.t.
Variable range_build : gmap string DxDescribePrj.t -> list DxDescribePrj.t.

(** Validate that the projects have good names. *)
Fixpoint checkProjectNames (pDescs : list DxDescribePrj.t) : option make_error :=
  match pDescs with
  | [] => None
  | pDesc :: pDescs' =>
      if negb (FilenameIsPosixCompliant (DxDescribePrj.Name pDesc)) then
        Some (ErrNonPosixName (DxDescribePrj.Id pDesc) (DxDescribePrj.Name pDesc))
      else checkProjectNames pDescs'
  end.

(** [MakeManifestFromProjectIds]: the calls made to the platform and what is
    returned.  The first loop is the loop of [FillInMissingFields] over the
    project ids, on the list given.  The line written to the log is not
    modelled. *)
Definition MakeManifestFromProjectIds (projectIds : list string)
  : list remote_call * (make_error + Manifest) :=
  match describeProjects DxDescribeProject projectIds ∅ with
  | (calls, inl err) => (calls, inl (MakePassedOn err))
  | (calls, inr projDescs) =>
      match checkProjectNames (range_validate projDescs) with
      | Some err => (calls, inl err)
      | None =>
          let dirs := map projectDir (range_build projDescs) in
          let manifest := mkManifest [] dirs in
          match Validate manifest with
          | Some err => (calls, inl (MakePassedOn err))
          | None => (calls, inr manifest)
          end
      end
  end.

End MakeManifestFromProjectIds.

(** ** More vocabulary *)

(** An absolute path in canonical form. *)
Definition canonical (p : string) : Prop := absolute p /\ filepath.Clean p = p.

(** [x] is the canonical form of [q] or of a directory above it. *)
Definition above_or_self (x q : string) : Prop :=
  exists pre, pre `prefix_of` names_of q /\ x = render pre.

(** [x] is in the tree that [DirSkeleton] builds: it is the canonical form
    of the parent path of a file, or at or above the parent directory
    ([filepath.Dir]) of such a path or of a mount path. *)
Definition in_tree (m : Manifest) (x : string) : Prop :=
  (exists fl, fl ∈ Files m
     /\ (above_or_self x (filepath.Dir (ManifestFile.Parent fl))
         \/ x = filepath.Clean (ManifestFile.Parent fl)))
  \/ (exists d, d ∈ Directories m
       /\ above_or_self x (filepath.Dir (ManifestDir.Dirname d))).

(** Every parent path and every mount path is absolute and in canonical
    form. *)
Definition paths_canonical (m : Manifest) : Prop :=
  Forall (fun fl => canonical (ManifestFile.Parent fl)) (Files m)
  /\ Forall (fun d => canonical (ManifestDir.Dirname d)) (Directories m).

(** [fl'] is the entry [fl] with, at most, other details: the same project,
    file and parent path, and the same name unless [fl] had none. *)
Definition file_same_keys (fl fl' : ManifestFile.t) : Prop :=
  ManifestFile.ProjId fl' = ManifestFile.ProjId fl
  /\ ManifestFile.FileId fl' = ManifestFile.FileId fl
  /\ ManifestFile.Parent fl' = ManifestFile.Parent fl
  /\ (ManifestFile.Fname fl <> "" -> ManifestFile.Fname fl' = ManifestFile.Fname fl).

(** [d'] is the entry [d] with, at most, other times. *)
Definition dir_same_keys (d d' : ManifestDir.t) : Prop :=
  ManifestDir.ProjId d' = ManifestDir.ProjId d
  /\ ManifestDir.Folder d' = ManifestDir.Folder d
  /\ ManifestDir.Dirname d' = ManifestDir.Dirname d.

(** The description of a file, and of a project, lacks nothing of what
    [FillInMissingFields] copies. *)
Definition describe_complete (fDesc : DxDescribe.t) : Prop :=
  DxDescribe.Name fDesc <> "" /\ DxDescribe.Size fDesc <> 0%Z
  /\ DxDescribe.CtimeMillisec fDesc <> 0%Z /\ DxDescribe.MtimeMillisec fDesc <> 0%Z.
Definition project_times_set (pDesc : DxDescribePrj.t) : Prop :=
  DxDescribePrj.CtimeMillisec pDesc <> 0%Z /\ DxDescribePrj.MtimeMillisec pDesc <> 0%Z.

(** The index at which [Dirs.Swap] on [i] and [j] finds the element it puts
    at index [k]. *)
Definition swap_index (i j k : nat) : nat :=
  if decide (k = i) then j else if decide (k = j) then i else k.

(** ** More examples *)

(** A manifest with a file three directories deep and a mount in another
    directory. *)
Definition example_tree_manifest : Manifest :=
  mkManifest [example_file "/A/B/C"] [example_dir "/D/E"].

(** A manifest in which nothing is missing. *)
Definition example_complete_manifest : Manifest :=
  mkManifest [ManifestFile.mk "project-1" "file-1" "/a" "name" 5 3 4]
    [ManifestDir.mk "project-1" "/" "/x" 3 4].

(** A run that visits a map of paths in the opposite order to [elements]. *)
Definition elements_backwards (tree : gset string) : list string :=
  reverse (elements tree).

(** The values of a map of projects, in the order of [map_to_list]. *)
Definition range_values (projDescs : gmap string DxDescribePrj.t)
  : list DxDescribePrj.t :=
  map snd (map_to_list projDescs).

(** A platform on which every project is named by its id, one on which no
    project can be described, and a check of names that accepts all. *)
Definition example_DescribeNamed (pId : string) : error + DxDescribePrj.t :=
  inr (DxDescribePrj.mk pId pId 10 20).
Definition example_DescribeFails (pId : string) : error + DxDescribePrj.t :=
  inl (ErrRemote pId).
Definition example_compliant (name : string) : bool := true.

(** A file that holds the manifest [example_tree_manifest]. *)
Definition example_ReadFile (fname : string) : option string :=
  Some (encoding_json.encode (encoding_json.Marshal false false example_tree_manifest)).
Definition example_scan (data : string) : option json := encoding_json.scan data.

(** [FillInMissingFields] on [example_manifest], on the example platform and
    on one whose projects cannot be described. *)
Definition example_filled : list remote_call * Manifest * option error :=
  FillInMissingFields example_DescribeBulk example_DescribeProject
    elements elements example_manifest.
Definition example_failed : list remote_call * Manifest * option error :=
  FillInMissingFields example_DescribeBulk example_DescribeFails
    elements elements example_manifest.

(** [MakeManifestFromProjectIds] for two projects. *)
Definition example_made (describe : string -> error + DxDescribePrj.t)
  : list remote_call * (make_error + Manifest) :=
  MakeManifestFromProjectIds describe example_compliant range_values range_values
    ["project-1"; "project-2"].

(** What [example_made] returns on the platform that names every project
    by its id, and on the one that calls every project "proj". *)
Definition example_made_manifest : Manifest :=
  mkManifest []
    [ManifestDir.mk "project-1" "/" "/project-1" 10 20;
     ManifestDir.mk "project-2" "/" "/project-2" 10 20].
Definition example_clash_manifest : Manifest :=
  mkManifest []
    [ManifestDir.mk "project-1" "/" "/proj" 10 20;
     ManifestDir.mk "project-2" "/" "/proj" 10 20].

(* ================================================================== *)
(** * Part II: properties *)
(* ================================================================== *)

Set Warnings "-clear-no-such-hyp".

(** ** Paths *)

Module PathFacts.

Import filepath.

Lemma append_String (c : ascii) (a b : string) :
  String c a +:+ b = String c (a +:+ b).
Proof. reflexivity. Qed.

Lemma append_empty_l (b : string) : "" +:+ b = b.
Proof. reflexivity. Qed.

Lemma append_empty_r (a : string) : a +:+ "" = a.
Proof. induction a as [|c a IH]; [reflexivity|]. rewrite append_String, IH. reflexivity. Qed.

Lemma append_assoc (a b c : string) : (a +:+ b) +:+ c = a +:+ (b +:+ c).
Proof.
  induction a as [|x a IH]; [reflexivity|]. rewrite !append_String, IH. reflexivity.
Qed.

Lemma length_append (a b : string) :
  String.length (a +:+ b) = String.length a + String.length b.
Proof.
  induction a as [|c a IH]; [reflexivity|].
  rewrite append_String. simpl. rewrite IH. reflexivity.
Qed.

Lemma list_ascii_append (a b : string) :
  list_ascii_of_string (a +:+ b)
  = (list_ascii_of_string a ++ list_ascii_of_string b)%list.
Proof.
  induction a as [|c a IH]; [reflexivity|].
  rewrite append_String. simpl. rewrite IH. reflexivity.
Qed.

Lemma length_list_ascii (a : string) :
  length (list_ascii_of_string a) = String.length a.
Proof. induction a as [|c a IH]; simpl; [reflexivity|]. rewrite IH. reflexivity. Qed.

Lemma sep_free_append (a b : string) :
  sep_free (a +:+ b) = sep_free a && sep_free b.
Proof.
  induction a as [|c a IH]; [reflexivity|].
  rewrite append_String. simpl. rewrite IH, andb_assoc. reflexivity.
Qed.

Lemma join_cons (e : string) (es : list string) :
  join_slash (e :: es) = e +:+ tail_of es.
Proof. destruct es; simpl; [rewrite append_empty_r|]; reflexivity. Qed.

Lemma atEndOrSep_tail_of (es : list string) : atEndOrSep (tail_of es) = true.
Proof. destruct es; reflexivity. Qed.

Lemma join_snoc (cs : list string) (e : string) :
  cs <> [] -> join_slash (cs ++ [e]) = join_slash cs +:+ String "/" e.
Proof.
  induction cs as [|c cs IH]; [congruence|]. intros _.
  destruct cs as [|c' cs].
  - reflexivity.
  - change (join_slash ((c :: c' :: cs) ++ [e]))
      with (c +:+ String "/" (join_slash ((c' :: cs) ++ [e]))).
    rewrite IH by congruence.
    change (join_slash (c :: c' :: cs)) with (c +:+ String "/" (join_slash (c' :: cs))).
    rewrite append_assoc, append_String. reflexivity.
Qed.

Lemma render_snoc (cs : list string) (e : string) :
  cs <> [] -> render (cs ++ [e]) = render cs +:+ String "/" e.
Proof. intros H. unfold render. rewrite join_snoc by exact H. reflexivity. Qed.

Lemma buf_nil : buf [] = [Separator].
Proof. reflexivity. Qed.

Lemma buf_single (e : string) :
  buf [e] = (rev (list_ascii_of_string e) ++ [Separator])%list.
Proof. unfold buf, render. simpl. reflexivity. Qed.

Lemma buf_snoc (cs : list string) (e : string) :
  cs <> [] ->
  buf (cs ++ [e]) = (rev (list_ascii_of_string e) ++ Separator :: buf cs)%list.
Proof.
  intros H. unfold buf. rewrite render_snoc by exact H.
  rewrite list_ascii_append. simpl. rewrite rev_app_distr. simpl.
  rewrite <- !app_assoc. reflexivity.
Qed.

Lemma length_buf (cs : list string) : length (buf cs) = S (String.length (join_slash cs)).
Proof.
  unfold buf, render. rewrite length_rev. simpl. rewrite length_list_ascii. reflexivity.
Qed.


Lemma is_name_nonempty (e : string) : is_name e = true -> e <> "".
Proof. unfold is_name. intros H ->. discriminate. Qed.

Lemma is_name_sep_free (e : string) : is_name e = true -> sep_free e = true.
Proof. unfold is_name. rewrite !andb_true_iff. tauto. Qed.

Lemma join_empty (cs : list string) : names cs -> join_slash cs = "" -> cs = [].
Proof.
  destruct cs as [|c cs]; [reflexivity|]. intros Hn. rewrite join_cons.
  apply Forall_cons in Hn as [Hc _]. apply is_name_nonempty in Hc.
  destruct c; [congruence|]. discriminate.
Qed.

Lemma length_buf_1 (cs : list string) :
  names cs -> (length (buf cs) =? 1)%nat = bool_decide (cs = []).
Proof.
  intros Hn. rewrite length_buf. case_bool_decide as H.
  - subst. reflexivity.
  - apply Nat.eqb_neq. intros Hl. apply H, join_empty; [exact Hn|].
    destruct (join_slash cs); [reflexivity|discriminate].
Qed.

Lemma copy_element_spec (e tl : string) (out : list ascii) :
  sep_free e = true -> atEndOrSep tl = true ->
  copy_element (e +:+ tl) out = (tl, (rev (list_ascii_of_string e) ++ out)%list).
Proof.
  revert out. induction e as [|c e IH]; intros out He Htl.
  - rewrite append_empty_l. destruct tl as [|c tl]; [reflexivity|].
    simpl in *. rewrite Htl. reflexivity.
  - simpl in He. apply andb_true_iff in He as [Hc He].
    rewrite append_String. simpl. apply negb_true_iff in Hc. rewrite Hc.
    rewrite IH by assumption. rewrite <- app_assoc. reflexivity.
Qed.

Lemma backtrack_loop_spec (l rest : list ascii) (d : ascii) :
  IsPathSeparator d = false ->
  Forall (fun c => IsPathSeparator c = false) l ->
  backtrack_loop d (l ++ Separator :: rest) 1
  = match rest with [] => [Separator] | _ :: _ => rest end.
Proof.
  revert d. induction l as [|c l IH]; intros d Hd Hl.
  - simpl. rewrite Hd. destruct rest as [|c rest]; [reflexivity|].
    simpl. rewrite andb_false_r. reflexivity.
  - apply Forall_cons in Hl as [Hc Hl].
    change (backtrack_loop d ((c :: l) ++ Separator :: rest) 1)
      with (if (1 <? length ((c :: l) ++ Separator :: rest))%nat
               && negb (IsPathSeparator d)
            then backtrack_loop c (l ++ Separator :: rest) 1
            else (c :: l) ++ Separator :: rest)%list.
    rewrite Hd. simpl length. rewrite length_app. simpl length.
    replace (1 <? S (length l + S (length rest)))%nat with true
      by (symmetry; apply Nat.ltb_lt; lia).
    simpl. apply IH; assumption.
Qed.

Lemma sep_free_Forall (e : string) :
  sep_free e = true ->
  Forall (fun c => IsPathSeparator c = false) (rev (list_ascii_of_string e)).
Proof.
  intros H. apply Forall_rev. induction e as [|c e IH]; simpl; [constructor|].
  simpl in H. apply andb_true_iff in H as [Hc He]. constructor.
  - apply negb_true_iff, Hc.
  - apply IH, He.
Qed.

Lemma buf_nonempty (cs : list string) : buf cs <> [].
Proof. intros H. apply (f_equal length) in H. rewrite length_buf in H. discriminate. Qed.

Lemma backtrack_buf (cs : list string) (e : string) :
  is_name e = true -> backtrack (buf (cs ++ [e])) 1 = buf cs.
Proof.
  intros He. pose proof (is_name_nonempty _ He) as Hne.
  pose proof (sep_free_Forall _ (is_name_sep_free _ He)) as Hall.
  assert (exists c l, rev (list_ascii_of_string e) = c :: l) as (c & l & Hrev).
  { destruct (rev (list_ascii_of_string e)) as [|c l] eqn:Hr; [|eauto].
    exfalso. apply (f_equal length) in Hr. rewrite length_rev, length_list_ascii in Hr.
    destruct e; [congruence|discriminate]. }
  rewrite Hrev in Hall. apply Forall_cons in Hall as [Hc Hl].
  destruct cs as [|c0 cs].
  - change ([] ++ [e])%list with [e]. rewrite buf_single, Hrev. simpl.
    rewrite backtrack_loop_spec by assumption. reflexivity.
  - rewrite buf_snoc by congruence. rewrite Hrev. simpl.
    rewrite backtrack_loop_spec by assumption.
    destruct (buf (c0 :: cs)) eqn:Hb; [|reflexivity].
    exfalso. eapply buf_nonempty, Hb.
Qed.

Lemma classify_element (e : string) :
  sep_free e = true ->
  e = "" \/ e = "." \/ e = ".." \/ is_name e = true.
Proof.
  intros He. unfold is_name. rewrite He.
  destruct (String.eqb_spec e ""); [auto|].
  destruct (String.eqb_spec e "."); [auto|].
  destruct (String.eqb_spec e ".."); auto.
Qed.

Lemma iter_sep (f : nat) (rest : string) (out : list ascii) (dd : nat) (r : bool) :
  clean_loop (S f) r (String "/" rest) out dd = clean_loop f r rest out dd.
Proof. reflexivity. Qed.

Lemma iter_dot (f : nat) (tl : string) (out : list ascii) (dd : nat) (r : bool) :
  atEndOrSep tl = true ->
  clean_loop (S f) r (String "." tl) out dd = clean_loop f r tl out dd.
Proof. intros H. simpl. rewrite H. reflexivity. Qed.

Lemma iter_dotdot_rooted (f : nat) (tl : string) (out : list ascii) :
  atEndOrSep tl = true ->
  clean_loop (S f) true (String "." (String "." tl)) out 1
  = clean_loop f true tl (if (1 <? length out)%nat then backtrack out 1 else out) 1.
Proof. intros H. simpl. rewrite H. simpl. destruct (1 <? length out)%nat; reflexivity. Qed.

(** The two tests for "." and ".." fail on a name. *)
Lemma name_not_dots (c : ascii) (e' tl : string) :
  is_name (String c e') = true -> atEndOrSep tl = true ->
  IsPathSeparator c = false
  /\ Ascii.eqb c "." && atEndOrSep (e' +:+ tl) = false
  /\ Ascii.eqb c "."
     && match e' +:+ tl with
        | String c1 rest2 => Ascii.eqb c1 "." && atEndOrSep rest2
        | EmptyString => false
        end = false.
Proof.
  unfold is_name. rewrite !andb_true_iff, !negb_true_iff, !String.eqb_neq.
  intros [[[Hsf _] Hdot] Hdd] Htl. simpl in Hsf.
  apply andb_true_iff in Hsf as [Hc Hsf]. apply negb_true_iff in Hc.
  split; [exact Hc|].
  destruct (Ascii.eqb_spec c ".") as [->|Hne]; [|split; reflexivity].
  simpl. destruct e' as [|c1 e'']; [congruence|].
  simpl in Hsf. apply andb_true_iff in Hsf as [Hc1 Hsf]. apply negb_true_iff in Hc1.
  rewrite append_String. simpl. split; [exact Hc1|].
  destruct (Ascii.eqb_spec c1 ".") as [->|Hne1]; [|reflexivity].
  simpl. destruct e'' as [|c2 e3]; [congruence|].
  simpl in Hsf. apply andb_true_iff in Hsf as [Hc2 _]. apply negb_true_iff in Hc2.
  rewrite append_String. simpl. exact Hc2.
Qed.

Lemma iter_name_rooted (f : nat) (e tl : string) (out : list ascii) :
  is_name e = true -> atEndOrSep tl = true ->
  clean_loop (S f) true (e +:+ tl) out 1
  = clean_loop f true tl
      (rev (list_ascii_of_string e)
       ++ (if negb (length out =? 1)%nat then Separator :: out else out))%list 1.
Proof.
  intros He Htl. destruct e as [|c e']; [discriminate|].
  destruct (name_not_dots c e' tl He Htl) as (Hc & Hdot & Hdd).
  rewrite append_String.
  change (clean_loop (S f) true (String c (e' +:+ tl)) out 1) with
    (if IsPathSeparator c then clean_loop f true (e' +:+ tl) out 1
     else if Ascii.eqb c "." && atEndOrSep (e' +:+ tl)
     then clean_loop f true (e' +:+ tl) out 1
     else if Ascii.eqb c "."
             && match e' +:+ tl with
                | String c1 rest2 => Ascii.eqb c1 "." && atEndOrSep rest2
                | EmptyString => false
                end
     then
       let rest2 := match e' +:+ tl with
                    | String _ rest2 => rest2
                    | EmptyString => EmptyString
                    end in
       if (1 <? length out)%nat
       then clean_loop f true rest2 (backtrack out 1) 1
       else if negb true
       then
         let out1 := if (0 <? length out)%nat then Separator :: out else out in
         let out2 := "."%char :: "."%char :: out1 in
         clean_loop f true rest2 out2 (length out2)
       else clean_loop f true rest2 out 1
     else
       let out1 :=
         if (true && negb (length out =? 1)%nat)
            || (negb true && negb (length out =? 0)%nat)
         then Separator :: out else out in
       let '(rest', out2) := copy_element (String c (e' +:+ tl)) out1 in
       clean_loop f true rest' out2 1).
  rewrite Hc, Hdot, Hdd. cbv zeta.
  rewrite <- append_String.
  rewrite copy_element_spec by (auto using is_name_sep_free).
  simpl negb. rewrite andb_false_l, orb_false_r, andb_true_l. reflexivity.
Qed.

Lemma names_snoc (cs : list string) (e : string) :
  names cs -> is_name e = true -> names (cs ++ [e]).
Proof. intros Hcs He. apply Forall_app. split; [exact Hcs|]. constructor; [exact He|constructor]. Qed.

Lemma names_removelast (cs : list string) : names cs -> names (removelast cs).
Proof.
  intros H. destruct (decide (cs = [])) as [->|Hne]; [exact H|].
  rewrite (app_removelast_last "" Hne) in H. apply Forall_app in H. tauto.
Qed.

Lemma step_names (cs : list string) (e : string) :
  sep_free e = true -> names cs -> names (step cs e).
Proof.
  intros He Hcs. unfold step.
  destruct (classify_element e He) as [->|[->|[->|Hn]]]; simpl; auto using names_removelast.
  unfold is_name in Hn. rewrite !andb_true_iff, !negb_true_iff in Hn.
  destruct Hn as [[[_ H1] H2] H3]. rewrite H1, H2, H3. simpl.
  apply names_snoc; [exact Hcs|]. unfold is_name. rewrite He, H1, H2, H3. reflexivity.
Qed.

(** One element of the path, in the loop of [Clean] and on the names. *)
Lemma elem_step (e tl : string) (cs : list string) (fuel : nat) :
  sep_free e = true -> atEndOrSep tl = true -> names cs ->
  String.length (e +:+ tl) <= fuel ->
  exists fuel', String.length tl <= fuel'
    /\ clean_loop fuel true (e +:+ tl) (buf cs) 1
       = clean_loop fuel' true tl (buf (step cs e)) 1.
Proof.
  intros He Htl Hcs Hfuel.
  destruct (classify_element e He) as [->|[->|[->|Hn]]].
  - exists fuel. split; [exact Hfuel|reflexivity].
  - rewrite length_append in Hfuel. simpl in Hfuel.
    destruct fuel as [|f]; [lia|]. exists f. split; [lia|].
    apply iter_dot, Htl.
  - rewrite length_append in Hfuel. simpl in Hfuel. destruct fuel as [|f]; [lia|]. exists f. split; [lia|].
    change (".." +:+ tl) with (String "." (String "." tl)).
    rewrite iter_dotdot_rooted by exact Htl. f_equal.
    change (step cs "..") with (removelast cs).
    destruct (decide (cs = [])) as [->|Hne]; [reflexivity|].
    rewrite (app_removelast_last "" Hne) in Hcs |- * .
    apply Forall_app in Hcs as [Hcs Hlast]. apply Forall_cons in Hlast as [Hlast _].
    rewrite removelast_last.
    replace (1 <? _)%nat with true.
    + apply backtrack_buf, Hlast.
    + symmetry. apply Nat.ltb_lt. rewrite length_buf.
      destruct (removelast cs) as [|c0 cs0].
      * simpl. apply is_name_nonempty in Hlast. destruct (List.last cs ""); [congruence|simpl; lia].
      * rewrite join_snoc by congruence. rewrite length_append. simpl. lia.
  - assert (exists f, fuel = S f) as [f ->].
    { destruct fuel; [|eauto]. apply is_name_nonempty in Hn.
      destruct e; [congruence|]. rewrite append_String in Hfuel. simpl in Hfuel. lia. }
    exists f. split.
    { rewrite length_append in Hfuel. apply is_name_nonempty in Hn.
      destruct e; [congruence|]. simpl in Hfuel. lia. }
    rewrite iter_name_rooted by assumption. f_equal.
    assert (step cs e = cs ++ [e])%list as ->.
    { unfold step. unfold is_name in Hn. rewrite !andb_true_iff, !negb_true_iff in Hn.
      destruct Hn as [[[_ H1] H2] H3]. rewrite H1, H2, H3. reflexivity. }
    rewrite length_buf_1 by exact Hcs. case_bool_decide as Hcs0.
    + subst cs. simpl. rewrite buf_single. reflexivity.
    + simpl. rewrite buf_snoc by exact Hcs0. reflexivity.
Qed.

(** The loop of [Clean] on a rooted path computes [foldl step]. *)
Lemma clean_loop_elements (es : list string) :
  forall (e : string) (cs : list string) (fuel : nat),
  sep_free e = true -> Forall (fun e => sep_free e = true) es -> names cs ->
  String.length (e +:+ tail_of es) <= fuel ->
  clean_loop fuel true (e +:+ tail_of es) (buf cs) 1 = buf (foldl step cs (e :: es)).
Proof.
  induction es as [|e2 es IH]; intros e cs fuel He Hes Hcs Hfuel.
  - destruct (elem_step e (tail_of []) cs fuel He eq_refl Hcs Hfuel) as (f & _ & ->).
    destruct f; reflexivity.
  - destruct (elem_step e (tail_of (e2 :: es)) cs fuel He eq_refl Hcs Hfuel)
      as (f & Hf & ->).
    apply Forall_cons in Hes as [He2 Hes].
    change (tail_of (e2 :: es)) with (String "/" (join_slash (e2 :: es))) in *.
    rewrite join_cons in *. simpl in Hf. destruct f as [|f]; [lia|].
    rewrite iter_sep. rewrite IH; auto using step_names. lia.
Qed.

Lemma split_slash_sep_free (s : string) :
  Forall (fun e => sep_free e = true) (split_slash s).
Proof.
  induction s as [|c s IH]; simpl; [repeat constructor|].
  destruct (IsPathSeparator c) eqn:Hc; [constructor; [reflexivity|exact IH]|].
  destruct (split_slash s) as [|e es]; [repeat constructor; simpl; rewrite Hc; reflexivity|].
  apply Forall_cons in IH as [He Hes]. constructor; [|exact Hes].
  simpl. rewrite Hc, He. reflexivity.
Qed.

Lemma IsPathSeparator_true (c : ascii) : IsPathSeparator c = true -> c = "/"%char.
Proof. unfold IsPathSeparator, Separator. apply Ascii.eqb_eq. Qed.

Lemma split_slash_nonempty (s : string) : split_slash s <> [].
Proof.
  destruct s as [|c s]; simpl; [congruence|].
  destruct (IsPathSeparator c); [congruence|]. destruct (split_slash s); congruence.
Qed.

Lemma join_split_slash (s : string) : join_slash (split_slash s) = s.
Proof.
  induction s as [|c s IH]; [reflexivity|]. simpl split_slash.
  destruct (IsPathSeparator c) eqn:Hc.
  - apply IsPathSeparator_true in Hc as ->.
    destruct (split_slash s) as [|e es] eqn:Hs; [exfalso; eapply split_slash_nonempty, Hs|].
    change (join_slash ("" :: e :: es)) with ("" +:+ String "/" (join_slash (e :: es))).
    rewrite IH. reflexivity.
  - destruct (split_slash s) as [|e es] eqn:Hs; [exfalso; eapply split_slash_nonempty, Hs|].
    rewrite join_cons in *. rewrite append_String, IH. reflexivity.
Qed.

Lemma string_of_buf (cs : list string) :
  string_of_list_ascii (rev (buf cs)) = render cs.
Proof. unfold buf. rewrite rev_involutive. apply string_of_list_ascii_of_string. Qed.

(** [Clean] on an absolute path: split at the separators, drop the empty
    elements and ".", let ".." cancel the name before it, join. *)
Theorem Clean_rooted (s : string) :
  Clean (String "/" s) = render (normalize (split_slash s)).
Proof.
  unfold Clean. change (IsPathSeparator "/") with true. cbv iota.
  pose proof (split_slash_sep_free s) as Hsf.
  pose proof (join_split_slash s) as Hj.
  destruct (split_slash s) as [|e es] eqn:Hs; [exfalso; eapply split_slash_nonempty, Hs|].
  apply Forall_cons in Hsf as [He Hes].
  rewrite join_cons in Hj. rewrite <- Hj. clear Hj Hs. rewrite <- buf_nil.
  rewrite (clean_loop_elements es e [] _ He Hes); [|constructor|simpl; lia].
  fold (normalize (e :: es)).
  replace (length (buf (normalize (e :: es))) =? 0)%nat with false
    by (rewrite length_buf; reflexivity).
  apply string_of_buf.
Qed.

Lemma split_slash_sep_free_id (e : string) :
  sep_free e = true -> split_slash e = [e].
Proof.
  induction e as [|c e IH]; [reflexivity|]. simpl. intros H.
  apply andb_true_iff in H as [Hc He]. apply negb_true_iff in Hc.
  rewrite Hc, IH by exact He. reflexivity.
Qed.

Lemma split_slash_append (e r : string) :
  sep_free e = true ->
  split_slash (e +:+ String "/" r) = e :: split_slash r.
Proof.
  induction e as [|c e IH]; [reflexivity|]. intros H. simpl in H.
  apply andb_true_iff in H as [Hc He]. apply negb_true_iff in Hc.
  rewrite append_String. simpl. rewrite Hc, IH by exact He. reflexivity.
Qed.

Lemma split_join_slash (cs : list string) :
  cs <> [] -> Forall (fun e => sep_free e = true) cs ->
  split_slash (join_slash cs) = cs.
Proof.
  induction cs as [|c cs IH]; [congruence|]. intros _ H.
  apply Forall_cons in H as [Hc Hcs]. destruct cs as [|c' cs].
  - simpl. apply split_slash_sep_free_id, Hc.
  - change (join_slash (c :: c' :: cs)) with (c +:+ String "/" (join_slash (c' :: cs))).
    rewrite split_slash_append by exact Hc. rewrite IH; [reflexivity|congruence|exact Hcs].
Qed.

Lemma names_sep_free (cs : list string) :
  names cs -> Forall (fun e => sep_free e = true) cs.
Proof.
  intros H. eapply Forall_impl; [exact H|]. intros e. apply is_name_sep_free.
Qed.

Lemma step_name (cs : list string) (e : string) :
  is_name e = true -> step cs e = (cs ++ [e])%list.
Proof.
  unfold step, is_name. rewrite !andb_true_iff, !negb_true_iff.
  intros [[[_ H1] H2] H3]. rewrite H1, H2, H3. reflexivity.
Qed.

Lemma foldl_step_names (cs' cs : list string) :
  names cs' -> foldl step cs cs' = (cs ++ cs')%list.
Proof.
  revert cs. induction cs' as [|c cs' IH]; intros cs H; simpl.
  - rewrite app_nil_r. reflexivity.
  - apply Forall_cons in H as [Hc H]. rewrite step_name by exact Hc.
    rewrite IH by exact H. rewrite <- app_assoc. reflexivity.
Qed.

Lemma foldl_step_is_names (es cs : list string) :
  Forall (fun e => sep_free e = true) es -> names cs -> names (foldl step cs es).
Proof.
  revert cs. induction es as [|e es IH]; intros cs Hes Hcs; simpl; [exact Hcs|].
  apply Forall_cons in Hes as [He Hes]. apply IH; [exact Hes|]. apply step_names; assumption.
Qed.

Lemma normalize_names (s : string) : names (normalize (split_slash s)).
Proof. apply foldl_step_is_names; [apply split_slash_sep_free|constructor]. Qed.

(** [Clean] leaves the path of a list of names as it is. *)
Lemma Clean_render (cs : list string) : names cs -> Clean (render cs) = render cs.
Proof.
  intros H. unfold render at 1. rewrite Clean_rooted. f_equal.
  destruct (decide (cs = [])) as [->|Hne]; [reflexivity|].
  rewrite split_join_slash by auto using names_sep_free.
  unfold normalize. rewrite foldl_step_names by exact H. reflexivity.
Qed.

Lemma Clean_render_slash (cs : list string) :
  names cs -> cs <> [] -> Clean (render cs +:+ "/") = render cs.
Proof.
  intros H Hne. unfold render at 1. rewrite append_String, Clean_rooted. f_equal.
  change "/" with (String "/" "").
  rewrite <- (join_snoc cs "") by exact Hne.
  rewrite split_join_slash.
  - unfold normalize. rewrite foldl_app, (foldl_step_names cs [] H). reflexivity.
  - destruct cs; discriminate.
  - apply Forall_app. split; [auto using names_sep_free|repeat constructor].
Qed.

(** An absolute path and its canonical form. *)
Lemma Clean_rooted_names (s : string) :
  exists cs, names cs /\ Clean (String "/" s) = render cs.
Proof. exists (normalize (split_slash s)). split; [apply normalize_names|apply Clean_rooted]. Qed.

Theorem Clean_idempotent_rooted (s : string) :
  Clean (Clean (String "/" s)) = Clean (String "/" s).
Proof. destruct (Clean_rooted_names s) as (cs & Hcs & ->). apply Clean_render, Hcs. Qed.

(** *** Lengths *)


Lemma weight_app (a b : list string) : weight (a ++ b) = weight a + weight b.
Proof. induction a as [|c a IH]; simpl; [reflexivity|]. rewrite IH. lia. Qed.

Lemma weight_join (cs : list string) :
  cs <> [] -> S (String.length (join_slash cs)) = weight cs.
Proof.
  induction cs as [|c cs IH]; [congruence|]. intros _. destruct cs as [|c' cs].
  - simpl. lia.
  - change (join_slash (c :: c' :: cs)) with (c +:+ String "/" (join_slash (c' :: cs))).
    rewrite length_append.
    change (String.length (String "/" (join_slash (c' :: cs))))
      with (S (String.length (join_slash (c' :: cs)))).
    change (weight (c :: c' :: cs)) with (S (String.length c) + weight (c' :: cs)).
    rewrite <- IH by congruence. lia.
Qed.

Lemma weight_removelast (cs : list string) : weight (removelast cs) <= weight cs.
Proof.
  destruct (decide (cs = [])) as [->|Hne]; [reflexivity|].
  rewrite (app_removelast_last "" Hne) at 2. rewrite weight_app. lia.
Qed.

Lemma weight_step (cs : list string) (e : string) :
  weight (step cs e) <= weight cs + S (String.length e).
Proof.
  unfold step. destruct (_ || _); [lia|]. destruct (String.eqb e "..").
  - pose proof (weight_removelast cs). lia.
  - rewrite weight_app. simpl. lia.
Qed.

Lemma weight_foldl_step (es cs : list string) :
  weight (foldl step cs es) <= weight cs + weight es.
Proof.
  revert cs. induction es as [|e es IH]; intros cs; simpl; [lia|].
  specialize (IH (step cs e)). pose proof (weight_step cs e). lia.
Qed.

Lemma weight_names (cs : list string) : names cs -> 2 * length cs <= weight cs.
Proof.
  induction 1 as [|c cs Hc _ IH]; simpl; [lia|].
  apply is_name_nonempty in Hc. destruct c; [congruence|]. simpl. lia.
Qed.

Lemma length_render (cs : list string) :
  String.length (render cs) = Nat.max 1 (weight cs).
Proof.
  destruct (decide (cs = [])) as [->|Hne]; [reflexivity|].
  change (String.length (render cs)) with (S (String.length (join_slash cs))).
  pose proof (weight_join cs Hne). lia.
Qed.

Lemma weight_normalize (s : string) :
  weight (normalize (split_slash s)) <= S (String.length s).
Proof.
  unfold normalize. pose proof (weight_foldl_step (split_slash s) []) as H.
  rewrite <- (weight_join (split_slash s)) in H by apply split_slash_nonempty.
  rewrite join_split_slash in H. exact H.
Qed.

(** [Clean] does not lengthen an absolute path. *)
Lemma length_Clean_rooted (s : string) :
  String.length (Clean (String "/" s)) <= S (String.length s).
Proof.
  rewrite Clean_rooted, length_render. pose proof (weight_normalize s). lia.
Qed.

(** ** Split and Dir *)

Lemma get_append_r (a b : string) (k : nat) :
  String.get (String.length a + k) (a +:+ b) = String.get k b.
Proof. rewrite Nat.add_comm. symmetry. apply append_correct2. Qed.

Lemma get_sep_free (c : string) (k : nat) (ch : ascii) :
  sep_free c = true -> String.get k c = Some ch -> IsPathSeparator ch = false.
Proof.
  revert k. induction c as [|x c IH]; intros k Hc Hget; [discriminate|].
  simpl in Hc. apply andb_true_iff in Hc as [Hx Hc].
  destruct k as [|k]; simpl in Hget.
  - injection Hget as <-. apply negb_true_iff, Hx.
  - eapply IH; eassumption.
Qed.

Lemma lastSeparator_sep_free (p : string) (k : nat) :
  sep_free p = true -> lastSeparator p k = 0.
Proof.
  intros Hp. induction k as [|k IH]; [reflexivity|]. simpl.
  destruct (String.get k p) as [ch|] eqn:Hget; [|exact IH].
  rewrite (get_sep_free p k ch Hp Hget). exact IH.
Qed.

Lemma lastSeparator_append (a c : string) (k : nat) :
  sep_free c = true ->
  lastSeparator (a +:+ String "/" c) (S (String.length a + k)) = S (String.length a).
Proof.
  intros Hc. induction k as [|k IH].
  - rewrite Nat.add_0_r. cbn [lastSeparator].
    rewrite <- (Nat.add_0_r (String.length a)) at 1. rewrite get_append_r. reflexivity.
  - cbn [lastSeparator]. rewrite get_append_r. cbn [String.get].
    rewrite Nat.add_succ_r.
    destruct (String.get k c) as [ch|] eqn:Hget; [|exact IH].
    rewrite (get_sep_free c k ch Hc Hget). exact IH.
Qed.

Lemma lastSeparator_decomp (a c : string) :
  sep_free c = true ->
  lastSeparator (a +:+ String "/" c) (String.length (a +:+ String "/" c))
  = String.length (a +:+ "/").
Proof.
  intros Hc. rewrite !length_append. simpl String.length.
  rewrite Nat.add_succ_r, lastSeparator_append by exact Hc. lia.
Qed.

Lemma slice_to_app (a b : string) : slice_to (String.length a) (a +:+ b) = a.
Proof.
  unfold slice_to. induction a as [|c a IH].
  - destruct b; reflexivity.
  - rewrite append_String. simpl. f_equal. exact IH.
Qed.

Lemma substring_all (s : string) : substring 0 (String.length s) s = s.
Proof. induction s as [|c s IH]; simpl; [reflexivity|]. f_equal. exact IH. Qed.

Lemma slice_from_app (a b : string) : slice_from (String.length a) (a +:+ b) = b.
Proof.
  unfold slice_from. rewrite length_append.
  replace (String.length a + String.length b - String.length a)
    with (String.length b) by lia.
  induction a as [|c a IH]; [apply substring_all|].
  rewrite append_String. simpl. exact IH.
Qed.

Lemma decompose_path (c : ascii) (a b : string) :
  a +:+ String c b = (a +:+ String c "") +:+ b.
Proof. rewrite append_assoc. reflexivity. Qed.

Lemma Split_decomp (a c : string) :
  sep_free c = true -> Split (a +:+ String "/" c) = (a +:+ "/", c).
Proof.
  intros Hc. unfold Split. rewrite lastSeparator_decomp by exact Hc.
  rewrite (decompose_path "/" a c). rewrite slice_to_app, slice_from_app. reflexivity.
Qed.

Lemma Dir_decomp (a c : string) :
  sep_free c = true -> Dir (a +:+ String "/" c) = filepath.Clean (a +:+ "/").
Proof.
  intros Hc. unfold Dir. rewrite lastSeparator_decomp by exact Hc.
  rewrite (decompose_path "/" a c). rewrite slice_to_app. reflexivity.
Qed.

(** Every path is free of separators or has a last separator. *)
Lemma last_separator_exists (p : string) :
  sep_free p = true
  \/ exists a c, p = a +:+ String "/" c /\ sep_free c = true.
Proof.
  induction p as [|x p IH]; [left; reflexivity|].
  destruct IH as [Hp|(a & c & -> & Hc)].
  - destruct (IsPathSeparator x) eqn:Hx.
    + right. exists "", p. apply IsPathSeparator_true in Hx as ->. split; [reflexivity|exact Hp].
    + left. simpl. rewrite Hx, Hp. reflexivity.
  - right. exists (String x a), c. split; [reflexivity|exact Hc].
Qed.

Lemma Split_sep_free (p : string) : sep_free p = true -> Split p = ("", p).
Proof.
  intros Hp. unfold Split. rewrite lastSeparator_sep_free by exact Hp.
  unfold slice_to, slice_from. rewrite Nat.sub_0_r, substring_all.
  destruct p; reflexivity.
Qed.

(** The directory part of an absolute path is absolute. *)
Lemma Split_rooted (s : string) :
  exists x c, Split (String "/" s) = (String "/" x, c)
    /\ String.length x <= String.length s.
Proof.
  destruct (last_separator_exists (String "/" s)) as [H|(a & c & Heq & Hc)];
    [discriminate|].
  rewrite Heq, Split_decomp by exact Hc.
  destruct a as [|y a].
  - exists "", c. split; [reflexivity|simpl; lia].
  - rewrite append_String in Heq. injection Heq as <- ->.
    exists (a +:+ "/"), c. split; [reflexivity|]. rewrite !length_append. simpl. lia.
Qed.

Lemma Dir_Split (p : string) : Dir p = filepath.Clean (fst (Split p)).
Proof. reflexivity. Qed.

(** The parent of an absolute path is the path of a list of names. *)
Lemma Dir_rooted (s : string) :
  exists cs, names cs /\ Dir (String "/" s) = render cs
    /\ weight cs <= S (String.length s).
Proof.
  destruct (Split_rooted s) as (x & c & Hsplit & Hlen).
  rewrite Dir_Split, Hsplit. simpl fst. exists (normalize (split_slash x)).
  split; [apply normalize_names|]. split; [apply Clean_rooted|].
  pose proof (weight_normalize x). lia.
Qed.

Lemma render_snoc_any (cs : list string) (c : string) :
  render (cs ++ [c]) = (match cs with [] => "" | _ => render cs end) +:+ String "/" c.
Proof.
  destruct cs as [|c0 cs]; [reflexivity|]. apply render_snoc. congruence.
Qed.

(** The parent of "/a/b/c" is "/a/b". *)
Lemma Dir_render_snoc (cs : list string) (c : string) :
  names (cs ++ [c]) -> Dir (render (cs ++ [c])) = render cs.
Proof.
  intros H. apply Forall_app in H as [Hcs Hc]. apply Forall_cons in Hc as [Hc _].
  rewrite render_snoc_any, Dir_decomp by (apply is_name_sep_free, Hc).
  destruct cs as [|c0 cs]; [reflexivity|].
  apply Clean_render_slash; [exact Hcs|congruence].
Qed.

(** ** ancestors *)

Lemma inits_snoc {A : Type} (l : list A) (x : A) :
  inits (l ++ [x]) = (inits l ++ [l ++ [x]])%list.
Proof.
  induction l as [|y l IH]; [reflexivity|].
  change (inits ((y :: l) ++ [x])) with ([] :: map (cons y) (inits (l ++ [x]))).
  rewrite IH, map_app. reflexivity.
Qed.

Lemma length_inits {A : Type} (l : list A) : length (inits l) = S (length l).
Proof.
  induction l as [|y l IH]; [reflexivity|].
  change (inits (y :: l)) with ([] :: map (cons y) (inits l)).
  simpl. rewrite length_map, IH. reflexivity.
Qed.

Lemma render_snoc_not_root (cs : list string) (c : string) :
  names (cs ++ [c]) ->
  String.eqb (render (cs ++ [c])) "" || String.eqb (render (cs ++ [c])) "/" = false.
Proof.
  intros H. unfold render.
  change (String.eqb (String "/" (join_slash (cs ++ [c])%list)) "") with false.
  rewrite orb_false_l. apply String.eqb_neq. intros Heq.
  assert (join_slash (cs ++ [c])%list = "") as Hj by congruence.
  apply join_empty in Hj; [|exact H]. destruct cs; discriminate.
Qed.

Lemma ancestors_depth_S (fuel : nat) (p : string) :
  ancestors_depth (S fuel) p
  = if String.eqb p "" || String.eqb p "/" then Ok ["/"]
    else ators ← ancestors_depth fuel (Dir p);
         if (length ators =? 0)%nat then Panic
         else Ok (ators ++ [filepath.Clean p])%list.
Proof. reflexivity. Qed.

(** The ancestors of "/a/b" are "/", "/a" and "/a/b" itself. *)
Lemma ancestors_depth_render (cs : list string) :
  names cs -> forall fuel, length cs < fuel ->
  ancestors_depth fuel (render cs) = Ok (map render (inits cs)).
Proof.
  induction cs as [|c cs IH] using rev_ind; intros Hcs fuel Hfuel.
  - destruct fuel; [lia|]. reflexivity.
  - destruct fuel as [|fuel]; [lia|]. rewrite length_app in Hfuel. simpl in Hfuel.
    rewrite ancestors_depth_S, render_snoc_not_root by exact Hcs.
    rewrite Dir_render_snoc by exact Hcs.
    rewrite IH; [|apply Forall_app in Hcs; tauto|lia].
    cbn [mbind outcome_bind]. rewrite length_map, length_inits. cbn [Nat.eqb].
    rewrite Clean_render by exact Hcs. rewrite inits_snoc, map_app. reflexivity.
Qed.

Lemma names_of_render (cs : list string) : names cs -> names_of (render cs) = cs.
Proof.
  intros H. unfold render, names_of.
  destruct (decide (cs = [])) as [->|Hne]; [reflexivity|].
  rewrite split_join_slash by auto using names_sep_free.
  unfold normalize. rewrite foldl_step_names by exact H. reflexivity.
Qed.

Lemma names_of_names (p : string) : names (names_of p).
Proof. destruct p; [constructor|apply normalize_names]. Qed.

Lemma Clean_absolute (p : string) :
  absolute p -> filepath.Clean p = render (names_of p).
Proof. intros [s ->]. apply Clean_rooted. Qed.

Lemma Dir_absolute (p : string) :
  absolute p -> Dir p = render (names_of (Dir p)) /\ 
  weight (names_of (Dir p)) <= String.length p.
Proof.
  intros [s ->]. destruct (Dir_rooted s) as (cs & Hcs & -> & Hw).
  rewrite names_of_render by exact Hcs. split; [reflexivity|exact Hw].
Qed.

(** [ancestors] on an absolute path other than "/": the ancestors of its
    parent, then its own canonical form. *)
Lemma ancestors_depth_absolute (p : string) (fuel : nat) :
  absolute p -> p <> "/" -> String.length p < fuel ->
  ancestors_depth fuel p
  = Ok (map render (inits (names_of (Dir p))) ++ [filepath.Clean p])%list.
Proof.
  intros Hp Hroot Hfuel. destruct (Dir_absolute p Hp) as [Hdir Hw].
  pose proof (weight_names _ (names_of_names (Dir p))) as Hn.
  destruct Hp as [s ->].
  destruct fuel as [|fuel]; [lia|]. rewrite ancestors_depth_S.
  replace (String.eqb (String "/" s) "" || String.eqb (String "/" s) "/") with false
    by (symmetry; apply String.eqb_neq; congruence).
  rewrite Hdir at 1.
  rewrite ancestors_depth_render; [|apply names_of_names|].
  - cbn [mbind outcome_bind]. rewrite length_map, length_inits. reflexivity.
  - destruct s; [congruence|]. simpl in *. lia.
Qed.

(** [ancestors] returns on every absolute path, and any deeper bound on the
    recursion gives the same list. *)
Lemma ancestors_depth_enough (p : string) (fuel : nat) :
  absolute p -> String.length p < fuel ->
  ancestors_depth fuel p = ancestors p.
Proof.
  intros Hp Hfuel. unfold ancestors. destruct (decide (p = "/")) as [->|Hroot].
  - destruct fuel; [simpl in Hfuel; lia|]. reflexivity.
  - rewrite !ancestors_depth_absolute by (assumption || lia). reflexivity.
Qed.

Lemma ancestors_absolute (p : string) :
  absolute p -> p <> "/" ->
  ancestors p
  = Ok (map render (inits (names_of (Dir p))) ++ [filepath.Clean p])%list.
Proof. intros Hp Hroot. apply ancestors_depth_absolute; [assumption..|lia]. Qed.

Lemma ancestors_absolute_Ok (p : string) :
  absolute p -> exists ps, ancestors p = Ok ps /\ "/" ∈ ps.
Proof.
  intros Hp. destruct (decide (p = "/")) as [->|Hroot].
  - exists ["/"]. split; [reflexivity|]. apply list_elem_of_here.
  - rewrite ancestors_absolute by assumption. eexists. split; [reflexivity|].
    destruct (names_of (Dir p)); apply list_elem_of_here.
Qed.

Lemma ancestors_canonical (cs : list string) :
  names cs -> ancestors (render cs) = Ok (map render (inits cs)).
Proof.
  intros Hcs. apply ancestors_depth_render; [exact Hcs|].
  pose proof (weight_names cs Hcs). rewrite length_render. lia.
Qed.



(** ** Clean and ancestors on relative paths *)

Lemma unrooted_nil : unrooted [].
Proof. intros c H. discriminate. Qed.

Lemma unrooted_single (c : ascii) : IsPathSeparator c = false -> unrooted [c].
Proof. intros Hc c' [= <-]. exact Hc. Qed.

Lemma unrooted_cons (x : ascii) (out : list ascii) :
  out <> [] -> unrooted out -> unrooted (x :: out).
Proof.
  intros Hne H c Hc. apply H. destruct out as [|y out]; [congruence|exact Hc].
Qed.

Lemma unrooted_suffix (l out : list ascii) : unrooted (l ++ out) -> unrooted out.
Proof.
  intros H c Hc. apply H. rewrite last_app, Hc. reflexivity.
Qed.

Lemma backtrack_loop_suffix (d : ascii) (out : list ascii) (dd : nat) :
  exists l, out = (l ++ backtrack_loop d out dd)%list.
Proof.
  revert d. induction out as [|c out IH]; intros d; [exists []; reflexivity|].
  cbn [backtrack_loop]. destruct (_ && _).
  - destruct (IH c) as [l Hl]. exists (c :: l). simpl. f_equal. exact Hl.
  - exists []. reflexivity.
Qed.

Lemma unrooted_backtrack (out : list ascii) (dd : nat) :
  unrooted out -> unrooted (backtrack out dd).
Proof.
  intros H. destruct out as [|c out]; [exact H|]. simpl.
  destruct (backtrack_loop_suffix c out dd) as [l Hl].
  apply (unrooted_suffix (c :: l)). simpl. rewrite <- Hl. exact H.
Qed.

Lemma unrooted_copy_element (rest : string) (out : list ascii) :
  out <> [] -> unrooted out -> unrooted (snd (copy_element rest out)).
Proof.
  revert out. induction rest as [|c rest IH]; intros out Hne H; [exact H|].
  simpl. destruct (IsPathSeparator c); [exact H|].
  apply IH; [congruence|]. apply unrooted_cons; assumption.
Qed.

Lemma clean_loop_unrooted (fuel : nat) :
  forall (rest : string) (out : list ascii) (dd : nat),
  unrooted out -> unrooted (clean_loop fuel false rest out dd).
Proof.
  induction fuel as [|fuel IH]; intros rest out dd Hout; [exact Hout|].
  destruct rest as [|c rest1]; [exact Hout|].
  cbn [clean_loop]. destruct (IsPathSeparator c) eqn:Hc; [apply IH, Hout|].
  destruct (_ && atEndOrSep rest1); [apply IH, Hout|].
  destruct (_ && _).
  - destruct (dd <? length out)%nat; [apply IH, unrooted_backtrack, Hout|].
    cbn [negb]. apply IH. destruct out as [|y out].
    + simpl. intros c' [= <-]. reflexivity.
    + change (0 <? length (y :: out))%nat with true. cbv iota.
      do 3 (apply unrooted_cons; [congruence|]). exact Hout.
  - cbn [negb andb orb]. cbn [copy_element]. rewrite Hc.
    destruct (copy_element rest1 _) as [rest' out2] eqn:Hcopy.
    apply IH. change out2 with (snd (rest', out2)). rewrite <- Hcopy.
    apply unrooted_copy_element; [congruence|].
    destruct out as [|y out].
    + simpl. apply unrooted_single, Hc.
    + change (negb (length (y :: out) =? 0)%nat) with true. cbv iota.
      do 2 (apply unrooted_cons; [congruence|]). exact Hout.
Qed.

Lemma string_of_rev_last (out : list ascii) (c : ascii) :
  last out = Some c ->
  exists q, string_of_list_ascii (rev out) = String c q.
Proof.
  intros H. destruct (rev out) as [|x l] eqn:Hrev.
  - apply (f_equal (@rev ascii)) in Hrev. rewrite rev_involutive in Hrev.
    subst out. discriminate.
  - apply (f_equal (@rev ascii)) in Hrev. rewrite rev_involutive in Hrev.
    subst out. simpl in H. rewrite last_snoc in H. injection H as ->.
    eexists. reflexivity.
Qed.

(** [Clean] of a relative path is a relative path. *)
Lemma Clean_relative (p : string) : relative p -> relative (filepath.Clean p).
Proof.
  intros (c & rest & -> & Hc). unfold Clean. rewrite Hc.
  set (out := clean_loop _ false _ [] 0).
  assert (unrooted out) as Hout by apply clean_loop_unrooted, unrooted_nil.
  destruct out as [|y out'] eqn:Hy.
  - exists "."%char, "". split; reflexivity.
  - change (length (y :: out') =? 0)%nat with false. cbv iota.
    destruct (last (y :: out')) as [c'|] eqn:Hlast.
    + destruct (string_of_rev_last _ _ Hlast) as [q ->]. exists c', q.
      split; [reflexivity|]. apply Hout, Hlast.
    + apply last_None in Hlast. discriminate.
Qed.

Lemma slice_to_relative (p : string) (k : nat) :
  relative p -> slice_to k p = "" \/ relative (slice_to k p).
Proof.
  intros (c & rest & -> & Hc). destruct k as [|k]; [left; reflexivity|].
  right. exists c, (substring 0 k rest). split; [reflexivity|exact Hc].
Qed.

Lemma Dir_relative (p : string) : relative p -> relative (Dir p).
Proof.
  intros Hp. unfold Dir.
  destruct (slice_to_relative p (lastSeparator p (String.length p)) Hp) as [->|H].
  - exists "."%char, "". split; reflexivity.
  - apply Clean_relative, H.
Qed.

(** On a relative path the recursion of [ancestors] never ends. *)
Theorem ancestors_relative (p : string) (fuel : nat) :
  relative p -> ancestors_depth fuel p = StackOverflow.
Proof.
  revert p. induction fuel as [|fuel IH]; intros p Hp; [reflexivity|].
  rewrite ancestors_depth_S.
  replace (String.eqb p "" || String.eqb p "/") with false.
  - rewrite IH by apply Dir_relative, Hp. reflexivity.
  - destruct Hp as (c & rest & -> & Hc). symmetry. apply orb_false_iff.
    split; apply String.eqb_neq; [discriminate|].
    intros [= -> _]. discriminate.
Qed.


End PathFacts.

Import PathFacts.

(** ** Validate *)

Lemma slice_split (k : nat) (s : string) :
  k <= String.length s -> s = slice_to k s +:+ slice_from k s.
Proof.
  unfold slice_to, slice_from. revert k.
  induction s as [|c s IH]; intros k Hk; simpl in *.
  - assert (k = 0) as -> by lia. reflexivity.
  - destruct k as [|k]; simpl.
    + rewrite substring_all. reflexivity.
    + rewrite append_String. f_equal. apply IH. lia.
Qed.

Lemma slice_to_length (k : nat) (s : string) :
  k <= String.length s -> String.length (slice_to k s) = k.
Proof.
  unfold slice_to. revert k. induction s as [|c s IH]; intros [|k] Hk; simpl in *;
    try reflexivity; try lia.
  f_equal. apply IH. lia.
Qed.

Lemma HasPrefix_spec (s pre : string) :
  strings.HasPrefix s pre = true <-> has_prefix pre s.
Proof.
  unfold strings.HasPrefix, has_prefix. rewrite andb_true_iff, Nat.leb_le, String.eqb_eq.
  split.
  - intros [Hlen Heq]. exists (slice_from (String.length pre) s).
    rewrite <- Heq at 1. apply slice_split. exact Hlen.
  - intros [rest ->]. split.
    + rewrite length_append. lia.
    + apply slice_to_app.
Qed.

Lemma validProject_spec (pId : string) :
  validProject pId = true <-> valid_project_id pId.
Proof.
  unfold validProject, valid_project_id. rewrite <- !HasPrefix_spec.
  destruct (strings.HasPrefix pId "project-"),
    (strings.HasPrefix pId "container-"); intuition congruence.
Qed.

Lemma validateDirName_None (p : string) :
  validateDirName p = None <-> absolute p.
Proof.
  unfold validateDirName, absolute. destruct p as [|c p].
  - split; [discriminate|]. intros [rest H]. discriminate.
  - destruct (Ascii.eqb_spec c "/") as [->|Hne]; simpl.
    + split; eauto.
    + split; [discriminate|]. intros [rest H]. congruence.
Qed.

Lemma validateDirName_kind (p : string) (e : error) :
  validateDirName p = Some e -> error_kind e = InvalidManifest.
Proof.
  unfold validateDirName. destruct p as [|c p].
  - intros [= <-]. reflexivity.
  - destruct (negb _); [|discriminate]. intros [= <-]. reflexivity.
Qed.

Lemma validateFiles_None (files : list ManifestFile.t) :
  validateFiles files = None <-> Forall file_entry_ok files.
Proof.
  induction files as [|fl files IH]; simpl.
  - split; auto.
  - rewrite Forall_cons. unfold file_entry_ok at 1.
    rewrite <- validProject_spec, <- HasPrefix_spec, <- validateDirName_None, <- IH.
    destruct (validProject _); simpl; [|intuition discriminate].
    destruct (strings.HasPrefix _ "file-"); simpl; [|intuition discriminate].
    destruct (validateDirName _); intuition discriminate.
Qed.

Lemma validateFiles_kind (files : list ManifestFile.t) (e : error) :
  validateFiles files = Some e -> error_kind e = InvalidManifest.
Proof.
  induction files as [|fl files IH]; simpl; [discriminate|].
  destruct (negb (validProject _)); [intros [= <-]; reflexivity|].
  destruct (negb (strings.HasPrefix _ _)); [intros [= <-]; reflexivity|].
  destruct (validateDirName _) eqn:Hd; [|exact IH].
  intros [= <-]. eapply validateDirName_kind, Hd.
Qed.

Lemma validateDirectories_None (dirs : list ManifestDir.t) :
  validateDirectories dirs = None <-> Forall dir_entry_ok dirs.
Proof.
  induction dirs as [|d dirs IH]; simpl.
  - split; auto.
  - rewrite Forall_cons. unfold dir_entry_ok at 1.
    rewrite <- validProject_spec, <- validateDirName_None, <- IH.
    destruct (validProject _); simpl; [|intuition discriminate].
    destruct (validateDirName _); intuition discriminate.
Qed.

Lemma validateDirectories_kind (dirs : list ManifestDir.t) (e : error) :
  validateDirectories dirs = Some e -> error_kind e = InvalidManifest.
Proof.
  induction dirs as [|d dirs IH]; simpl; [discriminate|].
  destruct (negb (validProject _)); [intros [= <-]; reflexivity|].
  destruct (validateDirName _) eqn:Hd; [|exact IH].
  intros [= <-]. eapply validateDirName_kind, Hd.
Qed.

Lemma Validate_None (m : Manifest) : Validate m = None <-> manifest_ok m.
Proof.
  unfold Validate, manifest_ok.
  rewrite <- validateFiles_None, <- validateDirectories_None.
  destruct (validateFiles _); intuition discriminate.
Qed.

Lemma Validate_kind (m : Manifest) (e : error) :
  Validate m = Some e -> error_kind e = InvalidManifest.
Proof.
  unfold Validate. destruct (validateFiles _) eqn:Hf.
  - intros [= <-]. eapply validateFiles_kind, Hf.
  - apply validateDirectories_kind.
Qed.

Lemma Validate_fails (m : Manifest) :
  ~ manifest_ok m ->
  exists e, Validate m = Some e /\ error_kind e = InvalidManifest.
Proof.
  intros Hbad. destruct (Validate m) as [e|] eqn:Hv.
  - exists e. split; [reflexivity|]. eapply Validate_kind, Hv.
  - exfalso. apply Hbad, Validate_None, Hv.
Qed.

(** C5.  [Validate] returns nil exactly when every file entry has a project
    id that starts with "project-" or "container-", a file id that starts
    with "file-" and a parent path that starts with '/', and every directory
    entry has such a project id and a mount path that starts with '/';
    otherwise it returns an error, which is an InvalidManifest. *)
Theorem Validate_iff (m : Manifest) :
  (Validate m = None <-> manifest_ok m)
  /\ (~ manifest_ok m ->
      exists e, Validate m = Some e /\ error_kind e = InvalidManifest).
Proof.
  split; [apply Validate_None|].
  intros Hbad. destruct (Validate m) as [e|] eqn:Hv.
  - exists e. split; [reflexivity|]. unfold Validate in Hv.
    destruct (validateFiles (Files m)) as [e'|] eqn:Hf.
    + injection Hv as <-. eapply validateFiles_kind, Hf.
    + eapply validateDirectories_kind, Hv.
  - exfalso. apply Hbad, Validate_None, Hv.
Qed.

Lemma foo_not_valid_project : ~ valid_project_id "foo-123".
Proof. intros H. apply validProject_spec in H. discriminate. Qed.

Lemma Validate_foo (m : Manifest) (fl : ManifestFile.t) :
  fl ∈ Files m -> ManifestFile.ProjId fl = "foo-123" ->
  exists e, Validate m = Some e /\ error_kind e = InvalidManifest.
Proof.
  intros Hfl Hproj. apply Validate_fails. intros [Hfiles _].
  rewrite Forall_forall in Hfiles. destruct (Hfiles fl Hfl) as [Hp _].
  rewrite Hproj in Hp. exact (foo_not_valid_project Hp).
Qed.

(** ** DirSkeleton: the tree *)

Lemma recordFileParents_absolute (files : list ManifestFile.t) (tree : gset string) :
  Forall (fun fl => absolute (ManifestFile.Parent fl)) files ->
  exists tree', recordFileParents files tree = Ok tree' /\ tree ⊆ tree'.
Proof.
  revert tree. induction files as [|fl files IH]; intros tree Habs.
  - exists tree. split; [reflexivity|set_solver].
  - apply Forall_cons in Habs as [Hfl Habs].
    destruct (ancestors_absolute_Ok _ Hfl) as (ps & Hps & _).
    destruct (IH (list_to_set ps ∪ tree) Habs) as (tree' & Hrec & Hsub).
    exists tree'. simpl. rewrite Hps. cbn [mbind outcome_bind].
    split; [exact Hrec|set_solver].
Qed.

Lemma recordDirParents_cons (d : ManifestDir.t) (dirs : list ManifestDir.t)
    (tree allDirs : gset string) (ps : list string) :
  ancestors (fst (filepath.Split (ManifestDir.Dirname d))) = Ok ps ->
  recordDirParents (d :: dirs) tree allDirs
  = if decide (ManifestDir.Dirname d ∈ allDirs)
    then Err (ErrDirectoryUsedTwice (ManifestDir.Dirname d))
    else recordDirParents dirs (list_to_set ps ∪ tree)
           ({[ ManifestDir.Dirname d ]} ∪ allDirs).
Proof.
  intros Hps. cbn [recordDirParents].
  destruct (filepath.Split _) as [dirParent file].
  cbn [fst] in Hps. rewrite Hps. reflexivity.
Qed.

Lemma dirParent_absolute (p : string) :
  absolute p -> absolute (fst (filepath.Split p)).
Proof.
  intros [s ->]. destruct (Split_rooted s) as (x & c & -> & _). exists x. reflexivity.
Qed.

(** The first loop over the directories, on absolute mount paths: it fails
    exactly when a mount path occurs twice (or is in [allDirs] already), and
    otherwise the tree holds the ancestors of the parent of every mount. *)

Lemma fresh_mounts_cons (x : string) (ms : list string) (allDirs : gset string) :
  fresh_mounts (x :: ms) allDirs
  <-> (x ∉ allDirs) /\ fresh_mounts ms ({[x]} ∪ allDirs).
Proof.
  unfold fresh_mounts. rewrite NoDup_cons, Forall_cons, !Forall_forall. split.
  - intros [[Hx Hnd] [Hfx Hf]]. split; [exact Hfx|]. split; [exact Hnd|].
    intros y Hy. specialize (Hf y Hy). set_solver.
  - intros [Hfx [Hnd Hf]]. split; [split; [|exact Hnd]|split; [exact Hfx|]].
    + intros Hx. specialize (Hf x Hx). set_solver.
    + intros y Hy. specialize (Hf y Hy). set_solver.
Qed.

Lemma recordDirParents_fresh (dirs : list ManifestDir.t) :
  forall tree allDirs : gset string,
  Forall (fun d => absolute (ManifestDir.Dirname d)) dirs ->
  fresh_mounts (map ManifestDir.Dirname dirs) allDirs ->
  exists tree',
    recordDirParents dirs tree allDirs
    = Ok (tree', list_to_set (map ManifestDir.Dirname dirs) ∪ allDirs)
    /\ tree ⊆ tree'
    /\ forall d ps, d ∈ dirs ->
         ancestors (fst (filepath.Split (ManifestDir.Dirname d))) = Ok ps ->
         list_to_set ps ⊆ tree'.
Proof.
  induction dirs as [|d dirs IH]; intros tree allDirs Habs Hfresh.
  - exists tree. split; [cbn; f_equal; f_equal; set_solver|]. split; [set_solver|].
    intros d ps Hd. inversion Hd.
  - apply Forall_cons in Habs as [Hd Habs].
    cbn [map] in Hfresh. apply fresh_mounts_cons in Hfresh as [Hnin Hfresh].
    destruct (ancestors_absolute_Ok _ (dirParent_absolute _ Hd)) as (ps & Hps & _).
    rewrite (recordDirParents_cons d dirs tree allDirs ps Hps).
    rewrite decide_False by exact Hnin.
    destruct (IH (list_to_set ps ∪ tree) _ Habs Hfresh) as (tree' & Hrec & Hsub & Hanc).
    exists tree'. split.
    { rewrite Hrec. f_equal. f_equal. cbn [map]. set_solver. }
    split; [set_solver|].
    intros d' ps' Hd' Hps'. apply elem_of_cons in Hd' as [->|Hd'].
    + rewrite Hps in Hps'. injection Hps' as <-. set_solver.
    + eapply Hanc; eassumption.
Qed.

Lemma recordDirParents_twice (dirs : list ManifestDir.t) :
  forall tree allDirs : gset string,
  Forall (fun d => absolute (ManifestDir.Dirname d)) dirs ->
  ~ fresh_mounts (map ManifestDir.Dirname dirs) allDirs ->
  exists x, x ∈ map ManifestDir.Dirname dirs
    /\ recordDirParents dirs tree allDirs = Err (ErrDirectoryUsedTwice x).
Proof.
  induction dirs as [|d dirs IH]; intros tree allDirs Habs Hbad.
  - exfalso. apply Hbad. split; constructor.
  - apply Forall_cons in Habs as [Hd Habs].
    destruct (ancestors_absolute_Ok _ (dirParent_absolute _ Hd)) as (ps & Hps & _).
    rewrite (recordDirParents_cons d dirs tree allDirs ps Hps).
    cbn [map] in *. destruct (decide (ManifestDir.Dirname d ∈ allDirs)) as [Hin|Hnin].
    + eexists. split; [apply list_elem_of_here|reflexivity].
    + destruct (IH (list_to_set ps ∪ tree) ({[ManifestDir.Dirname d]} ∪ allDirs) Habs)
        as (x & Hx & Hrec).
      * intros Hfresh. apply Hbad, fresh_mounts_cons. split; assumption.
      * exists x. split; [apply list_elem_of_further, Hx|exact Hrec].
Qed.

Lemma checkLeaves_None (dirs : list ManifestDir.t) (tree : gset string)
    (elems : list string) :
  checkLeaves dirs tree elems = None
  <-> forall d, d ∈ dirs -> ManifestDir.Dirname d ∉ tree.
Proof.
  induction dirs as [|d dirs IH]; simpl.
  - split; [intros _ d Hd; inversion Hd|reflexivity].
  - destruct (decide _) as [Hin|Hnin].
    + split; [discriminate|]. intros H. exfalso. apply (H d); [apply list_elem_of_here|exact Hin].
    + rewrite IH. split.
      * intros H d' Hd'. apply elem_of_cons in Hd' as [->|Hd']; auto.
      * intros H d' Hd'. apply H. apply list_elem_of_further, Hd'.
Qed.

Lemma checkLeaves_Some (dirs : list ManifestDir.t) (tree : gset string)
    (elems : list string) (e : error) :
  checkLeaves dirs tree elems = Some e ->
  exists d, d ∈ dirs /\ ManifestDir.Dirname d ∈ tree
    /\ e = ErrNotLeaf (ManifestDir.Dirname d) elems.
Proof.
  induction dirs as [|d dirs IH]; simpl; [discriminate|].
  destruct (decide _) as [Hin|Hnin].
  - intros [= <-]. exists d. split; [apply list_elem_of_here|]. split; [exact Hin|reflexivity].
  - intros H. destruct (IH H) as (d' & Hd' & Hrest). exists d'.
    split; [apply list_elem_of_further, Hd'|exact Hrest].
Qed.

Section DirSkeletonFacts.

Variable range_keys : gset string -> list string.
Variable sort_Sort : (string -> string -> bool) -> list string -> list string.

(** A successful call returns the sorted keys of some tree, the root left
    out. *)
Lemma DirSkeleton_Ok_inv (m : Manifest) (out : list string) :
  DirSkeleton range_keys sort_Sort m = Ok out ->
  exists tree : gset string,
    out = filter (fun e => e ≠ "/") (sort_Sort Dirs_Less (range_keys tree))
    /\ forall d, d ∈ Directories m -> ManifestDir.Dirname d ∉ tree.
Proof.
  unfold DirSkeleton.
  destruct (recordFileParents (Files m) ∅) as [tree0| | |]; try discriminate.
  cbn [mbind outcome_bind].
  destruct (recordDirParents (Directories m) tree0 ∅) as [[tree allDirs]| | |];
    try discriminate.
  cbn [mbind outcome_bind]. cbv zeta.
  destruct (checkLeaves _ _ _) eqn:Hleaves; [discriminate|].
  intros [= <-]. exists tree. split; [reflexivity|].
  eapply checkLeaves_None, Hleaves.
Qed.

(** On absolute paths [DirSkeleton] returns or fails, and which of the
    three it does depends on the mount paths only. *)
Lemma DirSkeleton_absolute (m : Manifest) :
  paths_absolute m ->
  if decide (NoDup (mounts m))
  then exists tree : gset string,
    (forall d ps, d ∈ Directories m ->
       ancestors (fst (filepath.Split (ManifestDir.Dirname d))) = Ok ps ->
       list_to_set ps ⊆ tree)
    /\ DirSkeleton range_keys sort_Sort m
       = match checkLeaves (Directories m) tree
                 (sort_Sort Dirs_Less (range_keys tree)) with
         | Some err => Err err
         | None => Ok (filter (fun e => e ≠ "/")
                         (sort_Sort Dirs_Less (range_keys tree)))
         end
  else exists x, x ∈ mounts m
    /\ DirSkeleton range_keys sort_Sort m = Err (ErrDirectoryUsedTwice x).
Proof.
  intros [Hfiles Hdirs]. unfold DirSkeleton.
  destruct (recordFileParents_absolute (Files m) ∅ Hfiles) as (tree0 & -> & _).
  cbn [mbind outcome_bind].
  destruct (decide (NoDup (mounts m))) as [Hnd|Hdup].
  - destruct (recordDirParents_fresh (Directories m) tree0 ∅ Hdirs)
      as (tree & -> & _ & Hanc).
    { split; [exact Hnd|]. apply Forall_forall. set_solver. }
    exists tree. split; [exact Hanc|reflexivity].
  - destruct (recordDirParents_twice (Directories m) tree0 ∅ Hdirs)
      as (x & Hx & ->).
    { intros [Hnd _]. contradiction. }
    exists x. split; [exact Hx|reflexivity].
Qed.

End DirSkeletonFacts.

(** ** DirSkeleton: the order of the result *)

Lemma Dirs_Less_false (a b : string) : Dirs_Less b a = false <-> slashes_le a b.
Proof. unfold Dirs_Less, slashes_le. rewrite Nat.ltb_ge. reflexivity. Qed.

Global Instance slashes_le_trans : Transitive slashes_le.
Proof. unfold slashes_le. intros a b c. lia. Qed.

Global Instance slashes_le_total : Total slashes_le.
Proof. unfold slashes_le. intros a b. lia. Qed.

Lemma CountByte_append (a b : string) (c : ascii) :
  strings.CountByte (a +:+ b) c = strings.CountByte a c + strings.CountByte b c.
Proof.
  induction a as [|x a IH]; [reflexivity|].
  rewrite append_String. simpl. rewrite IH. lia.
Qed.

Lemma ancestor_dir_slashes (p q : string) :
  ancestor_dir p q -> strings.CountByte p "/" < strings.CountByte q "/".
Proof. intros [r ->]. rewrite CountByte_append. simpl. lia. Qed.

Lemma StronglySorted_filter {A : Type} (R : relation A) (P : A -> Prop)
    `{forall x, Decision (P x)} (l : list A) :
  StronglySorted R l -> StronglySorted R (filter P l).
Proof.
  induction 1 as [|x l Hl IH Hx]; [constructor|].
  rewrite filter_cons. destruct (decide (P x)); [|exact IH].
  constructor; [exact IH|]. apply Forall_forall. intros y Hy.
  apply list_elem_of_filter in Hy as [_ Hy]. rewrite Forall_forall in Hx. auto.
Qed.

Lemma StronglySorted_lookup {A : Type} (R : relation A) (l : list A)
    (i j : nat) (x y : A) :
  StronglySorted R l -> i < j -> l !! i = Some x -> l !! j = Some y -> R x y.
Proof.
  intros Hl. revert i j. induction Hl as [|z l Hl IH Hz]; intros i j Hij Hi Hj.
  - discriminate.
  - destruct j as [|j]; [lia|]. destruct i as [|i].
    + simpl in Hi, Hj. injection Hi as <-. rewrite Forall_forall in Hz.
      apply Hz. eapply list_elem_of_lookup_2, Hj.
    + simpl in Hi, Hj. apply (IH i j); [lia|assumption..].
Qed.

Lemma Sorted_weaken {A : Type} (R1 R2 : relation A) (l : list A) :
  (forall a b, R1 a b -> R2 a b) -> Sorted R1 l -> Sorted R2 l.
Proof.
  intros HR. induction 1 as [|x l Hl IH Hx]; constructor; [exact IH|].
  destruct Hx; constructor. auto.
Qed.

Section DirSkeletonOrder.

Variable range_keys : gset string -> list string.
Variable sort_Sort : (string -> string -> bool) -> list string -> list string.

(** [sort.Sort] leaves the slice in ascending order as determined by
    [Less]: no element is less than the one before it. *)
Hypothesis sort_Sort_sorted : forall l : list string,
  Sorted (fun a b => Dirs_Less b a = false) (sort_Sort Dirs_Less l).

Lemma sort_Sort_slashes (l : list string) :
  StronglySorted slashes_le (sort_Sort Dirs_Less l).
Proof.
  apply Sorted_StronglySorted; [apply _|].
  eapply Sorted_weaken; [|apply sort_Sort_sorted]. intros a b. apply Dirs_Less_false.
Qed.

(** C2.  Whenever [DirSkeleton] succeeds, the list it returns is in ascending
    order of the number of separators, and a returned path that is a
    directory above another returned path stands before it: parents precede
    children. *)
Theorem DirSkeleton_parents_first (m : Manifest) (out : list string) :
  DirSkeleton range_keys sort_Sort m = Ok out ->
  StronglySorted slashes_le out
  /\ forall (i j : nat) (p q : string),
       out !! i = Some p -> out !! j = Some q -> ancestor_dir p q -> i < j.
Proof.
  intros Hok. destruct (DirSkeleton_Ok_inv _ _ _ _ Hok) as (tree & -> & _).
  assert (StronglySorted slashes_le
            (filter (fun e => e ≠ "/") (sort_Sort Dirs_Less (range_keys tree))))
    as Hsorted by apply StronglySorted_filter, sort_Sort_slashes.
  split; [exact Hsorted|]. intros i j p q Hi Hj Hpq.
  apply ancestor_dir_slashes in Hpq.
  destruct (Nat.lt_trichotomy i j) as [Hlt|[->|Hgt]]; [exact Hlt|..]; exfalso.
  - rewrite Hi in Hj. injection Hj as ->. lia.
  - pose proof (StronglySorted_lookup _ _ _ _ _ _ Hsorted Hgt Hj Hi) as Hle.
    unfold slashes_le in Hle. lia.
Qed.

End DirSkeletonOrder.

Lemma sort_by_merge_sorted (l : list string) :
  Sorted (fun a b => Dirs_Less b a = false) (sort_by_merge Dirs_Less l).
Proof.
  unfold sort_by_merge. apply Sorted_merge_sort.
  intros a b. destruct (slashes_le_total a b) as [H|H];
    [left|right]; apply Dirs_Less_false, H.
Qed.

Lemma sort_by_merge_perm (less : string -> string -> bool) (l : list string) :
  sort_by_merge less l ≡ₚ l.
Proof. unfold sort_by_merge. apply merge_sort_Permutation. Qed.

Lemma elem_of_mounts (m : Manifest) (x : string) :
  x ∈ mounts m <-> exists d, d ∈ Directories m /\ ManifestDir.Dirname d = x.
Proof.
  unfold mounts. rewrite list_elem_of_fmap. split; intros (d & H1 & H2); eauto.
Qed.

Lemma error_kind_not_InvalidMountPath (e : error) : error_kind e <> InvalidMountPath.
Proof. destruct e; discriminate. Qed.

Lemma manifest_ok_absolute (m : Manifest) : manifest_ok m -> paths_absolute m.
Proof.
  intros [Hf Hd]. split; (eapply Forall_impl; [eassumption|]).
  - intros fl (_ & _ & H). exact H.
  - intros d (_ & H). exact H.
Qed.

Lemma Validate_absolute (m : Manifest) : Validate m = None -> paths_absolute m.
Proof. intros H. apply manifest_ok_absolute, Validate_None, H. Qed.

Section DirSkeletonErrors.

Variable range_keys : gset string -> list string.
Variable sort_Sort : (string -> string -> bool) -> list string -> list string.

(** A mount path that is in the tree makes the call fail. *)
Lemma DirSkeleton_not_leaf (m : Manifest) (x p : string) (ps : list string) :
  paths_absolute m -> NoDup (mounts m) ->
  x ∈ mounts m -> p ∈ mounts m ->
  ancestors (fst (filepath.Split p)) = Ok ps -> x ∈ ps ->
  exists e, DirSkeleton range_keys sort_Sort m = Err e
    /\ error_kind e = IllegalMountNotLeaf.
Proof.
  intros Habs Hnd Hx Hp Hps Hin.
  pose proof (DirSkeleton_absolute range_keys sort_Sort m Habs) as H.
  rewrite decide_True in H by exact Hnd. destruct H as (tree & Hanc & ->).
  apply elem_of_mounts in Hx as (dx & Hdx & Hx).
  apply elem_of_mounts in Hp as (dp & Hdp & Hp).
  assert (x ∈ tree) as Htree.
  { rewrite <- Hp in Hps. specialize (Hanc dp ps Hdp Hps). set_solver. }
  destruct (checkLeaves _ _ _) as [e|] eqn:Hleaves.
  - exists e. split; [reflexivity|].
    apply checkLeaves_Some in Hleaves as (d & _ & _ & ->). reflexivity.
  - exfalso. rewrite checkLeaves_None in Hleaves.
    apply (Hleaves dx Hdx). rewrite Hx. exact Htree.
Qed.

(** C3, as amended.  On a manifest whose parent and mount paths are absolute
    and whose mount paths are pairwise distinct, a directory entry that
    mounts "/A" and one that mounts "/A/B" make [DirSkeleton] fail with
    IllegalMountNotLeaf: "/A" is in the tree of intermediate directories.
    No list is returned. *)
Theorem DirSkeleton_nested_mount (m : Manifest) :
  paths_absolute m -> NoDup (mounts m) ->
  "/A" ∈ mounts m -> "/A/B" ∈ mounts m ->
  exists e, DirSkeleton range_keys sort_Sort m = Err e
    /\ error_kind e = IllegalMountNotLeaf.
Proof.
  intros Habs Hnd HA HAB.
  apply (DirSkeleton_not_leaf m "/A" "/A/B" ["/"; "/A"; "/A"]);
    [assumption..|reflexivity|set_solver].
Qed.

(** C4.  On a manifest that [Validate] accepts, as [ReadManifest] sees to
    before it returns one, two directory entries with the same mount path
    make [DirSkeleton] fail with DuplicateMount, the error naming a mount
    path of the manifest; no skeleton is returned. *)
Theorem DirSkeleton_duplicate_mount (m : Manifest) (i j : nat)
    (d1 d2 : ManifestDir.t) :
  Validate m = None ->
  Directories m !! i = Some d1 -> Directories m !! j = Some d2 -> i <> j ->
  ManifestDir.Dirname d1 = ManifestDir.Dirname d2 ->
  exists x, x ∈ mounts m
    /\ DirSkeleton range_keys sort_Sort m = Err (ErrDirectoryUsedTwice x)
    /\ error_kind (ErrDirectoryUsedTwice x) = DuplicateMount.
Proof.
  intros Hvalid Hi Hj Hij Heq. pose proof (Validate_absolute m Hvalid) as Habs.
  pose proof (DirSkeleton_absolute range_keys sort_Sort m Habs) as H.
  destruct (decide (NoDup (mounts m))) as [Hnd|Hdup].
  - exfalso. apply Hij. apply (NoDup_lookup (mounts m) i j (ManifestDir.Dirname d1) Hnd).
    + unfold mounts. rewrite list_lookup_fmap, Hi. reflexivity.
    + unfold mounts. rewrite list_lookup_fmap, Hj, Heq. reflexivity.
  - destruct H as (x & Hx & ->). exists x. split; [exact Hx|]. split; reflexivity.
Qed.

(** C9, as amended.  [DirSkeleton] has no InvalidMountPath error.  On a
    manifest whose parent and mount paths are absolute, a directory entry
    that mounts "/" makes it fail all the same: with IllegalMountNotLeaf when
    the mount paths are pairwise distinct (the root is in the tree of every
    manifest that has a directory entry), with DuplicateMount otherwise. *)
Theorem DirSkeleton_root_mount (m : Manifest) :
  paths_absolute m -> "/" ∈ mounts m ->
  exists e, DirSkeleton range_keys sort_Sort m = Err e
    /\ error_kind e = if decide (NoDup (mounts m)) then IllegalMountNotLeaf
                      else DuplicateMount.
Proof.
  intros Habs Hroot. destruct (decide (NoDup (mounts m))) as [Hnd|Hdup].
  - apply (DirSkeleton_not_leaf m "/" "/" ["/"]);
      [assumption..|reflexivity|set_solver].
  - pose proof (DirSkeleton_absolute range_keys sort_Sort m Habs) as H.
    rewrite decide_False in H by exact Hdup. destruct H as (x & _ & ->).
    eexists. split; reflexivity.
Qed.

(** What Go guarantees of the iteration over the map and of the sort: every
    key once, and the same elements after the sort as before. *)
Hypothesis range_keys_perm : forall tree : gset string,
  range_keys tree ≡ₚ elements tree.
Hypothesis sort_Sort_perm : forall l : list string,
  sort_Sort Dirs_Less l ≡ₚ l.

Lemma skeleton_perm (tree : gset string) :
  filter (fun e => e ≠ "/") (sort_Sort Dirs_Less (range_keys tree))
  ≡ₚ filter (fun e => e ≠ "/") (elements tree).
Proof. rewrite sort_Sort_perm, range_keys_perm. reflexivity. Qed.

(** C1.  Scenario S1: on a manifest without files whose three directory
    entries mount "/A/B", "/D" and "/A/E", [DirSkeleton] succeeds and returns
    exactly ["/A"], in whatever order the map is visited and whatever the
    sort does with elements that compare equal: each mount is a leaf, "/A" is
    the only intermediate directory, and the root is left out. *)
Theorem DirSkeleton_S1 (d1 d2 d3 : ManifestDir.t) :
  ManifestDir.Dirname d1 = "/A/B" ->
  ManifestDir.Dirname d2 = "/D" ->
  ManifestDir.Dirname d3 = "/A/E" ->
  DirSkeleton range_keys sort_Sort (mkManifest [] [d1; d2; d3]) = Ok ["/A"].
Proof.
  intros H1 H2 H3. unfold DirSkeleton. cbn [Files Directories recordFileParents].
  cbn [mbind outcome_bind].
  rewrite (recordDirParents_cons d1 _ _ _ ["/"; "/A"; "/A"]) by (rewrite H1; reflexivity).
  rewrite decide_False by set_solver.
  rewrite (recordDirParents_cons d2 _ _ _ ["/"]) by (rewrite H2; reflexivity).
  rewrite decide_False by (rewrite H1, H2; set_solver).
  rewrite (recordDirParents_cons d3 _ _ _ ["/"; "/A"; "/A"]) by (rewrite H3; reflexivity).
  rewrite decide_False by (rewrite H1, H2, H3; set_solver).
  cbn [recordDirParents mbind outcome_bind].
  assert (list_to_set ["/"; "/A"; "/A"] ∪ (list_to_set ["/"]
            ∪ (list_to_set ["/"; "/A"; "/A"] ∪ ∅))
          = ({[ "/"; "/A" ]} : gset string)) as -> by set_solver.
  cbn [checkLeaves]. rewrite H1, H2, H3.
  rewrite !decide_False by set_solver.
  f_equal. apply Permutation_singleton_r. rewrite skeleton_perm.
  rewrite elements_union_singleton by set_solver. rewrite elements_singleton.
  reflexivity.
Qed.

End DirSkeletonErrors.

(** ** ancestors on absolute paths (C10) *)



(** ** FillInMissingFields *)

Lemma fileMissingDetails_spec (fl : ManifestFile.t) :
  fileMissingDetails fl = true <-> file_incomplete fl.
Proof.
  unfold fileMissingDetails, file_incomplete.
  rewrite !orb_true_iff, String.eqb_eq, !Z.eqb_eq. tauto.
Qed.

Lemma dirMissingTimes_spec (d : ManifestDir.t) :
  dirMissingTimes d = true <-> dir_incomplete d.
Proof.
  unfold dirMissingTimes, dir_incomplete. rewrite orb_true_iff, !Z.eqb_eq. tauto.
Qed.

Lemma elem_of_collectFileIds (files : list ManifestFile.t) (acc : gset string)
    (fId : string) :
  fId ∈ collectFileIds files acc
  <-> fId ∈ acc
      \/ exists fl, fl ∈ files /\ ManifestFile.FileId fl = fId /\ file_incomplete fl.
Proof.
  revert acc. induction files as [|fl files IH]; intros acc; cbn [collectFileIds].
  - split; [auto|]. intros [H|(fl & Hfl & _)]; [exact H|inversion Hfl].
  - rewrite IH. destruct (fileMissingDetails fl) eqn:Hmiss.
    + apply fileMissingDetails_spec in Hmiss. split.
      * intros [H|(fl' & Hfl' & Hrest)].
        -- apply elem_of_union in H as [H|H]; [|auto].
           apply elem_of_singleton in H as ->. right. exists fl.
           split; [apply list_elem_of_here|auto].
        -- right. exists fl'. split; [apply list_elem_of_further, Hfl'|exact Hrest].
      * intros [H|(fl' & Hfl' & Hid & Hinc)]; [left; set_solver|].
        apply elem_of_cons in Hfl' as [->|Hfl']; [left; set_solver|].
        right. exists fl'. auto.
    + split.
      * intros [H|(fl' & Hfl' & Hrest)]; [auto|].
        right. exists fl'. split; [apply list_elem_of_further, Hfl'|exact Hrest].
      * intros [H|(fl' & Hfl' & Hid & Hinc)]; [auto|].
        apply elem_of_cons in Hfl' as [->|Hfl'].
        -- apply fileMissingDetails_spec in Hinc. congruence.
        -- right. exists fl'. auto.
Qed.

Lemma elem_of_collectProjectIds (dirs : list ManifestDir.t) (acc : gset string)
    (pId : string) :
  pId ∈ collectProjectIds dirs acc
  <-> pId ∈ acc
      \/ exists d, d ∈ dirs /\ ManifestDir.ProjId d = pId /\ dir_incomplete d.
Proof.
  revert acc. induction dirs as [|d dirs IH]; intros acc; cbn [collectProjectIds].
  - split; [auto|]. intros [H|(d & Hd & _)]; [exact H|inversion Hd].
  - rewrite IH. destruct (dirMissingTimes d) eqn:Hmiss.
    + apply dirMissingTimes_spec in Hmiss. split.
      * intros [H|(d' & Hd' & Hrest)].
        -- apply elem_of_union in H as [H|H]; [|auto].
           apply elem_of_singleton in H as ->. right. exists d.
           split; [apply list_elem_of_here|auto].
        -- right. exists d'. split; [apply list_elem_of_further, Hd'|exact Hrest].
      * intros [H|(d' & Hd' & Hid & Hinc)]; [left; set_solver|].
        apply elem_of_cons in Hd' as [->|Hd']; [left; set_solver|].
        right. exists d'. auto.
    + split.
      * intros [H|(d' & Hd' & Hrest)]; [auto|].
        right. exists d'. split; [apply list_elem_of_further, Hd'|exact Hrest].
      * intros [H|(d' & Hd' & Hid & Hinc)]; [auto|].
        apply elem_of_cons in Hd' as [->|Hd'].
        -- apply dirMissingTimes_spec in Hinc. congruence.
        -- right. exists d'. auto.
Qed.

Section FillInFacts.

Variable DxDescribeBulkObjects :
  list string -> error + gmap string DxDescribe.t.
Variable DxDescribeProject : string -> error + DxDescribePrj.t.
Variable range_fileIds : gset string -> list string.
Variable range_projectIds : gset string -> list string.

(** The projects are described in the order of the list, up to the first
    failure, and a description is stored under the id it carries. *)
Lemma describeProjects_spec (pIds : list string) :
  forall (acc : gmap string DxDescribePrj.t) calls r,
  describeProjects DxDescribeProject pIds acc = (calls, r) ->
  (exists n, calls = map CallDescribeProject (take n pIds))
  /\ match r with
     | inl _ => True
     | inr projDescs =>
         calls = map CallDescribeProject pIds
         /\ forall k pDesc, projDescs !! k = Some pDesc ->
              acc !! k = Some pDesc
              \/ exists pId, pId ∈ pIds /\ DxDescribeProject pId = inr pDesc
                   /\ DxDescribePrj.Id pDesc = k
     end.
Proof.
  induction pIds as [|pId pIds IH]; intros acc calls r; cbn [describeProjects].
  - intros [= <- <-]. split; [exists 0; reflexivity|]. split; [reflexivity|auto].
  - destruct (DxDescribeProject pId) as [err|pDesc] eqn:Hd.
    + intros [= <- <-]. split; [exists 1; reflexivity|exact I].
    + destruct (describeProjects _ pIds _) as [calls' r'] eqn:Hrec.
      intros [= <- <-]. destruct (IH _ _ _ Hrec) as [[n Hn] Hr]. split.
      * exists (S n). cbn. rewrite Hn. reflexivity.
      * destruct r' as [err|projDescs]; [exact I|]. destruct Hr as [-> Hr].
        split; [reflexivity|]. intros k pDesc' Hk.
        destruct (Hr k pDesc' Hk) as [Hacc|(pId' & Hin & Hd' & Hid)].
        -- destruct (decide (DxDescribePrj.Id pDesc = k)) as [<-|Hne].
           ++ rewrite lookup_insert_eq in Hacc. injection Hacc as <-.
              right. exists pId. split; [apply list_elem_of_here|auto].
           ++ rewrite lookup_insert_ne in Hacc by exact Hne. left. exact Hacc.
        -- right. exists pId'. split; [apply list_elem_of_further, Hin|auto].
Qed.


Lemma fillFile_None (dataObjs : gmap string DxDescribe.t) (fl : ManifestFile.t) :
  dataObjs !! ManifestFile.FileId fl = None -> fillFile dataObjs fl = fl.
Proof. intros H. unfold fillFile. rewrite H. reflexivity. Qed.

Lemma fillDir_None (projDescs : gmap string DxDescribePrj.t) (d : ManifestDir.t) :
  projDescs !! ManifestDir.ProjId d = None -> fillDir projDescs d = d.
Proof. intros H. unfold fillDir. rewrite H. reflexivity. Qed.

(** What Go guarantees of the two iterations over a map: every key once. *)
Hypothesis range_fileIds_perm : forall s : gset string,
  range_fileIds s ≡ₚ elements s.
Hypothesis range_projectIds_perm : forall s : gset string,
  range_projectIds s ≡ₚ elements s.

(** What the specification says of the remote client (its section 4.A): a
    bulk describe returns a map from requested file ids to records, some of
    which may be missing, and the description of a project is that of the
    project asked for. *)
Hypothesis DxDescribeBulkObjects_requested :
  forall fileIds dataObjs fId,
    DxDescribeBulkObjects fileIds = inr dataObjs ->
    is_Some (dataObjs !! fId) -> fId ∈ fileIds.
Hypothesis DxDescribeProject_Id :
  forall pId pDesc,
    DxDescribeProject pId = inr pDesc -> DxDescribePrj.Id pDesc = pId.


End FillInFacts.


(** ** The text of a document *)

Section JsonText.

Import encoding_json.

(** ** Bytes and bits *)

Lemma byte_val_lt (c : ascii) : (byte_val c < 256)%N.
Proof. apply N_ascii_bounded. Qed.

Lemma byte_of_val (c : ascii) : byte_of (byte_val c) = c.
Proof.
  unfold byte_of, byte_val. rewrite N.mod_small by apply N_ascii_bounded.
  apply ascii_N_embedding.
Qed.

Lemma byte_val_of (n : N) : (n < 256)%N -> byte_val (byte_of n) = n.
Proof.
  intros H. unfold byte_of, byte_val. rewrite N.mod_small by exact H.
  apply N_ascii_embedding, H.
Qed.

Lemma byte_val_inj (c c' : ascii) : byte_val c = byte_val c' -> c = c'.
Proof. intros H. rewrite <- (byte_of_val c), H. apply byte_of_val. Qed.

Lemma byte_of_eq (n : N) (c : ascii) : n = byte_val c -> byte_of n = c.
Proof. intros ->. apply byte_of_val. Qed.

(** [a << k | b] is [a * 2^k + b] when [b] has no bit from [k] on. *)
Lemma land_shiftl_low (a b k : N) :
  (b < 2 ^ k)%N -> N.land (N.shiftl a k) b = 0%N.
Proof.
  intros Hb. apply N.bits_inj. intros n. rewrite N.land_spec, N.bits_0.
  destruct (N.lt_ge_cases n k) as [Hlt|Hge].
  - rewrite N.shiftl_spec_low by exact Hlt. reflexivity.
  - destruct (N.eq_dec b 0%N) as [->|Hne].
    + rewrite N.bits_0. apply andb_false_r.
    + rewrite (N.bits_above_log2 b n); [apply andb_false_r|].
      eapply N.lt_le_trans; [|exact Hge].
      apply N.log2_lt_pow2; [lia|exact Hb].
Qed.

Lemma lor_shiftl_add (a b k : N) :
  (b < 2 ^ k)%N -> N.lor (N.shiftl a k) b = (a * 2 ^ k + b)%N.
Proof.
  intros Hb. pose proof (land_shiftl_low a b k Hb) as H0.
  rewrite <- N.lxor_lor by exact H0.
  rewrite <- N.add_nocarry_lxor by exact H0.
  rewrite N.shiftl_mul_pow2. reflexivity.
Qed.

Lemma lor_pow2_add (a k b : N) :
  (b < 2 ^ k)%N -> N.lor (a * 2 ^ k) b = (a * 2 ^ k + b)%N.
Proof.
  intros H. rewrite <- (lor_shiftl_add a b k H), N.shiftl_mul_pow2. reflexivity.
Qed.

Lemma land_63 (a : N) : N.land a 63 = (a mod 64)%N.
Proof. apply (N.land_ones a 6). Qed.
Lemma land_31 (a : N) : N.land a 31 = (a mod 32)%N.
Proof. apply (N.land_ones a 5). Qed.
Lemma land_15 (a : N) : N.land a 15 = (a mod 16)%N.
Proof. apply (N.land_ones a 4). Qed.
Lemma land_7 (a : N) : N.land a 7 = (a mod 8)%N.
Proof. apply (N.land_ones a 3). Qed.

Ltac to_arith :=
  rewrite ?land_63, ?land_31, ?land_15, ?land_7, ?N.shiftr_div_pow2,
    ?N.shiftl_mul_pow2;
  change (2 ^ 4)%N with 16%N; change (2 ^ 6)%N with 64%N;
  change (2 ^ 12)%N with 4096%N; change (2 ^ 18)%N with 262144%N.

Ltac divmod := zify; Z.to_euclidean_division_equations; lia.

(** ** DecodeRuneInString and EncodeRune *)

Lemma first_Lead (b : N) (sz : nat) (lo hi : N) :
  utf8.first b = utf8.Lead sz lo hi ->
  (128 <= lo)%N /\ (hi <= 191)%N
  /\ ((sz = 2%nat /\ 194 <= b <= 223 /\ lo = 128 /\ hi = 191)%N
      \/ (sz = 3%nat /\ b = 224 /\ lo = 160 /\ hi = 191)%N
      \/ (sz = 3%nat /\ (225 <= b <= 236 \/ 238 <= b <= 239) /\ lo = 128 /\ hi = 191)%N
      \/ (sz = 3%nat /\ b = 237 /\ lo = 128 /\ hi = 159)%N
      \/ (sz = 4%nat /\ b = 240 /\ lo = 144 /\ hi = 191)%N
      \/ (sz = 4%nat /\ 241 <= b <= 243 /\ lo = 128 /\ hi = 191)%N
      \/ (sz = 4%nat /\ b = 244 /\ lo = 128 /\ hi = 143)%N).
Proof.
  unfold utf8.first.
  repeat match goal with
         | |- context [N.ltb ?x ?y] => destruct (N.ltb_spec x y)
         | |- context [N.eqb ?x ?y] => destruct (N.eqb_spec x y)
         end; intros [= <- <- <-] || discriminate; (split; [lia|split; [lia|]]).
  all: try (left; repeat split; lia).
  all: try (right; left; repeat split; lia).
  all: try (right; right; left; repeat split; lia).
  all: try (right; right; right; left; repeat split; lia).
  all: try (right; right; right; right; left; repeat split; lia).
  all: try (right; right; right; right; right; left; repeat split; lia).
  all: try (right; right; right; right; right; right; repeat split; lia).
Qed.

Lemma first_ASCII (b : N) : utf8.first b = utf8.LeadASCII <-> (b < 128)%N.
Proof.
  unfold utf8.first.
  repeat match goal with
         | |- context [N.ltb ?x ?y] => destruct (N.ltb_spec x y)
         | |- context [N.eqb ?x ?y] => destruct (N.eqb_spec x y)
         end; split; intros; try discriminate; try lia; reflexivity.
Qed.

Lemma lor_hi (c b k m : N) :
  m = (2 ^ k)%N -> (c mod m = 0)%N -> (b < m)%N -> N.lor c b = (c + b)%N.
Proof.
  intros -> Hc Hb.
  assert (c = c / 2 ^ k * 2 ^ k)%N as ->.
  { rewrite N.mul_comm. apply N.Div0.div_exact. exact Hc. }
  rewrite lor_pow2_add by exact Hb. reflexivity.
Qed.

Ltac lor_to_add k m :=
  rewrite ?(fun c b => lor_hi c b k m eq_refl) by divmod.

Lemma EncodeRune_2 (b0 b1 : N) :
  (194 <= b0 <= 223)%N -> (128 <= b1 <= 191)%N ->
  utf8.EncodeRune (N.lor (N.shiftl (N.land b0 31) 6) (N.land b1 63))
  = String (byte_of b0) (String (byte_of b1) "").
Proof.
  intros H0 H1. to_arith. rewrite (lor_hi _ _ 6 64 eq_refl) by divmod.
  set (r := (b0 mod 32 * 64 + b1 mod 64)%N).
  assert (128 <= r <= 2047)%N as Hr by (subst r; divmod).
  unfold utf8.EncodeRune.
  destruct (N.leb_spec r 127); [lia|]. destruct (N.leb_spec r 2047); [|lia].
  to_arith.
  rewrite (lor_hi 192 _ 6 64 eq_refl) by (subst r; divmod).
  rewrite (lor_hi 128 _ 7 128 eq_refl) by divmod.
  f_equal; [|f_equal]; f_equal; subst r; divmod.
Qed.

Lemma EncodeRune_3 (b0 b1 b2 lo hi : N) :
  (b0 = 224 /\ lo = 160 /\ hi = 191
   \/ (225 <= b0 <= 236 \/ 238 <= b0 <= 239) /\ lo = 128 /\ hi = 191
   \/ b0 = 237 /\ lo = 128 /\ hi = 159)%N ->
  (lo <= b1 <= hi)%N -> (128 <= b2 <= 191)%N ->
  utf8.EncodeRune
    (N.lor (N.lor (N.shiftl (N.land b0 15) 12) (N.shiftl (N.land b1 63) 6))
       (N.land b2 63))
  = String (byte_of b0) (String (byte_of b1) (String (byte_of b2) "")).
Proof.
  intros H0 H1 H2. to_arith.
  rewrite (lor_hi (_ * 4096) _ 12 4096 eq_refl) by divmod.
  rewrite (lor_hi _ _ 6 64 eq_refl) by divmod.
  set (r := (b0 mod 16 * 4096 + b1 mod 64 * 64 + b2 mod 64)%N).
  assert (2048 <= r <= 65535 /\ ~ (55296 <= r <= 57343))%N as Hr by (subst r; divmod).
  unfold utf8.EncodeRune, utf8.MaxRune.
  destruct (N.leb_spec r 127); [lia|]. destruct (N.leb_spec r 2047); [lia|].
  destruct (N.ltb_spec 1114111 r); [lia|].
  destruct (N.leb_spec 55296 r), (N.leb_spec r 57343); try lia;
    cbn [andb orb]; (destruct (N.leb_spec r 65535); [|lia]);
    unfold utf8.encode3; to_arith;
    rewrite (lor_hi 224 _ 5 32 eq_refl) by (subst r; divmod);
    rewrite !(lor_hi 128 _ 7 128 eq_refl) by divmod;
    (f_equal; [|f_equal; [|f_equal]]); f_equal; subst r; divmod.
Qed.

Lemma EncodeRune_4 (b0 b1 b2 b3 lo hi : N) :
  (b0 = 240 /\ lo = 144 /\ hi = 191
   \/ 241 <= b0 <= 243 /\ lo = 128 /\ hi = 191
   \/ b0 = 244 /\ lo = 128 /\ hi = 143)%N ->
  (lo <= b1 <= hi)%N -> (128 <= b2 <= 191)%N -> (128 <= b3 <= 191)%N ->
  utf8.EncodeRune
    (N.lor (N.lor (N.lor (N.shiftl (N.land b0 7) 18) (N.shiftl (N.land b1 63) 12))
              (N.shiftl (N.land b2 63) 6))
       (N.land b3 63))
  = String (byte_of b0) (String (byte_of b1) (String (byte_of b2)
      (String (byte_of b3) ""))).
Proof.
  intros H0 H1 H2 H3. to_arith.
  rewrite (lor_hi (_ * 262144) _ 18 262144 eq_refl) by divmod.
  rewrite (lor_hi _ (_ * 64) 12 4096 eq_refl) by divmod.
  rewrite (lor_hi _ _ 6 64 eq_refl) by divmod.
  set (r := (b0 mod 8 * 262144 + b1 mod 64 * 4096 + b2 mod 64 * 64 + b3 mod 64)%N).
  assert (65536 <= r <= 1114111)%N as Hr by (subst r; divmod).
  unfold utf8.EncodeRune, utf8.MaxRune.
  destruct (N.leb_spec r 127); [lia|]. destruct (N.leb_spec r 2047); [lia|].
  destruct (N.ltb_spec 1114111 r); [lia|].
  destruct (N.leb_spec 55296 r), (N.leb_spec r 57343); try lia;
    cbn [andb orb]; (destruct (N.leb_spec r 65535); [lia|]);
    to_arith;
    rewrite (lor_hi 240 _ 4 16 eq_refl) by (subst r; divmod);
    rewrite !(lor_hi 128 _ 7 128 eq_refl) by divmod;
    (f_equal; [|f_equal; [|f_equal; [|f_equal]]]); f_equal; subst r; divmod.
Qed.

Lemma DecodeRune_valid (c0 : ascii) (s1 : string) (r : N) (size : nat) :
  utf8.DecodeRuneInString (String c0 s1) = (r, size) ->
  (128 <= byte_val c0)%N ->
  ~ (r = utf8.RuneError /\ size = 1) ->
  (exists c1 t, size = 2 /\ s1 = String c1 t
     /\ encoding_of r (String c0 (String c1 "")))
  \/ (exists c1 c2 t, size = 3 /\ s1 = String c1 (String c2 t)
        /\ encoding_of r (String c0 (String c1 (String c2 ""))))
  \/ (exists c1 c2 c3 t, size = 4 /\ s1 = String c1 (String c2 (String c3 t))
        /\ encoding_of r (String c0 (String c1 (String c2 (String c3 ""))))).
Proof.
  intros Hdec H0 Hvalid.
  assert (forall P : Prop, (utf8.RuneError, 1) = (r, size) -> P) as Hbad.
  { intros P [= <- <-]. exfalso. apply Hvalid. split; reflexivity. }
  unfold utf8.DecodeRuneInString in Hdec.
  destruct (utf8.first (byte_val c0)) as [| |sz lo hi] eqn:Hf.
  { apply first_ASCII in Hf. lia. }
  { apply Hbad, Hdec. }
  destruct (first_Lead _ _ _ _ Hf) as (Hlo & Hhi & Hcases).
  destruct s1 as [|c1 s2]; [apply Hbad, Hdec|].
  destruct (N.ltb_spec (byte_val c1) lo) as [|H1lo]; [apply Hbad, Hdec|].
  destruct (N.ltb_spec hi (byte_val c1)) as [|H1hi]; [apply Hbad, Hdec|].
  cbn [orb] in Hdec.
  assert (forall c, (128 <= byte_val c <= 191)%N -> utf8.continuation (byte_val c) = true)
    as Hcont.
  { intros c Hc. unfold utf8.continuation. apply andb_true_intro.
    split; apply N.leb_le; lia. }
  assert (forall c, utf8.continuation (byte_val c) = true -> (128 <= byte_val c <= 191)%N)
    as Hcont'.
  { intros c Hc. unfold utf8.continuation in Hc. apply andb_prop in Hc as [Ha Hb].
    apply N.leb_le in Ha, Hb. lia. }
  destruct (Nat.leb_spec sz 2) as [Hsz2|Hsz2].
  { (* two bytes *)
    injection Hdec as <- <-. left. exists c1, s2.
    split; [reflexivity|]. split; [reflexivity|].
    assert (194 <= byte_val c0 <= 223 /\ 128 <= byte_val c1 <= 191)%N as [Hb0 Hb1].
    { destruct Hcases as [H|[H|[H|[H|[H|[H|H]]]]]]; lia. }
    split; [|split].
    - rewrite (EncodeRune_2 _ _ Hb0 Hb1), !byte_of_val. reflexivity.
    - intros t. change (String c0 (String c1 "") +:+ t) with (String c0 (String c1 t)).
      cbn [String.length]. unfold utf8.DecodeRuneInString.
      rewrite Hf. destruct (N.ltb_spec (byte_val c1) lo); [lia|].
      destruct (N.ltb_spec hi (byte_val c1)); [lia|]. cbn [orb].
      destruct (Nat.leb_spec sz 2); [reflexivity|lia].
    - cbn. repeat constructor; lia. }
  destruct s2 as [|c2 s3]; [apply Hbad, Hdec|].
  destruct (utf8.continuation (byte_val c2)) eqn:H2; [|apply Hbad, Hdec].
  cbn [negb] in Hdec. pose proof (Hcont' _ H2) as Hb2.
  destruct (Nat.leb_spec sz 3) as [Hsz3|Hsz3].
  { (* three bytes *)
    injection Hdec as <- <-. right. left. exists c1, c2, s3.
    split; [reflexivity|]. split; [reflexivity|].
    assert (byte_val c0 = 224 /\ lo = 160 /\ hi = 191
            \/ (225 <= byte_val c0 <= 236 \/ 238 <= byte_val c0 <= 239)
               /\ lo = 128 /\ hi = 191
            \/ byte_val c0 = 237 /\ lo = 128 /\ hi = 159)%N as Hb0.
    { destruct Hcases as [H|[H|[H|[H|[H|[H|H]]]]]]; lia. }
    split; [|split].
    - rewrite (EncodeRune_3 _ _ _ lo hi Hb0) by lia. rewrite !byte_of_val. reflexivity.
    - intros t.
      change (String c0 (String c1 (String c2 "")) +:+ t)
        with (String c0 (String c1 (String c2 t))).
      cbn [String.length]. unfold utf8.DecodeRuneInString.
      rewrite Hf. destruct (N.ltb_spec (byte_val c1) lo); [lia|].
      destruct (N.ltb_spec hi (byte_val c1)); [lia|]. cbn [orb].
      destruct (Nat.leb_spec sz 2); [lia|]. rewrite H2. cbn [negb].
      destruct (Nat.leb_spec sz 3); [reflexivity|lia].
    - cbn. repeat constructor; lia. }
  destruct s3 as [|c3 s4]; [apply Hbad, Hdec|].
  destruct (utf8.continuation (byte_val c3)) eqn:H3; [|apply Hbad, Hdec].
  cbn [negb] in Hdec. pose proof (Hcont' _ H3) as Hb3.
  injection Hdec as <- <-. right. right. exists c1, c2, c3, s4.
  split; [reflexivity|]. split; [reflexivity|].
  assert (byte_val c0 = 240 /\ lo = 144 /\ hi = 191
          \/ 241 <= byte_val c0 <= 243 /\ lo = 128 /\ hi = 191
          \/ byte_val c0 = 244 /\ lo = 128 /\ hi = 143)%N as Hb0.
  { destruct Hcases as [H|[H|[H|[H|[H|[H|H]]]]]]; lia. }
  split; [|split].
  - rewrite (EncodeRune_4 _ _ _ _ lo hi Hb0) by lia. rewrite !byte_of_val. reflexivity.
  - intros t.
    change (String c0 (String c1 (String c2 (String c3 ""))) +:+ t)
      with (String c0 (String c1 (String c2 (String c3 t)))).
    cbn [String.length]. unfold utf8.DecodeRuneInString.
    rewrite Hf. destruct (N.ltb_spec (byte_val c1) lo); [lia|].
    destruct (N.ltb_spec hi (byte_val c1)); [lia|]. cbn [orb].
    destruct (Nat.leb_spec sz 2); [lia|]. rewrite H2. cbn [negb].
    destruct (Nat.leb_spec sz 3); [lia|]. rewrite H3. reflexivity.
  - cbn. repeat constructor; lia.
Qed.

(** Whatever it reads, [DecodeRuneInString] reports one to four bytes. *)
Lemma DecodeRune_size (c0 : ascii) (s1 : string) :
  1 <= snd (utf8.DecodeRuneInString (String c0 s1)) <= 4.
Proof.
  unfold utf8.DecodeRuneInString.
  repeat match goal with
         | |- context [match ?x with _ => _ end] => destruct x
         end; cbn; lia.
Qed.

(** ** String literals *)

Lemma app_String (c : ascii) (s t : string) : String c s +:+ t = String c (s +:+ t).
Proof. reflexivity. Qed.

Lemma app_empty_l (t : string) : "" +:+ t = t.
Proof. reflexivity. Qed.

Lemma app_assoc_s (s t u : string) : (s +:+ t) +:+ u = s +:+ (t +:+ u).
Proof. induction s as [|c s IH]; [reflexivity|]. rewrite !app_String, IH. reflexivity. Qed.

Lemma app_empty_r_s (s : string) : s +:+ "" = s.
Proof. induction s as [|c s IH]; [reflexivity|]. rewrite app_String, IH. reflexivity. Qed.

Lemma eqb_byte_ne (c : ascii) (k : ascii) :
  byte_val c <> byte_val k -> Ascii.eqb c k = false.
Proof. intros H. apply Ascii.eqb_neq. intros ->. apply H. reflexivity. Qed.

Lemma scanString_plain (c : ascii) (t : string) :
  (32 <= byte_val c)%N -> c <> "034"%char -> c <> "\"%char ->
  scanString (String c t) = prepend (String c "") (scanString t).
Proof.
  intros H32 Hq Hb. cbn [scanString].
  apply Ascii.eqb_neq in Hq, Hb. rewrite Hq, Hb.
  destruct (N.ltb_spec (byte_val c) 32); [lia|].
  destruct (scanString t) as [[lit after]|]; reflexivity.
Qed.

Lemma scanString_high (c : ascii) (t : string) :
  (128 <= byte_val c)%N ->
  scanString (String c t) = prepend (String c "") (scanString t).
Proof.
  intros H. apply scanString_plain; [lia| |]; intros ->; apply H; reflexivity.
Qed.

Lemma prepend_prepend (a b : string) (r : option (string * string)) :
  prepend a (prepend b r) = prepend (a +:+ b) r.
Proof. destruct r as [[lit after]|]; [|reflexivity]. cbn. rewrite app_assoc_s. reflexivity. Qed.

Lemma scanString_highs (pre t : string) :
  Forall (fun c => (128 <= byte_val c)%N) (list_ascii_of_string pre) ->
  scanString (pre +:+ t) = prepend pre (scanString t).
Proof.
  induction pre as [|c pre IH]; intros H.
  - rewrite app_empty_l. destruct (scanString t) as [[lit after]|]; reflexivity.
  - cbn [list_ascii_of_string] in H. apply Forall_cons in H as [Hc H].
    rewrite app_String, scanString_high by exact Hc.
    rewrite (IH H), prepend_prepend. reflexivity.
Qed.

Lemma hexValue_hex (n : N) : (n < 16)%N -> hexValue (hex n) = Some n.
Proof.
  intros H. unfold hexValue, hex, byte_val.
  destruct (N.ltb_spec n 10).
  - rewrite N_ascii_embedding by lia.
    destruct (N.leb_spec 48 (48 + n)); [|lia].
    destruct (N.leb_spec (48 + n) 57); [|lia].
    cbn [andb]. f_equal. lia.
  - rewrite N_ascii_embedding by lia.
    destruct (N.leb_spec 48 (87 + n)); [|lia].
    destruct (N.leb_spec (87 + n) 57); [lia|].
    destruct (N.leb_spec 97 (87 + n)); [|lia].
    destruct (N.leb_spec (87 + n) 102); [|lia].
    cbn [andb]. f_equal. lia.
Qed.

Lemma isHex_hex (n : N) : (n < 16)%N -> isHex (hex n) = true.
Proof. intros H. unfold isHex. rewrite hexValue_hex by exact H. reflexivity. Qed.

(** What the encoder writes for a byte that is not safe, the scanner takes
    as part of a literal, and the decoder reads as that byte. *)
Ltac scan_const t :=
  cbn; rewrite ?app_String, ?app_empty_l; cbn;
  destruct (scanString t) as [[? ?]|]; reflexivity.

Lemma scanString_escapeByte (b : ascii) (t : string) :
  (byte_val b < 128)%N ->
  scanString (escapeByte b +:+ t) = prepend (escapeByte b) (scanString t).
Proof.
  intros Hb. unfold escapeByte.
  destruct (Ascii.eqb_spec b "\") as [->|Hbs]; [scan_const t|].
  destruct (Ascii.eqb_spec b "034") as [->|Hq]; [scan_const t|].
  cbn [orb].
  destruct (Ascii.eqb_spec b "010") as [->|Hn]; [scan_const t|].
  destruct (Ascii.eqb_spec b "013") as [->|Hr]; [scan_const t|].
  destruct (Ascii.eqb_spec b "009") as [->|Ht]; [scan_const t|].
  change ("\u00" +:+ ?x) with (String "\" (String "u" (String "0" (String "0" x)))).
  rewrite !app_String, app_empty_l.
  assert (isHex (hex (N.shiftr (byte_val b) 4)) = true) as H1.
  { apply isHex_hex. rewrite N.shiftr_div_pow2. change (2 ^ 4)%N with 16%N.
    pose proof (byte_val_lt b). divmod. }
  assert (isHex (hex (N.land (byte_val b) 15)) = true) as H2.
  { apply isHex_hex. rewrite land_15. apply N.mod_upper_bound. discriminate. }
  generalize dependent (hex (N.shiftr (byte_val b) 4)).
  generalize dependent (hex (N.land (byte_val b) 15)). intros h2 H2 h1 H1.
  cbn. rewrite H1, H2. cbn.
  destruct (scanString t) as [[? ?]|]; reflexivity.
Qed.

Lemma fmap_append_empty (r : option string) : append "" <$> r = r.
Proof. destruct r; reflexivity. Qed.

Lemma fmap_String_append (c : ascii) (r : option string) :
  String c <$> r = append (String c "") <$> r.
Proof. destruct r; reflexivity. Qed.

Lemma htmlSafe_plain (b : ascii) :
  htmlSafe b = true ->
  (32 <= byte_val b)%N /\ b <> "034"%char /\ b <> "\"%char.
Proof.
  unfold htmlSafe. intros H. repeat (apply andb_prop in H as [H ?]).
  apply N.leb_le in H. split; [exact H|].
  split; apply Ascii.eqb_neq, negb_true_iff; assumption.
Qed.

Lemma unquote_plain (c : ascii) (t : string) :
  (32 <= byte_val c < 128)%N -> c <> "034"%char -> c <> "\"%char ->
  unquote_loop (String c t) = append (String c "") <$> unquote_loop t.
Proof.
  intros H Hq Hb. cbn [unquote_loop]. apply Ascii.eqb_neq in Hq, Hb. rewrite Hq, Hb.
  destruct (N.ltb_spec (byte_val c) 32); [lia|]. cbn [orb].
  unfold utf8.RuneSelf. destruct (N.ltb_spec (byte_val c) 128); [|lia].
  apply fmap_String_append.
Qed.

Lemma EncodeRune_ASCII (b : ascii) :
  (byte_val b < 128)%N -> utf8.EncodeRune (byte_val b) = String b "".
Proof.
  intros H. unfold utf8.EncodeRune. destruct (N.leb_spec (byte_val b) 127); [|lia].
  rewrite byte_of_val. reflexivity.
Qed.

Lemma unquote_escapeByte (b : ascii) (t : string) :
  (byte_val b < 128)%N ->
  unquote_loop (escapeByte b +:+ t) = append (String b "") <$> unquote_loop t.
Proof.
  intros Hb. unfold escapeByte.
  destruct (Ascii.eqb_spec b "\") as [->|Hbs];
    [cbn; rewrite ?app_String, ?app_empty_l; cbn; apply fmap_String_append|].
  destruct (Ascii.eqb_spec b "034") as [->|Hq];
    [cbn; rewrite ?app_String, ?app_empty_l; cbn; apply fmap_String_append|].
  cbn [orb].
  destruct (Ascii.eqb_spec b "010") as [->|Hn];
    [cbn; rewrite ?app_String, ?app_empty_l; cbn; apply fmap_String_append|].
  destruct (Ascii.eqb_spec b "013") as [->|Hr];
    [cbn; rewrite ?app_String, ?app_empty_l; cbn; apply fmap_String_append|].
  destruct (Ascii.eqb_spec b "009") as [->|Ht];
    [cbn; rewrite ?app_String, ?app_empty_l; cbn; apply fmap_String_append|].
  change ("\u00" +:+ ?x) with (String "\" (String "u" (String "0" (String "0" x)))).
  rewrite !app_String, app_empty_l.
  assert (hexValue (hex (N.shiftr (byte_val b) 4)) = Some (N.shiftr (byte_val b) 4))
    as H1.
  { apply hexValue_hex. rewrite N.shiftr_div_pow2. change (2 ^ 4)%N with 16%N.
    pose proof (byte_val_lt b). divmod. }
  assert (hexValue (hex (N.land (byte_val b) 15)) = Some (N.land (byte_val b) 15))
    as H2.
  { apply hexValue_hex. rewrite land_15. apply N.mod_upper_bound. discriminate. }
  assert ((((0 * 16 + 0) * 16 + N.shiftr (byte_val b) 4) * 16
           + N.land (byte_val b) 15)%N = byte_val b) as Hval.
  { rewrite N.shiftr_div_pow2, land_15. change (2 ^ 4)%N with 16%N. divmod. }
  generalize dependent (hex (N.shiftr (byte_val b) 4)).
  generalize dependent (hex (N.land (byte_val b) 15)). intros h2 H2 h1 H1.
  cbn [unquote_loop]. change (Ascii.eqb "\" "\") with true. cbv iota.
  change (Ascii.eqb "u" "034" || Ascii.eqb "u" "\" || Ascii.eqb "u" "/"
          || Ascii.eqb "u" "'") with false. cbv iota.
  change (Ascii.eqb "u" "b") with false. change (Ascii.eqb "u" "f") with false.
  change (Ascii.eqb "u" "n") with false. change (Ascii.eqb "u" "r") with false.
  change (Ascii.eqb "u" "t") with false. change (Ascii.eqb "u" "u") with true.
  cbv iota. unfold getu4.
  change (Ascii.eqb "\" "\" && Ascii.eqb "u" "u") with true. cbv iota.
  change (hexValue "0") with (Some 0%N). rewrite H1, H2. cbn [mbind option_bind].
  rewrite Hval.
  assert (utf16.IsSurrogate (byte_val b) = false) as ->.
  { unfold utf16.IsSurrogate. destruct (N.leb_spec 55296 (byte_val b)); [lia|reflexivity]. }
  rewrite EncodeRune_ASCII by exact Hb. reflexivity.
Qed.

Lemma high_not_special (c : ascii) :
  (128 <= byte_val c)%N ->
  Ascii.eqb c "\" = false /\ Ascii.eqb c "034" = false
  /\ (byte_val c <? 32)%N = false /\ (byte_val c <? utf8.RuneSelf)%N = false.
Proof.
  intros H. repeat split.
  - apply Ascii.eqb_neq. intros ->. apply H. reflexivity.
  - apply Ascii.eqb_neq. intros ->. apply H. reflexivity.
  - apply N.ltb_ge. lia.
  - apply N.ltb_ge. unfold utf8.RuneSelf. lia.
Qed.

(** The decoder reads the encoding of a rune as it is. *)
Lemma unquote_encoding (r : N) (pre t : string) :
  encoding_of r pre -> 2 <= String.length pre <= 4 ->
  unquote_loop (pre +:+ t) = append pre <$> unquote_loop t.
Proof.
  intros (Henc & Hdec & Hhigh) Hlen. specialize (Hdec t).
  destruct pre as [|c0 [|c1 [|c2 [|c3 [|c4 pre]]]]]; cbn [String.length] in *; try lia.
  all: cbn [list_ascii_of_string] in Hhigh; apply Forall_cons in Hhigh as [H0 _].
  all: destruct (high_not_special c0 H0) as (E1 & E2 & E3 & E4).
  all: rewrite ?app_String, ?app_empty_l in *.
  all: cbn [unquote_loop]; rewrite E1, E2, E3, E4; cbn [orb]; rewrite Hdec, Henc.
  all: reflexivity.
Qed.

Lemma scanString_const (out t : string) :
  out = String "\" "ufffd" \/ out = String "\" "u2028" \/ out = String "\" "u2029" ->
  scanString (out +:+ t) = prepend out (scanString t).
Proof.
  intros [->|[->| ->]]; cbn; rewrite ?app_String, ?app_empty_l; cbn;
    destruct (scanString t) as [[? ?]|]; reflexivity.
Qed.

Lemma unquote_u2028 (t : string) :
  unquote_loop (String "\" "u2028" +:+ t) = append (utf8.EncodeRune 8232) <$> unquote_loop t.
Proof. rewrite ?app_String, ?app_empty_l. reflexivity. Qed.

Lemma unquote_u2029 (t : string) :
  unquote_loop (String "\" "u2029" +:+ t) = append (utf8.EncodeRune 8233) <$> unquote_loop t.
Proof. rewrite ?app_String, ?app_empty_l. reflexivity. Qed.

Lemma substring_0_0 (s : string) : substring 0 0 s = "".
Proof. destruct s; reflexivity. Qed.

Lemma rune_out_spec (r : N) (pre : string) :
  encoding_of r pre -> 2 <= String.length pre <= 4 ->
  (forall t, scanString (rune_out r pre +:+ t) = prepend (rune_out r pre) (scanString t))
  /\ (forall t, unquote_loop (rune_out r pre +:+ t) = append pre <$> unquote_loop t).
Proof.
  intros Henc Hlen. unfold rune_out.
  destruct (N.eqb_spec r 8232) as [->|].
  { split; intros t.
    - apply scanString_const. right. left. reflexivity.
    - rewrite <- (proj1 Henc). apply unquote_u2028. }
  destruct (N.eqb_spec r 8233) as [->|].
  { split; intros t.
    - apply scanString_const. right. right. reflexivity.
    - rewrite <- (proj1 Henc). apply unquote_u2029. }
  split; intros t.
  - apply scanString_highs, Henc.
  - apply (unquote_encoding r); assumption.
Qed.

(** One turn of the loop of [appendString]: what it writes for the first
    rune of the text, which the scanner takes as part of a literal and, when
    the text is valid UTF-8, the decoder reads as that rune. *)
Lemma appendString_loop_step (c : ascii) (rest : string) :
  exists out s',
    appendString_loop (String c rest) = out +:+ appendString_loop s'
    /\ String.length s' <= String.length rest
    /\ (forall t, scanString (out +:+ t) = prepend out (scanString t))
    /\ (utf8.ValidString (String c rest) = true ->
        exists dec, String c rest = dec +:+ s' /\ utf8.ValidString s' = true
          /\ forall t, unquote_loop (out +:+ t) = append dec <$> unquote_loop t).
Proof.
  cbn [appendString_loop utf8.ValidString]. unfold utf8.RuneSelf.
  destruct (N.ltb_spec (byte_val c) 128) as [Hlow|Hhigh].
  - (* an ASCII byte *)
    assert (utf8.DecodeRuneInString (String c rest) = (byte_val c, 1)) as ->.
    { unfold utf8.DecodeRuneInString.
      rewrite (proj2 (first_ASCII (byte_val c)) Hlow). reflexivity. }
    assert ((byte_val c =? utf8.RuneError)%N = false) as ->.
    { apply N.eqb_neq. unfold utf8.RuneError. lia. }
    cbn [andb].
    exists (if htmlSafe c then String c "" else escapeByte c), rest.
    split; [reflexivity|]. split; [lia|]. split.
    + intros t. destruct (htmlSafe c) eqn:Hsafe.
      * apply htmlSafe_plain in Hsafe as (H32 & Hq & Hb).
        apply scanString_plain; assumption.
      * apply scanString_escapeByte, Hlow.
    + intros Hvalid. exists (String c ""). split; [reflexivity|].
      split; [exact Hvalid|]. intros t. destruct (htmlSafe c) eqn:Hsafe.
      * apply htmlSafe_plain in Hsafe as (H32 & Hq & Hb).
        apply unquote_plain; [lia|assumption..].
      * apply unquote_escapeByte, Hlow.
  - (* the first byte of a rune, or a byte that is none *)
    destruct (utf8.DecodeRuneInString (String c rest)) as [r size] eqn:Hdec.
    destruct ((r =? utf8.RuneError)%N && (size =? 1)%nat) eqn:Hbad.
    + exists (String "\" "ufffd"), rest. split; [reflexivity|]. split; [lia|].
      split; [|discriminate]. intros t. apply scanString_const. left. reflexivity.
    + assert (~ (r = utf8.RuneError /\ size = 1)) as Hvalid.
      { intros [-> ->]. discriminate. }
      destruct (DecodeRune_valid c rest r size Hdec Hhigh Hvalid)
        as [(c1 & t' & -> & -> & Henc)
           |[(c1 & c2 & t' & -> & -> & Henc)|(c1 & c2 & c3 & t' & -> & -> & Henc)]].
      all: cbv iota; cbn [substring]; rewrite substring_0_0.
      all: match goal with
           | Henc : encoding_of _ ?pre |- _ =>
               destruct (rune_out_spec r pre Henc ltac:(cbn [String.length]; lia))
                 as [Hscan Hunq];
               exists (rune_out r pre), t';
               split; [reflexivity|]; split; [cbn [String.length]; lia|];
               split; [exact Hscan|];
               intros Hv; exists pre; split; [reflexivity|]; split; [exact Hv|];
               exact Hunq
           end.
Qed.

Lemma scanString_appendString_n (n : nat) :
  forall s rest, String.length s <= n ->
  scanString (appendString_loop s +:+ String "034" rest)
  = Some (appendString_loop s, rest).
Proof.
  induction n as [|n IH]; intros s rest Hlen.
  - destruct s; [reflexivity|cbn in Hlen; lia].
  - destruct s as [|c s1]; [reflexivity|]. cbn [String.length] in Hlen.
    destruct (appendString_loop_step c s1) as (out & s' & -> & Hs' & Hscan & _).
    rewrite app_assoc_s, Hscan, IH by lia. reflexivity.
Qed.

(** The scanner finds the end of a string that the encoder wrote. *)
Lemma scanString_appendString (s rest : string) :
  scanString (appendString_loop s +:+ String "034" rest)
  = Some (appendString_loop s, rest).
Proof. apply (scanString_appendString_n (String.length s)). lia. Qed.

Lemma unquote_appendString_n (n : nat) :
  forall s, String.length s <= n -> utf8.ValidString s = true ->
  unquote_loop (appendString_loop s) = Some s.
Proof.
  induction n as [|n IH]; intros s Hlen Hvalid.
  - destruct s; [reflexivity|cbn in Hlen; lia].
  - destruct s as [|c s1]; [reflexivity|]. cbn [String.length] in Hlen.
    destruct (appendString_loop_step c s1) as (out & s' & -> & Hs' & _ & Hunq).
    destruct (Hunq Hvalid) as (dec & -> & Hvalid' & Hdec).
    rewrite Hdec, IH by (assumption || lia). reflexivity.
Qed.

(** The decoder reads a string of valid UTF-8 that the encoder wrote as the
    string it was. *)
Lemma unquote_appendString (s : string) :
  utf8.ValidString s = true -> unquote_loop (appendString_loop s) = Some s.
Proof. apply (unquote_appendString_n (String.length s)). lia. Qed.

Lemma parseString_appendString (s rest : string) :
  utf8.ValidString s = true ->
  parseString (appendString_loop s +:+ String "034" rest) = Some (s, rest).
Proof.
  intros H. unfold parseString. rewrite scanString_appendString.
  cbn [mbind option_bind]. rewrite (unquote_appendString s H). reflexivity.
Qed.

(** ** Numbers *)

Lemma scanDigits_nondigit (s : string) :
  match s with
  | EmptyString => True
  | String c _ => isDigit c = false
  end ->
  scanDigits s = ("", s).
Proof. destruct s as [|c s]; [reflexivity|]. cbn. intros ->. reflexivity. Qed.

Lemma ends_value_cases (rest : string) :
  ends_value rest ->
  rest = "" \/ exists c r, rest = String c r
    /\ isDigit c = false /\ isSpace c = false
    /\ Ascii.eqb c "." = false /\ Ascii.eqb c "e" = false /\ Ascii.eqb c "E" = false.
Proof.
  destruct rest as [|c r]; [left; reflexivity|]. intros H. right. exists c, r.
  split; [reflexivity|]. destruct H as [->|[->| ->]]; repeat split; reflexivity.
Qed.

Lemma skipSpace_ends_value (rest : string) : ends_value rest -> skipSpace rest = rest.
Proof.
  intros H. destruct (ends_value_cases rest H) as [->|(c & r & -> & _ & Hs & _)];
    [reflexivity|]. cbn. rewrite Hs. reflexivity.
Qed.

Lemma scanDigits_end (rest : string) :
  ends_value rest -> scanDigits rest = ("", rest).
Proof.
  intros H. destruct (ends_value_cases rest H) as [->|(c & r & -> & Hd & _)];
    [reflexivity|]. cbn. rewrite Hd. reflexivity.
Qed.

Lemma scanDigits_uint (d : uint) (rest : string) :
  ends_value rest ->
  scanDigits (NilEmpty.string_of_uint d +:+ rest) = (NilEmpty.string_of_uint d, rest).
Proof.
  intros H. induction d; cbn [NilEmpty.string_of_uint];
    rewrite ?app_String, ?app_empty_l; try (apply scanDigits_end, H);
    cbn [scanDigits]; rewrite IHd; reflexivity.
Qed.

Lemma nzhead_head (d : uint) :
  match nzhead d with D0 _ => False | _ => True end.
Proof. induction d; cbn; auto. Qed.

Lemma to_uint_head (p : positive) :
  match Pos.to_uint p with Nil | D0 _ => False | _ => True end.
Proof.
  pose proof (DecimalPos.Unsigned.to_of (Pos.to_uint p)) as H.
  rewrite DecimalPos.Unsigned.of_to in H. cbn in H.
  pose proof (Unsigned.to_uint_nonzero p) as Hnz.
  pose proof (nzhead_head (Pos.to_uint p)) as Hh.
  unfold unorm in H. rewrite H in Hnz |- *.
  destruct (nzhead (Pos.to_uint p)); try exact I; try contradiction.
Qed.

Lemma scanFrac_end (rest : string) :
  ends_value rest -> scanFrac rest = Some ("", rest).
Proof.
  intros H.
  destruct (ends_value_cases rest H) as [->|(c & r & -> & _ & _ & Hdot & _)];
    [reflexivity|]. cbn. rewrite Hdot. reflexivity.
Qed.

Lemma scanExp_end (rest : string) :
  ends_value rest -> scanExp rest = Some ("", rest).
Proof.
  intros H.
  destruct (ends_value_cases rest H) as [->|(c & r & -> & _ & _ & _ & He & HE)];
    [reflexivity|]. cbn. rewrite He, HE. reflexivity.
Qed.

Lemma scanInt_uint (d : uint) (rest : string) :
  match d with Nil | D0 _ => False | _ => True end ->
  ends_value rest ->
  scanInt (NilEmpty.string_of_uint d +:+ rest)
  = Some (NilEmpty.string_of_uint d, rest).
Proof.
  intros Hd Hrest.
  destruct d; try contradiction; cbn [NilEmpty.string_of_uint];
    rewrite app_String; unfold scanInt;
    match goal with
    | |- context [Ascii.eqb ?c "0"] =>
        change (Ascii.eqb c "0") with false; change (isDigit c) with true
    end; cbv iota; rewrite scanDigits_uint by exact Hrest; reflexivity.
Qed.

Lemma scanNumber_after_int (sign int s1 rest : string) :
  ends_value rest -> scanInt s1 = Some (int, rest) ->
  ('(int, s2) ← scanInt s1;
   '(frac, s3) ← scanFrac s2;
   '(exp, s4) ← scanExp s3;
   Some (sign +:+ int +:+ frac +:+ exp,
         String.eqb frac "" && String.eqb exp "", s4))
  = Some (sign +:+ int, true, rest).
Proof.
  intros Hrest ->. cbn [mbind option_bind].
  rewrite (scanFrac_end rest Hrest). cbn [mbind option_bind].
  rewrite (scanExp_end rest Hrest). cbn [mbind option_bind].
  rewrite !app_empty_r_s. reflexivity.
Qed.

Lemma scanNumber_uint (d : uint) (rest : string) :
  match d with Nil | D0 _ => False | _ => True end ->
  ends_value rest ->
  scanNumber (NilEmpty.string_of_uint d +:+ rest)
  = Some (NilEmpty.string_of_uint d, true, rest)
  /\ scanNumber (String "-" (NilEmpty.string_of_uint d +:+ rest))
     = Some (String "-" (NilEmpty.string_of_uint d), true, rest).
Proof.
  intros Hd Hrest. pose proof (scanInt_uint d rest Hd Hrest) as Hint. split.
  - unfold scanNumber.
    assert (match NilEmpty.string_of_uint d +:+ rest with
            | String c rest0 =>
                if Ascii.eqb c "-" then ("-", rest0)
                else ("", NilEmpty.string_of_uint d +:+ rest)
            | EmptyString => ("", NilEmpty.string_of_uint d +:+ rest)
            end = ("", NilEmpty.string_of_uint d +:+ rest)) as ->.
    { destruct d; try contradiction; reflexivity. }
    rewrite (scanNumber_after_int "" _ _ rest Hrest Hint). reflexivity.
  - unfold scanNumber. change (Ascii.eqb "-" "-") with true. cbv iota.
    rewrite (scanNumber_after_int "-" _ _ rest Hrest Hint). reflexivity.
Qed.

Lemma scanNumber_FormatInt (z : Z) (rest : string) :
  ends_value rest ->
  scanNumber (strconv.FormatInt z +:+ rest) = Some (strconv.FormatInt z, true, rest).
Proof.
  intros Hrest. unfold strconv.FormatInt. destruct z as [|p|p]; cbn [Z.to_int].
  - change (NilZero.string_of_int (Pos zero)) with "0".
    rewrite app_String, app_empty_l. unfold scanNumber.
    change (Ascii.eqb "0" "-") with false. cbv iota.
    rewrite (scanNumber_after_int "" "0" (String "0" rest) rest Hrest eq_refl).
    reflexivity.
  - pose proof (to_uint_head p) as Hh. cbn [NilZero.string_of_int].
    assert (NilZero.string_of_uint (Pos.to_uint p)
            = NilEmpty.string_of_uint (Pos.to_uint p)) as ->.
    { destruct (Pos.to_uint p); [contradiction|reflexivity..]. }
    apply scanNumber_uint; assumption.
  - pose proof (to_uint_head p) as Hh. cbn [NilZero.string_of_int].
    assert (NilZero.string_of_uint (Pos.to_uint p)
            = NilEmpty.string_of_uint (Pos.to_uint p)) as ->.
    { destruct (Pos.to_uint p); [contradiction|reflexivity..]. }
    rewrite app_String. apply scanNumber_uint; assumption.
Qed.

Lemma ParseInt_FormatInt (z : Z) : strconv.ParseInt (strconv.FormatInt z) = Some z.
Proof.
  unfold strconv.ParseInt, strconv.FormatInt. rewrite NilZero.isi.
  - cbn. rewrite DecimalZ.of_to. reflexivity.
  - destruct z as [|p|p]; cbn; try discriminate.
    intros [= H]. apply (Unsigned.to_uint_nonnil p H).
  - destruct z as [|p|p]; cbn; try discriminate.
    intros [= H]. apply (Unsigned.to_uint_nonnil p H).
Qed.

(** The first byte of a number: a digit or "-". *)
Lemma FormatInt_head (z : Z) :
  exists c s, strconv.FormatInt z = String c s
    /\ (Ascii.eqb c "-" || isDigit c = true)
    /\ Ascii.eqb c "{" = false /\ Ascii.eqb c "[" = false
    /\ Ascii.eqb c "034" = false.
Proof.
  unfold strconv.FormatInt. destruct z as [|p|p]; cbn [Z.to_int NilZero.string_of_int].
  - exists "0"%char, "". repeat split.
  - pose proof (to_uint_head p) as Hh.
    destruct (Pos.to_uint p); try contradiction; cbn; eexists _, _;
      (split; [reflexivity|]); repeat split.
  - eexists _, _. split; [reflexivity|]. repeat split.
Qed.

(** ** Documents *)

Lemma length_app_s (a b : string) :
  String.length (a +:+ b) = String.length a + String.length b.
Proof. induction a as [|c a IH]; [reflexivity|]. rewrite app_String. cbn. lia. Qed.

Lemma substring_0_length (s : string) : substring 0 (String.length s) s = s.
Proof. induction s as [|c s IH]; [reflexivity|]. cbn. rewrite IH. reflexivity. Qed.

Lemma stripPrefix_app (p rest : string) : stripPrefix p (p +:+ rest) = Some rest.
Proof.
  unfold stripPrefix.
  assert (String.prefix p (p +:+ rest) = true) as ->.
  { induction p as [|c p IH]; [destruct rest; reflexivity|].
    rewrite app_String. cbn. destruct (ascii_dec c c); [exact IH|contradiction]. }
  f_equal. rewrite length_app_s.
  replace (String.length p + String.length rest - String.length p)
    with (String.length rest) by lia.
  induction p as [|c p IH]; [rewrite app_empty_l; apply substring_0_length|].
  rewrite app_String. cbn. exact IH.
Qed.

(** The first byte of what the encoder writes for a value is no space and
    closes no array. *)
Lemma encode_head (v : json) :
  printable v = true ->
  exists c s, encode v = String c s /\ isSpace c = false
    /\ Ascii.eqb c "]" = false.
Proof.
  destruct v as [|[]|z|l|s|es|ms]; cbn [printable encode]; intros Hp;
    try discriminate; try (eexists _, _; repeat split; reflexivity).
  destruct (FormatInt_head z) as (c & s & -> & Hc & _).
  exists c, s. split; [reflexivity|].
  apply orb_true_iff in Hc as [Hc|Hc].
  - apply Ascii.eqb_eq in Hc as ->. split; reflexivity.
  - unfold isDigit in Hc. apply andb_true_iff in Hc as [H1 H2].
    apply N.leb_le in H1. apply N.leb_le in H2. unfold isSpace.
    repeat match goal with
    | |- context [Ascii.eqb c ?k] =>
        let E := fresh in
        destruct (Ascii.eqb c k) eqn:E;
          [apply Ascii.eqb_eq in E; subst c; cbv in H1, H2;
           try (exfalso; apply H1; reflexivity);
           try (exfalso; apply H2; reflexivity)|]
    end. split; reflexivity.
Qed.

Lemma skipSpace_encode (v : json) (rest : string) :
  printable v = true -> skipSpace (encode v +:+ rest) = encode v +:+ rest.
Proof.
  intros Hp. destruct (encode_head v Hp) as (c & s & -> & Hc & _).
  rewrite app_String. cbn. rewrite Hc. reflexivity.
Qed.

Lemma encode_length (v : json) : printable v = true -> 1 <= String.length (encode v).
Proof.
  intros Hp. destruct (encode_head v Hp) as (c & s & -> & _). cbn. lia.
Qed.

Lemma join_comma_cons (e e' : string) (es : list string) :
  join_comma (e :: e' :: es) = e +:+ String "," (join_comma (e' :: es)).
Proof. reflexivity. Qed.

(** One step of the parser, by what it is reading. *)
Lemma parse_array (fuel : nat) (depth : N) (rest : string) :
  parse (S fuel) depth RValue (String "[" rest)
  = if (maxNestingDepth <=? depth)%N then None
    else match skipSpace rest with
         | String c1 rest1 =>
             if Ascii.eqb c1 "]" then Some (JArray [], rest1)
             else parse fuel (depth + 1)%N (RElements []) (skipSpace rest)
         | EmptyString => None
         end.
Proof. reflexivity. Qed.

Lemma parse_object (fuel : nat) (depth : N) (rest : string) :
  parse (S fuel) depth RValue (String "{" rest)
  = if (maxNestingDepth <=? depth)%N then None
    else match skipSpace rest with
         | String c1 rest1 =>
             if Ascii.eqb c1 "}" then Some (JObject [], rest1)
             else parse fuel (depth + 1)%N (RMembers []) (skipSpace rest)
         | EmptyString => None
         end.
Proof. reflexivity. Qed.

Lemma parse_string (fuel : nat) (depth : N) (rest : string) :
  parse (S fuel) depth RValue (String "034" rest)
  = '(str, after) ← parseString rest; Some (JString str, after).
Proof. reflexivity. Qed.

Lemma parse_number (fuel : nat) (depth : N) (c : ascii) (rest : string) :
  Ascii.eqb c "{" = false -> Ascii.eqb c "[" = false -> Ascii.eqb c "034" = false ->
  Ascii.eqb c "-" || isDigit c = true ->
  parse (S fuel) depth RValue (String c rest)
  = '(lit, isInt, after) ← scanNumber (String c rest);
    if isInt : bool then z ← strconv.ParseInt lit; Some (JNumber z, after)
    else Some (JFloat lit, after).
Proof. intros H1 H2 H3 H4. cbn [parse]. rewrite H1, H2, H3, H4. reflexivity. Qed.

Lemma parse_elements_step (fuel : nat) (depth : N) (acc : list json) (s : string) :
  parse (S fuel) depth (RElements acc) s
  = '(v, after) ← parse fuel depth RValue s;
    match skipSpace after with
    | String c rest =>
        if Ascii.eqb c "," then
          parse fuel depth (RElements (acc ++ [v])) (skipSpace rest)
        else if Ascii.eqb c "]" then Some (JArray (acc ++ [v]), rest)
        else None
    | EmptyString => None
    end.
Proof. reflexivity. Qed.

Lemma parse_members_step (fuel : nat) (depth : N) (acc : list (string * json))
    (rest : string) :
  parse (S fuel) depth (RMembers acc) (String "034" rest)
  = '(key, after) ← parseString rest;
    match skipSpace after with
    | String c1 rest1 =>
        if Ascii.eqb c1 ":" then
          '(v, after1) ← parse fuel depth RValue (skipSpace rest1);
          match skipSpace after1 with
          | String c2 rest2 =>
              if Ascii.eqb c2 "," then
                parse fuel depth (RMembers (acc ++ [(key, v)])) (skipSpace rest2)
              else if Ascii.eqb c2 "}" then
                Some (JObject (acc ++ [(key, v)]), rest2)
              else None
          | EmptyString => None
          end
        else None
    | EmptyString => None
    end.
Proof. reflexivity. Qed.

Lemma parse_elements (es : list json) :
  Forall reads_back es ->
  forall (e : json) (acc : list json) (fuel : nat) (depth : N) (rest : string),
    reads_back e ->
    forallb printable (e :: es) = true ->
    String.length (join_comma (map encode (e :: es))) < fuel ->
    (depth + fold_right (fun e h => N.max (height e) h) 0 (e :: es)
     <= maxNestingDepth)%N ->
    parse fuel depth (RElements acc)
      (join_comma (map encode (e :: es)) +:+ String "]" rest)
    = Some (JArray (acc ++ e :: es), rest).
Proof.
  induction 1 as [|e' es He' Hes IH]; intros e acc fuel depth rest He Hp Hf Hd.
  - cbn [map join_comma] in *. destruct fuel as [|fuel]; [lia|].
    cbn [forallb] in Hp. apply andb_true_iff in Hp as [Hp _].
    rewrite parse_elements_step.
    rewrite (He Hp fuel depth (String "]" rest)); [|lia| |right; left; reflexivity].
    + reflexivity.
    + cbn [fold_right] in Hd. lia.
  - cbn [map] in *. rewrite join_comma_cons in *.
    change (join_comma (encode e' :: map encode es))
      with (join_comma (map encode (e' :: es))) in *.
    rewrite length_app_s in Hf. cbn [String.length] in Hf.
    destruct fuel as [|fuel]; [lia|].
    cbn [forallb] in Hp. apply andb_true_iff in Hp as [Hp Hps].
    rewrite parse_elements_step, app_assoc_s, app_String.
    rewrite (He Hp fuel depth); [|lia| |left; reflexivity].
    2:{ cbn [fold_right] in Hd. lia. }
    cbn [mbind option_bind skipSpace isSpace Ascii.eqb Bool.eqb orb].
    cbv iota.
    assert (exists c s, join_comma (map encode (e' :: es)) = String c s
              /\ isSpace c = false) as (c & s & Hj & Hc).
    { assert (printable e' = true) as Hp'
        by (cbn [forallb] in Hps; apply andb_true_iff in Hps as [? _]; assumption).
      destruct (encode_head e' Hp') as (c & s & Hh & Hc & _).
      destruct es as [|e'' es].
      - exists c, s. split; [exact Hh|exact Hc].
      - cbn [map]. rewrite join_comma_cons, Hh, app_String. eauto. }
    assert (skipSpace (join_comma (map encode (e' :: es)) +:+ String "]" rest)
            = join_comma (map encode (e' :: es)) +:+ String "]" rest) as ->.
    { rewrite Hj, app_String. cbn. rewrite Hc. reflexivity. }
    replace (acc ++ e :: e' :: es)%list with ((acc ++ [e]) ++ e' :: es)%list
      by (rewrite <- List.app_assoc; reflexivity).
    apply IH; [exact He'|exact Hps| |].
    + pose proof (encode_length e Hp). cbn [map] in Hf |- *. lia.
    + cbn [fold_right] in Hd |- *. lia.
Qed.

Lemma encode_object (ms : list (string * json)) :
  encode (JObject ms) = String "{" (join_comma (map encode_member ms) +:+ "}").
Proof. reflexivity. Qed.

Lemma encode_member_text (k : string) (v : json) (rest : string) :
  encode_member (k, v) +:+ rest
  = String "034" (appendString_loop k +:+ String "034" (String ":" (encode v +:+ rest))).
Proof.
  unfold encode_member, appendString. cbn [fst snd].
  rewrite !app_String, !app_assoc_s, !app_String, app_empty_l. reflexivity.
Qed.

Lemma encode_member_length (k : string) (v : json) :
  String.length (encode_member (k, v)) = String.length (appendString k) + S (String.length (encode v)).
Proof. unfold encode_member. rewrite length_app_s. reflexivity. Qed.

Lemma appendString_length (k : string) : 2 <= String.length (appendString k).
Proof. unfold appendString. cbn [String.length]. rewrite length_app_s. cbn. lia. Qed.

Lemma parse_members (ms : list (string * json)) :
  Forall (fun m => reads_back (snd m)) ms ->
  forall (m : string * json) (acc : list (string * json)) (fuel : nat)
         (depth : N) (rest : string),
    reads_back (snd m) ->
    forallb (fun m => utf8.ValidString (fst m) && printable (snd m)) (m :: ms) = true ->
    String.length (join_comma (map encode_member (m :: ms))) < fuel ->
    (depth + fold_right (fun m h => N.max (height (snd m)) h) 0 (m :: ms)
     <= maxNestingDepth)%N ->
    parse fuel depth (RMembers acc)
      (join_comma (map encode_member (m :: ms)) +:+ String "}" rest)
    = Some (JObject (acc ++ m :: ms), rest).
Proof.
  induction 1 as [|m' ms Hm' Hms IH]; intros [k v] acc fuel depth rest Hm Hp Hf Hd;
    cbn [fst snd] in Hm.
  - cbn [map join_comma] in *. destruct fuel as [|fuel]; [lia|].
    cbn [forallb fst snd] in Hp. rewrite andb_true_r in Hp.
    apply andb_true_iff in Hp as [Hk Hp].
    rewrite encode_member_length in Hf. pose proof (appendString_length k).
    rewrite encode_member_text, parse_members_step.
    rewrite (parseString_appendString k _ Hk).
    cbn [mbind option_bind skipSpace isSpace Ascii.eqb Bool.eqb orb]. cbv iota.
    rewrite (skipSpace_encode v _ Hp).
    rewrite (Hm Hp fuel depth (String "}" rest)); [|lia| |right; right; reflexivity].
    + reflexivity.
    + cbn [fold_right snd] in Hd. lia.
  - cbn [map] in *. rewrite join_comma_cons in *.
    change (join_comma (encode_member m' :: map encode_member ms))
      with (join_comma (map encode_member (m' :: ms))) in *.
    rewrite length_app_s in Hf. cbn [String.length] in Hf.
    rewrite encode_member_length in Hf. pose proof (appendString_length k).
    destruct fuel as [|fuel]; [lia|].
    cbn [forallb fst snd] in Hp. apply andb_true_iff in Hp as [Hp Hps].
    apply andb_true_iff in Hp as [Hk Hp].
    rewrite app_assoc_s, app_String, encode_member_text, parse_members_step.
    rewrite (parseString_appendString k _ Hk).
    cbn [mbind option_bind skipSpace isSpace Ascii.eqb Bool.eqb orb]. cbv iota.
    rewrite (skipSpace_encode v _ Hp).
    rewrite (Hm Hp fuel depth); [|lia| |left; reflexivity].
    2:{ cbn [fold_right snd] in Hd. lia. }
    cbn [mbind option_bind skipSpace isSpace Ascii.eqb Bool.eqb orb]. cbv iota.
    assert (skipSpace (join_comma (map encode_member (m' :: ms)) +:+ String "}" rest)
            = join_comma (map encode_member (m' :: ms)) +:+ String "}" rest) as ->.
    { destruct m' as [k' v']. destruct ms as [|m'' ms].
      - cbn [map join_comma]. rewrite encode_member_text. reflexivity.
      - cbn [map]. rewrite join_comma_cons, app_assoc_s, encode_member_text.
        reflexivity. }
    replace (acc ++ (k, v) :: m' :: ms)%list with ((acc ++ [(k, v)]) ++ m' :: ms)%list
      by (rewrite <- List.app_assoc; reflexivity).
    apply IH; [exact Hm'|exact Hps| |].
    + pose proof (encode_length v Hp). cbn [map] in Hf |- *. lia.
    + cbn [fold_right snd] in Hd |- *. lia.
Qed.

(** The parser reads what the encoder wrote for a printable document. *)
Lemma parse_encode (v : json) : reads_back v.
Proof.
  induction v as [| b | z | l | s | es IH | ms IH] using json_nested_ind;
    intros Hp fuel depth rest Hf Hd Hrest; cbn [printable] in Hp; try discriminate.
  - cbn [encode] in *. destruct fuel as [|fuel]; [cbn in Hf; lia|].
    change (parse (S fuel) depth RValue ("null" +:+ rest))
      with (after ← stripPrefix "null" ("null" +:+ rest); Some (JNull, after)).
    rewrite stripPrefix_app. reflexivity.
  - destruct b; cbn [encode] in *; (destruct fuel as [|fuel]; [cbn in Hf; lia|]).
    + change (parse (S fuel) depth RValue ("true" +:+ rest))
        with (after ← stripPrefix "true" ("true" +:+ rest); Some (JBool true, after)).
      rewrite stripPrefix_app. reflexivity.
    + change (parse (S fuel) depth RValue ("false" +:+ rest))
        with (after ← stripPrefix "false" ("false" +:+ rest); Some (JBool false, after)).
      rewrite stripPrefix_app. reflexivity.
  - pose proof (encode_length (JNumber z) eq_refl) as Hl. cbn [encode] in *.
    destruct fuel as [|fuel]; [lia|].
    pose proof (scanNumber_FormatInt z rest Hrest) as Hs.
    destruct (FormatInt_head z) as (c & s & Hz & Hc & H1 & H2 & H3).
    rewrite Hz in Hs |- *. rewrite app_String in Hs |- *.
    rewrite (parse_number fuel depth c _ H1 H2 H3 Hc), Hs.
    cbn [mbind option_bind]. rewrite <- Hz, ParseInt_FormatInt. reflexivity.
  - cbn [encode] in *. pose proof (appendString_length s).
    destruct fuel as [|fuel]; [lia|].
    unfold appendString. rewrite app_String, app_assoc_s, app_String, app_empty_l.
    rewrite parse_string, (parseString_appendString s rest Hp). reflexivity.
  - cbn [encode] in *. cbn [String.length] in Hf.
    destruct fuel as [|fuel]; [lia|].
    rewrite app_String, app_assoc_s, parse_array.
    assert ((maxNestingDepth <=? depth)%N = false) as ->
      by (apply N.leb_gt; cbn [height] in Hd; lia).
    destruct es as [|e es]; [reflexivity|].
    apply Forall_cons in IH as [He Hes].
    cbn [forallb] in Hp. pose proof Hp as Hp0. apply andb_true_iff in Hp0 as [Hpe _].
    assert (exists c s, join_comma (map encode (e :: es)) +:+ String "]" rest
                 = String c s /\ isSpace c = false /\ Ascii.eqb c "]" = false)
      as (c & s & Hj & Hsp & Hc).
    { destruct (encode_head e Hpe) as (c & s & Hh & Hsp & Hc).
      destruct es as [|e' es].
      - cbn [map join_comma]. rewrite Hh, app_String. eauto.
      - cbn [map]. rewrite join_comma_cons, Hh, !app_String. eauto. }
    change ("]" +:+ rest) with (String "]" rest).
    rewrite Hj. cbn [skipSpace]. rewrite Hsp, Hc, <- Hj.
    apply (parse_elements es Hes e [] fuel (depth + 1)%N rest He Hp).
    + rewrite length_app_s in Hf. cbn [String.length] in Hf. lia.
    + cbn [height] in Hd. lia.
  - rewrite encode_object in *. cbn [String.length] in Hf.
    destruct fuel as [|fuel]; [lia|].
    rewrite app_String, app_assoc_s, parse_object.
    assert ((maxNestingDepth <=? depth)%N = false) as ->
      by (apply N.leb_gt; cbn [height] in Hd; lia).
    destruct ms as [|[k v] ms]; [reflexivity|].
    apply Forall_cons in IH as [Hm Hms].
    assert (exists s, join_comma (map encode_member ((k, v) :: ms)) +:+ String "}" rest
                 = String "034" s) as (s & Hj).
    { destruct ms as [|m' ms].
      - cbn [map join_comma]. rewrite encode_member_text. eauto.
      - cbn [map]. rewrite join_comma_cons, app_assoc_s, encode_member_text. eauto. }
    change ("}" +:+ rest) with (String "}" rest).
    rewrite Hj. cbn [skipSpace isSpace Ascii.eqb Bool.eqb orb]. cbv iota.
    rewrite <- Hj.
    apply (parse_members ms Hms (k, v) [] fuel (depth + 1)%N rest Hm Hp).
    + rewrite length_app_s in Hf. cbn [String.length] in Hf. lia.
    + cbn [height] in Hd. lia.
Qed.

(** The scanner reads the text of a printable document as the document. *)
Lemma scan_encode (v : json) :
  printable v = true -> (height v <= maxNestingDepth)%N ->
  scan (encode v) = Some v.
Proof.
  intros Hp Hd. unfold scan. rewrite <- (app_empty_r_s (encode v)) at 2.
  rewrite (skipSpace_encode v "" Hp).
  rewrite (parse_encode v Hp (S (String.length (encode v))) 0%N ""); [reflexivity|lia|lia|exact I].
Qed.

(** ** The fuel of the parser *)

Lemma skipSpace_length (s : string) : String.length (skipSpace s) <= String.length s.
Proof.
  induction s as [|c s IH]; [reflexivity|]. cbn [skipSpace].
  destruct (isSpace c); cbn [String.length]; lia.
Qed.

Lemma scanString_length_n (n : nat) :
  forall s lit after, String.length s <= n ->
    scanString s = Some (lit, after) -> String.length after < String.length s.
Proof.
  induction n as [|n IH]; intros s lit after Hn H.
  { destruct s; [discriminate|cbn in Hn; lia]. }
  destruct s as [|c rest]; [discriminate|]. cbn [scanString] in H.
  cbn [String.length] in Hn |- *.
  destruct (Ascii.eqb c "034"); [injection H as _ <-; lia|].
  destruct (Ascii.eqb c "\").
  - destruct rest as [|e rest1]; [discriminate|]. cbn [String.length] in Hn |- *.
    destruct (_ || _).
    + destruct (scanString rest1) as [[lit' after']|] eqn:Hs; [|discriminate].
      injection H as _ <-. pose proof (IH rest1 lit' after' ltac:(lia) Hs). lia.
    + destruct (Ascii.eqb e "u"); [|discriminate].
      destruct rest1 as [|h1 [|h2 [|h3 [|h4 rest5]]]]; try discriminate.
      destruct (_ && _); [|discriminate]. cbn [String.length] in Hn |- *.
      destruct (scanString rest5) as [[lit' after']|] eqn:Hs; [|discriminate].
      injection H as _ <-. pose proof (IH rest5 lit' after' ltac:(lia) Hs). lia.
  - destruct (_ <? _)%N; [discriminate|].
    destruct (scanString rest) as [[lit' after']|] eqn:Hs; [|discriminate].
    injection H as _ <-. pose proof (IH rest lit' after' ltac:(lia) Hs). lia.
Qed.

Lemma parseString_length (s str after : string) :
  parseString s = Some (str, after) -> String.length after < String.length s.
Proof.
  unfold parseString. destruct (scanString s) as [[lit after']|] eqn:Hs; [|discriminate].
  cbn [mbind option_bind]. destruct (unquote_loop lit); [|discriminate].
  intros [= _ <-]. apply (scanString_length_n _ s lit after' (le_n _) Hs).
Qed.

Lemma scanDigits_length (s : string) :
  String.length (snd (scanDigits s)) <= String.length s.
Proof.
  induction s as [|c s IH]; [reflexivity|]. cbn [scanDigits].
  destruct (isDigit c); [|reflexivity].
  destruct (scanDigits s) as [ds after]. cbn [snd String.length] in *. lia.
Qed.

Lemma scanInt_length (s int after : string) :
  scanInt s = Some (int, after) -> String.length after < String.length s.
Proof.
  destruct s as [|c rest]; [discriminate|]. cbn [scanInt String.length].
  destruct (Ascii.eqb c "0"); [intros [= _ <-]; lia|].
  destruct (isDigit c); [|discriminate].
  pose proof (scanDigits_length rest). destruct (scanDigits rest) as [ds after'].
  intros [= _ <-]. cbn [snd] in *. lia.
Qed.

Lemma scanFrac_length (s frac after : string) :
  scanFrac s = Some (frac, after) -> String.length after <= String.length s.
Proof.
  destruct s as [|c rest]; [intros [= _ <-]; reflexivity|]. cbn [scanFrac].
  destruct (Ascii.eqb c "."); [|intros [= _ <-]; reflexivity].
  pose proof (scanDigits_length rest). destruct (scanDigits rest) as [ds after'].
  destruct ds; [discriminate|]. intros [= _ <-]. cbn [snd String.length] in *. lia.
Qed.

Lemma scanExp_length (s exp after : string) :
  scanExp s = Some (exp, after) -> String.length after <= String.length s.
Proof.
  destruct s as [|c rest]; [intros [= _ <-]; reflexivity|]. cbn [scanExp].
  destruct (_ || _); [|intros [= _ <-]; reflexivity].
  assert (forall sg rest1, String.length rest1 <= String.length rest ->
            (let '(ds, after0) := scanDigits rest1 in
             match ds with
             | "" => None
             | String _ _ => Some (String c (sg +:+ ds), after0)
             end) = Some (exp, after) ->
            String.length after <= String.length (String c rest)) as Hgo.
  { intros sg rest1 Hl. pose proof (scanDigits_length rest1).
    destruct (scanDigits rest1) as [ds after'].
    destruct ds; [discriminate|]. intros [= _ <-]. cbn [snd String.length] in *. lia. }
  destruct rest as [|c1 rest']; [apply Hgo; reflexivity|].
  destruct (_ || _); apply Hgo; cbn [String.length]; lia.
Qed.

Lemma scanNumber_length (s lit : string) (isInt : bool) (after : string) :
  scanNumber s = Some (lit, isInt, after) -> String.length after < String.length s.
Proof.
  unfold scanNumber.
  assert (forall sign s1, String.length s1 <= String.length s ->
            ('(int, s2) ← scanInt s1;
             '(frac, s3) ← scanFrac s2;
             '(exp, s4) ← scanExp s3;
             Some (sign +:+ int +:+ frac +:+ exp,
                   String.eqb frac "" && String.eqb exp "", s4))
            = Some (lit, isInt, after) ->
            String.length after < String.length s) as Hgo.
  { intros sign s1 Hl.
    destruct (scanInt s1) as [[int s2]|] eqn:H1; [|discriminate].
    cbn [mbind option_bind].
    destruct (scanFrac s2) as [[frac s3]|] eqn:H2; [|discriminate].
    cbn [mbind option_bind].
    destruct (scanExp s3) as [[exp s4]|] eqn:H3; [|discriminate].
    cbn [mbind option_bind]. intros [= _ _ <-].
    apply scanInt_length in H1. apply scanFrac_length in H2.
    apply scanExp_length in H3. lia. }
  destruct s as [|c rest]; [apply Hgo; reflexivity|].
  destruct (Ascii.eqb c "-"); apply Hgo; cbn [String.length]; lia.
Qed.

Lemma prefix_length (p s : string) :
  String.prefix p s = true -> String.length p <= String.length s.
Proof.
  revert s. induction p as [|c p IH]; intros s; [cbn; lia|].
  destruct s as [|c' s]; [discriminate|]. cbn [String.prefix String.length].
  destruct (ascii_dec c c'); [|discriminate]. intros H. specialize (IH s H). lia.
Qed.

Lemma substring_length_le (n m : nat) (s : string) :
  String.length (substring n m s) <= m.
Proof.
  revert n m. induction s as [|c s IH]; intros [|n] [|m]; cbn; try lia.
  - specialize (IH 0 m). lia.
  - specialize (IH n 0). cbn in IH. exact IH.
  - specialize (IH n (S m)). exact IH.
Qed.

Lemma stripPrefix_length (p s after : string) :
  p <> "" -> stripPrefix p s = Some after -> String.length after < String.length s.
Proof.
  unfold stripPrefix. intros Hp. destruct (String.prefix p s) eqn:Hpre; [|discriminate].
  intros [= <-]. apply prefix_length in Hpre.
  pose proof (substring_length_le (String.length p)
                (String.length s - String.length p) s).
  destruct p; [contradiction|]. cbn [String.length] in *. lia.
Qed.

Ltac enough_fuel f :=
  intros f ?; destruct f as [|f]; [cbn [String.length] in *; lia|].

Lemma parse_fuel_bound (fuel : nat) : fuel_bound fuel.
Proof.
  induction fuel as [|fuel IH]; intros depth what s v rest H; [discriminate|].
  destruct what as [|acc|acc].
  - (* a value *)
    destruct s as [|c s]; [discriminate|]. cbn [parse] in H.
    cbn [String.length].
    destruct (Ascii.eqb c "{") eqn:E1.
    { destruct (maxNestingDepth <=? depth)%N eqn:Ed; [discriminate|].
      pose proof (skipSpace_length s) as Hsk.
      destruct (skipSpace s) as [|c1 s1] eqn:Es; [discriminate|].
      cbn [String.length] in Hsk.
      destruct (Ascii.eqb c1 "}") eqn:E2.
      - injection H as <- <-. split; [lia|]. enough_fuel f.
        cbn [parse]. rewrite E1, Ed, Es, E2. reflexivity.
      - destruct (IH _ _ _ _ _ H) as [Hl Hf]. cbn [String.length] in Hl, Hf.
        split; [lia|]. enough_fuel f.
        cbn [parse]. rewrite E1, Ed, Es, E2. apply Hf.
        cbn [String.length] in *. lia. }
    destruct (Ascii.eqb c "[") eqn:E2.
    { destruct (maxNestingDepth <=? depth)%N eqn:Ed; [discriminate|].
      pose proof (skipSpace_length s) as Hsk.
      destruct (skipSpace s) as [|c1 s1] eqn:Es; [discriminate|].
      cbn [String.length] in Hsk.
      destruct (Ascii.eqb c1 "]") eqn:E3.
      - injection H as <- <-. split; [lia|]. enough_fuel f.
        cbn [parse]. rewrite E1, E2, Ed, Es, E3. reflexivity.
      - destruct (IH _ _ _ _ _ H) as [Hl Hf]. cbn [String.length] in Hl, Hf.
        split; [lia|]. enough_fuel f.
        cbn [parse]. rewrite E1, E2, Ed, Es, E3. apply Hf.
        cbn [String.length] in *. lia. }
    destruct (Ascii.eqb c "034") eqn:E3.
    { destruct (parseString s) as [[str after]|] eqn:Hs; [|discriminate].
      injection H as <- <-. apply parseString_length in Hs as Hl.
      split; [lia|]. enough_fuel f.
      cbn [parse]. rewrite E1, E2, E3, Hs. reflexivity. }
    destruct (Ascii.eqb c "-" || isDigit c) eqn:E4.
    { destruct (scanNumber (String c s)) as [[[lit isInt] after]|] eqn:Hs;
        [|discriminate].
      apply scanNumber_length in Hs as Hl. cbn [String.length] in Hl.
      cbn [mbind option_bind] in H.
      assert (rest = after) as ->.
      { destruct isInt; [|injection H as _ <-; reflexivity].
        destruct (strconv.ParseInt lit); [|discriminate].
        injection H as _ <-. reflexivity. }
      split; [lia|]. enough_fuel f.
      cbn [parse]. rewrite E1, E2, E3, E4, Hs. exact H. }
    destruct (Ascii.eqb c "t") eqn:E5.
    { destruct (stripPrefix "true" (String c s)) as [after|] eqn:Hs; [|discriminate].
      injection H as <- <-. apply stripPrefix_length in Hs as Hl; [|discriminate].
      cbn [String.length] in Hl. split; [lia|]. enough_fuel f.
      cbn [parse]. rewrite E1, E2, E3, E4, E5, Hs. reflexivity. }
    destruct (Ascii.eqb c "f") eqn:E6.
    { destruct (stripPrefix "false" (String c s)) as [after|] eqn:Hs; [|discriminate].
      injection H as <- <-. apply stripPrefix_length in Hs as Hl; [|discriminate].
      cbn [String.length] in Hl. split; [lia|]. enough_fuel f.
      cbn [parse]. rewrite E1, E2, E3, E4, E5, E6, Hs. reflexivity. }
    destruct (Ascii.eqb c "n") eqn:E7; [|discriminate].
    destruct (stripPrefix "null" (String c s)) as [after|] eqn:Hs; [|discriminate].
    injection H as <- <-. apply stripPrefix_length in Hs as Hl; [|discriminate].
    cbn [String.length] in Hl. split; [lia|]. enough_fuel f.
    cbn [parse]. rewrite E1, E2, E3, E4, E5, E6, E7, Hs. reflexivity.
  - (* the elements of an array *)
    cbn [parse] in H.
    destruct (parse fuel depth RValue s) as [[v1 after]|] eqn:Hv; [|discriminate].
    cbn [mbind option_bind] in H.
    destruct (IH _ _ _ _ _ Hv) as [Hl1 Hf1].
    pose proof (skipSpace_length after) as Hsk.
    destruct (skipSpace after) as [|c rest1] eqn:Es; [discriminate|].
    cbn [String.length] in Hsk.
    destruct (Ascii.eqb c ",") eqn:E1.
    + destruct (IH _ _ _ _ _ H) as [Hl2 Hf2].
      pose proof (skipSpace_length rest1) as Hsk2.
      split; [lia|]. enough_fuel f.
      cbn [parse]. rewrite (Hf1 f) by lia. cbn [mbind option_bind].
      rewrite Es, E1. apply Hf2. lia.
    + destruct (Ascii.eqb c "]") eqn:E2; [|discriminate].
      injection H as <- <-. split; [lia|]. enough_fuel f.
      cbn [parse]. rewrite (Hf1 f) by lia. cbn [mbind option_bind].
      rewrite Es, E1, E2. reflexivity.
  - (* the members of an object *)
    destruct s as [|c s]; [discriminate|]. cbn [parse] in H.
    cbn [String.length].
    destruct (Ascii.eqb c "034") eqn:E0; [|discriminate].
    destruct (parseString s) as [[key after]|] eqn:Hk; [|discriminate].
    cbn [mbind option_bind] in H. apply parseString_length in Hk as Hlk.
    pose proof (skipSpace_length after) as Hsk.
    destruct (skipSpace after) as [|c1 rest1] eqn:Es; [discriminate|].
    cbn [String.length] in Hsk.
    destruct (Ascii.eqb c1 ":") eqn:E1; [|discriminate].
    destruct (parse fuel depth RValue (skipSpace rest1)) as [[v1 after1]|] eqn:Hv;
      [|discriminate].
    cbn [mbind option_bind] in H.
    destruct (IH _ _ _ _ _ Hv) as [Hl1 Hf1].
    pose proof (skipSpace_length rest1) as Hsk1.
    pose proof (skipSpace_length after1) as Hsk2.
    destruct (skipSpace after1) as [|c2 rest2] eqn:Es2; [discriminate|].
    cbn [String.length] in Hsk2.
    destruct (Ascii.eqb c2 ",") eqn:E2.
    + destruct (IH _ _ _ _ _ H) as [Hl2 Hf2].
      pose proof (skipSpace_length rest2) as Hsk3.
      split; [lia|]. enough_fuel f.
      cbn [parse]. rewrite E0, Hk. cbn [mbind option_bind]. rewrite Es, E1.
      rewrite (Hf1 f) by lia. cbn [mbind option_bind].
      rewrite Es2, E2. apply Hf2. lia.
    + destruct (Ascii.eqb c2 "}") eqn:E3; [|discriminate].
      injection H as <- <-. split; [lia|]. enough_fuel f.
      cbn [parse]. rewrite E0, Hk. cbn [mbind option_bind]. rewrite Es, E1.
      rewrite (Hf1 f) by lia. cbn [mbind option_bind].
      rewrite Es2, E2, E3. reflexivity.
Qed.

(** The fuel that [scan] gives the parser is enough: it reads whatever the
    parser reads with any fuel. *)
Theorem scan_fuel (fuel : nat) (data : string) (v : json) (after : string) :
  parse fuel 0 RValue (skipSpace data) = Some (v, after) ->
  parse (S (String.length data)) 0 RValue (skipSpace data) = Some (v, after).
Proof.
  intros H. destruct (parse_fuel_bound fuel _ _ _ _ _ H) as [_ Hf].
  apply Hf. pose proof (skipSpace_length data). lia.
Qed.

End JsonText.

(** ** The JSON form of a manifest *)

Section RoundTrip.

Import encoding_json.

Lemma intoStruct_marshalFile (fl : ManifestFile.t) :
  file_encodable fl ->
  intoStruct setFileField zeroFile (marshalFile fl) = Some fl.
Proof.
  destruct fl as [projId fileId parent fname size ctime mtime].
  unfold file_encodable, int64_ok. cbn [ManifestFile.ProjId
    ManifestFile.FileId ManifestFile.Parent ManifestFile.Fname ManifestFile.Size
    ManifestFile.CtimeMillisec ManifestFile.MtimeMillisec].
  intros (_ & _ & _ & _ & H5 & H6 & H7).
  unfold marshalFile, omitemptyString, omitemptyInt64. cbn [ManifestFile.ProjId
    ManifestFile.FileId ManifestFile.Parent ManifestFile.Fname ManifestFile.Size
    ManifestFile.CtimeMillisec ManifestFile.MtimeMillisec].
  destruct (String.eqb_spec fname "") as [->|_];
    destruct (Z.eqb_spec size 0) as [->|_];
    destruct (Z.eqb_spec ctime 0) as [->|_];
    destruct (Z.eqb_spec mtime 0) as [->|_];
    cbn; rewrite ?H5, ?H6, ?H7; reflexivity.
Qed.

Lemma intoStruct_marshalDir (d : ManifestDir.t) :
  dir_encodable d ->
  intoStruct setDirField zeroDir (marshalDir d) = Some d.
Proof.
  destruct d as [projId folder dirname ctime mtime].
  unfold dir_encodable, int64_ok. cbn [ManifestDir.ProjId
    ManifestDir.Folder ManifestDir.Dirname
    ManifestDir.CtimeMillisec ManifestDir.MtimeMillisec].
  intros (_ & _ & _ & H4 & H5).
  unfold marshalDir, omitemptyInt64. cbn [ManifestDir.ProjId
    ManifestDir.Folder ManifestDir.Dirname
    ManifestDir.CtimeMillisec ManifestDir.MtimeMillisec].
  destruct (Z.eqb_spec ctime 0) as [->|_];
    destruct (Z.eqb_spec mtime 0) as [->|_];
    cbn; rewrite ?H4, ?H5; reflexivity.
Qed.

Lemma intoElems_fresh {A : Type} (into : A -> json -> option A) (zero : A)
    (marshal : A -> json) (P : A -> Prop) (xs : list A) :
  (forall x, P x -> into zero (marshal x) = Some x) ->
  Forall P xs ->
  intoElems into zero [] (map marshal xs) = Some (xs, []).
Proof.
  intros Hinto. induction 1 as [|x xs Hx _ IH]; [reflexivity|].
  cbn [map intoElems hd tl]. rewrite (Hinto x Hx). cbn. rewrite IH. reflexivity.
Qed.

(** A slice that is written and read into a nil slice comes back, whether
    it was nil or not. *)
Lemma intoSlice_marshalSlice {A : Type} (into : A -> json -> option A) (zero : A)
    (marshal : A -> json) (P : A -> Prop) (isNil : bool) (xs : list A) :
  (forall x, P x -> into zero (marshal x) = Some x) ->
  Forall P xs ->
  intoSlice into zero (mkSlice [] []) (marshalSlice isNil (map marshal xs))
  = Some (mkSlice xs []).
Proof.
  intros Hinto HP. destruct xs as [|x xs].
  - destruct isNil; reflexivity.
  - cbn [map marshalSlice intoSlice slice_elems slice_spare app].
    change (marshal x :: map marshal xs) with (map marshal (x :: xs)).
    rewrite (intoElems_fresh into zero marshal P (x :: xs) Hinto HP). reflexivity.
Qed.

Lemma setManifestField_files (files : slice ManifestFile.t)
    (directories : slice ManifestDir.t) (v : json) :
  setManifestField (files, directories) ("files", v)
  = fls ← intoSlice (intoStruct setFileField) zeroFile files v;
    Some (fls, directories).
Proof. reflexivity. Qed.

Lemma setManifestField_directories (files : slice ManifestFile.t)
    (directories : slice ManifestDir.t) (v : json) :
  setManifestField (files, directories) ("directories", v)
  = ds ← intoSlice (intoStruct setDirField) zeroDir directories v;
    Some (files, ds).
Proof. reflexivity. Qed.

(** Writing a manifest as a document and reading the document loses
    nothing. *)
Theorem Unmarshal_Marshal (nilFiles nilDirs : bool) (m : Manifest) :
  manifest_encodable m ->
  Unmarshal (Marshal nilFiles nilDirs m) = Some m.
Proof.
  intros [Hfiles Hdirs]. destruct m as [files dirs]. cbn [Files Directories] in *.
  unfold Unmarshal, Marshal. cbn [Files Directories intoStruct setFields].
  rewrite setManifestField_files.
  rewrite (intoSlice_marshalSlice _ _ _ _ nilFiles files intoStruct_marshalFile Hfiles).
  cbn [mbind option_bind]. rewrite setManifestField_directories.
  rewrite (intoSlice_marshalSlice _ _ _ _ nilDirs dirs intoStruct_marshalDir Hdirs).
  reflexivity.
Qed.

(** The document of a manifest whose strings are valid UTF-8 is one that
    the scanner reads back. *)
Lemma printable_omitemptyInt64 (name : string) (z : Z) :
  utf8.ValidString name = true ->
  forallb (fun m => utf8.ValidString (fst m) && printable (snd m))
    (omitemptyInt64 name z) = true.
Proof.
  intros Hn. unfold omitemptyInt64. destruct (z =? 0)%Z; [reflexivity|].
  cbn [forallb fst snd printable]. rewrite Hn. reflexivity.
Qed.

Lemma printable_marshalFile (fl : ManifestFile.t) :
  file_encodable fl -> printable (marshalFile fl) = true.
Proof.
  intros (H1 & H2 & H3 & H4 & _). unfold utf8_ok in *.
  unfold marshalFile. cbn [printable]. rewrite !forallb_app.
  rewrite !printable_omitemptyInt64 by reflexivity.
  cbn [forallb fst snd printable]. rewrite H1, H2, H3.
  unfold omitemptyString. destruct (String.eqb _ ""); [reflexivity|].
  cbn [forallb fst snd printable]. rewrite H4. reflexivity.
Qed.

Lemma printable_marshalDir (d : ManifestDir.t) :
  dir_encodable d -> printable (marshalDir d) = true.
Proof.
  intros (H1 & H2 & H3 & _). unfold utf8_ok in *.
  unfold marshalDir. cbn [printable]. rewrite !forallb_app.
  rewrite !printable_omitemptyInt64 by reflexivity.
  cbn [forallb fst snd printable]. rewrite H1, H2, H3. reflexivity.
Qed.

Lemma printable_marshalSlice {A : Type} (marshal : A -> json) (P : A -> Prop)
    (isNil : bool) (xs : list A) :
  (forall x, P x -> printable (marshal x) = true) ->
  Forall P xs ->
  printable (marshalSlice isNil (map marshal xs)) = true.
Proof.
  intros Hp HP.
  assert (forallb printable (map marshal xs) = true) as Hall.
  { induction HP as [|x xs Hx _ IH]; [reflexivity|].
    cbn [map forallb]. rewrite (Hp x Hx), IH. reflexivity. }
  destruct xs as [|x xs]; [destruct isNil; reflexivity|exact Hall].
Qed.

Lemma printable_Marshal (nilFiles nilDirs : bool) (m : Manifest) :
  manifest_encodable m -> printable (Marshal nilFiles nilDirs m) = true.
Proof.
  intros [Hfiles Hdirs]. unfold Marshal. cbn [printable forallb fst snd].
  rewrite (printable_marshalSlice marshalFile file_encodable nilFiles (Files m)
             printable_marshalFile Hfiles).
  rewrite (printable_marshalSlice marshalDir dir_encodable nilDirs (Directories m)
             printable_marshalDir Hdirs).
  reflexivity.
Qed.

(** An array of objects that hold strings and numbers is two deep. *)
Lemma height_marshalSlice {A : Type} (marshal : A -> json) (isNil : bool)
    (xs : list A) :
  (forall x, height (marshal x) = 1%N) ->
  (height (marshalSlice isNil (map marshal xs)) <= 2)%N.
Proof.
  intros Hh.
  assert (fold_right (fun e h => N.max (height e) h) 0%N (map marshal xs) <= 1)%N
    as Hall.
  { induction xs as [|x xs IH]; [cbn; lia|].
    cbn [map fold_right]. rewrite (Hh x). lia. }
  destruct xs as [|x xs]; [destruct isNil; cbn; lia|].
  cbn [marshalSlice map height] in *. lia.
Qed.

Lemma height_members_flat (members : list (string * json)) :
  Forall (fun m => height (snd m) = 0%N) members ->
  fold_right (fun m h => N.max (height (snd m)) h) 0%N members = 0%N.
Proof.
  induction 1 as [|m ms Hm _ IH]; [reflexivity|].
  cbn [fold_right]. rewrite Hm, IH. reflexivity.
Qed.

Lemma height_marshalFile (fl : ManifestFile.t) : height (marshalFile fl) = 1%N.
Proof.
  unfold marshalFile. cbn [height]. rewrite height_members_flat; [reflexivity|].
  unfold omitemptyString, omitemptyInt64.
  repeat match goal with
         | |- context [if ?b then _ else _] => destruct b
         end; repeat constructor.
Qed.

Lemma height_marshalDir (d : ManifestDir.t) : height (marshalDir d) = 1%N.
Proof.
  unfold marshalDir. cbn [height]. rewrite height_members_flat; [reflexivity|].
  unfold omitemptyInt64.
  repeat match goal with
         | |- context [if ?b then _ else _] => destruct b
         end; repeat constructor.
Qed.

Lemma height_Marshal (nilFiles nilDirs : bool) (m : Manifest) :
  (height (Marshal nilFiles nilDirs m) <= maxNestingDepth)%N.
Proof.
  pose proof (height_marshalSlice marshalFile nilFiles (Files m) height_marshalFile).
  pose proof (height_marshalSlice marshalDir nilDirs (Directories m) height_marshalDir).
  unfold Marshal, maxNestingDepth. cbn [height fold_right snd]. lia.
Qed.

(** The text that [json.Marshal] writes for a manifest whose strings are
    valid UTF-8 is read by [json.Unmarshal] as the manifest. *)
Theorem json_Unmarshal_Marshal (nilFiles nilDirs : bool) (m : Manifest) :
  manifest_encodable m ->
  json_Unmarshal scan (encode (Marshal nilFiles nilDirs m)) = Some m.
Proof.
  intros Henc. unfold json_Unmarshal.
  rewrite (scan_encode _ (printable_Marshal nilFiles nilDirs m Henc)
             (height_Marshal nilFiles nilDirs m)).
  cbn [mbind option_bind]. apply Unmarshal_Marshal, Henc.
Qed.

End RoundTrip.

(** ** The scanner and the decoder at work *)

(** What the scanner reads, and what it refuses: a number that starts with
    a zero, a comma before the end of an array, a sign or a point without
    digits, a literal cut short or run on, a second value, and no value. *)
Lemma scan_examples :
  encoding_json.scan "[1, -20 ,3]"
  = Some (JArray [JNumber 1; JNumber (-20); JNumber 3])
  /\ encoding_json.scan " null " = Some JNull
  /\ encoding_json.scan "1.5e3" = Some (JFloat "1.5e3")
  /\ encoding_json.scan "[[],{}, true]"
     = Some (JArray [JArray []; JObject []; JBool true])
  /\ encoding_json.scan "01" = None
  /\ encoding_json.scan "[1,]" = None
  /\ encoding_json.scan "-" = None
  /\ encoding_json.scan "1." = None
  /\ encoding_json.scan "nul" = None
  /\ encoding_json.scan "truex" = None
  /\ encoding_json.scan "1 2" = None
  /\ encoding_json.scan "" = None.
Proof. repeat apply conj; vm_compute; reflexivity. Qed.

(** Escapes in a string literal: U+00E9 is read as its two bytes, a
    surrogate pair as the four bytes of its rune, a surrogate without its
    pair as U+FFFD; and the encoder escapes what HTML escaping covers. *)
Lemma string_examples :
  let quoted := fun s : string => String "034" (s +:+ String "034" "") in
  encoding_json.scan (quoted "a\u00e9\n")
  = Some (JString (String "a" (String "195" (String "169" (String "010" "")))))
  /\ encoding_json.scan (quoted "\ud83d\ude00")
     = Some (JString (String "240" (String "159" (String "152" (String "128" "")))))
  /\ encoding_json.scan (quoted "\ud83d")
     = Some (JString (String "239" (String "191" (String "189" ""))))
  /\ encoding_json.scan (quoted (String "010" "")) = None
  /\ encoding_json.encode (JString "<a&b>") = quoted "\u003ca\u0026b\u003e"
  /\ encoding_json.encode (JString (String "a" (String "034" (String "009" ""))))
     = quoted (String "a" (String "\" (String "034" "\t"))).
Proof. cbv zeta. repeat apply conj; vm_compute; reflexivity. Qed.

(** A key that comes more than once.  An array is decoded into the elements
    the slice has: the second and the third array below are decoded into
    the entries of the first, and the entry that the second array cut off
    is met again by the third.  After [null], and after an array without
    elements, nothing of what was decoded before is left. *)
Lemma Unmarshal_repeated_key :
  let entry := fun (fId : string) (more : list (string * json)) =>
    JObject (("file_id", JString fId) :: more) in
  let first :=
    ("files", JArray [entry "file-1" [("parent", JString "/a")];
                      entry "file-2" [("parent", JString "/b")]]) in
  encoding_json.Unmarshal
    (JObject [first;
              ("files", JArray [entry "file-3" []]);
              ("files", JArray [entry "file-4" []; entry "file-5" []])])
  = Some (mkManifest [ManifestFile.mk "" "file-4" "/a" "" 0 0 0;
                      ManifestFile.mk "" "file-5" "/b" "" 0 0 0] [])
  /\ encoding_json.Unmarshal
       (JObject [first; ("files", JNull); ("files", JArray [entry "file-3" []])])
     = Some (mkManifest [ManifestFile.mk "" "file-3" "" "" 0 0 0] [])
  /\ encoding_json.Unmarshal
       (JObject [first; ("files", JArray []); ("files", JArray [entry "file-3" []])])
     = Some (mkManifest [ManifestFile.mk "" "file-3" "" "" 0 0 0] [])
  /\ encoding_json.Unmarshal (JObject [first; ("files", JNull)])
     = Some (mkManifest [] []).
Proof. cbv zeta. repeat apply conj; vm_compute; reflexivity. Qed.

(** A nil slice is written [null] and any other slice as an array. *)
Lemma Marshal_nil_examples :
  encoding_json.encode (encoding_json.Marshal true true (mkManifest [] []))
  = "{" +:+ String "034" "files" +:+ String "034" ":null,"
        +:+ String "034" "directories" +:+ String "034" ":null}"
  /\ encoding_json.encode (encoding_json.Marshal false false (mkManifest [] []))
     = "{" +:+ String "034" "files" +:+ String "034" ":[],"
           +:+ String "034" "directories" +:+ String "034" ":[]}".
Proof. split; vm_compute; reflexivity. Qed.

Lemma cleanFile_idempotent (fl : ManifestFile.t) :
  absolute (ManifestFile.Parent fl) -> cleanFile (cleanFile fl) = cleanFile fl.
Proof.
  intros [s Hs]. unfold cleanFile. cbn. rewrite Hs, Clean_idempotent_rooted. reflexivity.
Qed.

Lemma cleanDir_idempotent (d : ManifestDir.t) :
  absolute (ManifestDir.Dirname d) -> cleanDir (cleanDir d) = cleanDir d.
Proof.
  intros [s Hs]. unfold cleanDir. cbn. rewrite Hs, Clean_idempotent_rooted. reflexivity.
Qed.

(** [Manifest.Clean] changes nothing the second time. *)
Lemma Clean_idempotent (m : Manifest) :
  paths_absolute m -> Clean (Clean m) = Clean m.
Proof.
  intros [Hf Hd]. unfold Clean. cbn [Files Directories]. f_equal.
  - rewrite <- list_fmap_compose. apply Forall_fmap_ext_1.
    eapply Forall_impl; [exact Hf|]. intros fl. apply cleanFile_idempotent.
  - rewrite <- list_fmap_compose. apply Forall_fmap_ext_1.
    eapply Forall_impl; [exact Hd|]. intros d. apply cleanDir_idempotent.
Qed.

Section ReadManifestFacts.

Variable ioutil_ReadFile : string -> option string.
Variable json_scan : string -> option json.

(** C6.  A manifest with a file entry whose project id is "foo-123" is
    rejected by [Validate] with an InvalidManifest error, and so
    [ReadManifest] returns that error for a file that holds such a
    manifest.  Neither function calls the platform: the describe calls are
    parameters of [FillInMissingFields] alone. *)
Theorem Validate_rejects_foo (m : Manifest) (fl : ManifestFile.t) :
  fl ∈ Files m -> ManifestFile.ProjId fl = "foo-123" ->
  (exists e, Validate m = Some e /\ error_kind e = InvalidManifest)
  /\ (forall fname data,
        ioutil_ReadFile fname = Some data ->
        json_Unmarshal json_scan data = Some m ->
        exists e, ReadManifest ioutil_ReadFile json_scan fname = Err e
          /\ error_kind e = InvalidManifest).
Proof.
  intros Hfl Hproj. destruct (Validate_foo m fl Hfl Hproj) as (e & Hv & Hk).
  split; [exists e; auto|]. intros fname data Hread Hjson.
  exists e. split; [|exact Hk].
  unfold ReadManifest. rewrite Hread, Hjson, Hv. reflexivity.
Qed.

(** C7, as amended.  For a manifest that passes [Validate] and whose strings
    are valid UTF-8 (its numbers being [int64], as the type of the fields
    has it), the text that [json.Marshal] writes for it, a slice without
    elements being nil or not, is read back by [json.Unmarshal] as the
    manifest itself, no entry and no field lost; [ReadManifest] on a file
    that holds the text returns [Clean(m)]; and [Clean] changes nothing when
    applied again.  The text is the one of the encoder of [encoding/json]
    and is read by its scanner. *)
Theorem ReadManifest_round_trip (fname : string) (nilFiles nilDirs : bool)
    (m : Manifest) :
  ioutil_ReadFile fname
  = Some (encoding_json.encode (encoding_json.Marshal nilFiles nilDirs m)) ->
  manifest_encodable m ->
  Validate m = None ->
  json_Unmarshal encoding_json.scan
    (encoding_json.encode (encoding_json.Marshal nilFiles nilDirs m)) = Some m
  /\ ReadManifest ioutil_ReadFile encoding_json.scan fname = Ok (Clean m)
  /\ Clean (Clean m) = Clean m.
Proof.
  intros Hread Henc Hvalid.
  pose proof (json_Unmarshal_Marshal nilFiles nilDirs m Henc) as Hround.
  split; [exact Hround|]. split.
  - unfold ReadManifest. rewrite Hread, Hround, Hvalid. reflexivity.
  - apply Clean_idempotent, Validate_absolute, Hvalid.
Qed.

End ReadManifestFacts.

(** Two manifests that do not come back.  One that [Validate] rejects:
    [ReadManifest] returns the error and no manifest.  And one that
    [Validate] accepts, with a parent path that holds the byte 255, which is
    no UTF-8: the encoder writes the escape of U+FFFD in its place, and
    [ReadManifest] returns a manifest whose parent path holds the three
    bytes of U+FFFD, which is not [Clean(m)]. *)
Lemma ReadManifest_round_trip_fails :
  let rejected := mkManifest [ManifestFile.mk "foo-123" "file-1" "/a" "" 0 0 0] [] in
  let bytes :=
    mkManifest [ManifestFile.mk "project-1" "file-1" (String "/" (String "255" ""))
                  "" 0 0 0] [] in
  let read := fun (m : Manifest) (_ : string) =>
    Some (encoding_json.encode (encoding_json.Marshal false false m)) in
  ReadManifest (read rejected) encoding_json.scan "manifest.json"
  = Err (ErrProjectInvalidID "foo-123")
  /\ Validate bytes = None
  /\ ReadManifest (read bytes) encoding_json.scan "manifest.json"
     = Ok (mkManifest
             [ManifestFile.mk "project-1" "file-1"
                (String "/" (String "239" (String "191" (String "189" ""))))
                "" 0 0 0] [])
  /\ ReadManifest (read bytes) encoding_json.scan "manifest.json"
     <> Ok (Clean bytes).
Proof.
  cbv zeta. split; [vm_compute; reflexivity|]. split; [reflexivity|].
  split; [vm_compute; reflexivity|]. vm_compute. discriminate.
Qed.

(** ** The theorems at work *)

Lemma elements_perm (s : gset string) : elements s ≡ₚ elements s.
Proof. reflexivity. Qed.

Lemma example_dirs_absolute (paths : list string) :
  Forall absolute paths ->
  paths_absolute (mkManifest [] (map example_dir paths)).
Proof.
  intros H. split; [constructor|]. cbn [Directories].
  apply Forall_fmap. exact H.
Qed.

Lemma DirSkeleton_S1_witness :
  DirSkeleton elements sort_by_merge
    (mkManifest [] [example_dir "/A/B"; example_dir "/D"; example_dir "/A/E"])
  = Ok ["/A"].
Proof.
  apply (DirSkeleton_S1 elements sort_by_merge elements_perm
           (sort_by_merge_perm Dirs_Less)); reflexivity.
Defined.

Lemma DirSkeleton_parents_first_witness :
  let m := mkManifest [example_file "/A/B/C"] [example_dir "/D/E"] in
  let out := ["/A"; "/D"; "/A/B"; "/A/B/C"] in
  DirSkeleton elements sort_by_merge m = Ok out
  /\ StronglySorted slashes_le out
  /\ forall (i j : nat) (p q : string),
       out !! i = Some p -> out !! j = Some q -> ancestor_dir p q -> i < j.
Proof.
  cbv zeta. split; [vm_compute; reflexivity|].
  apply (DirSkeleton_parents_first elements sort_by_merge sort_by_merge_sorted
           (mkManifest [example_file "/A/B/C"] [example_dir "/D/E"])).
  vm_compute. reflexivity.
Defined.

Lemma DirSkeleton_nested_mount_witness :
  let m := mkManifest [] (map example_dir ["/A"; "/A/B"]) in
  paths_absolute m /\ NoDup (mounts m)
  /\ "/A" ∈ mounts m /\ "/A/B" ∈ mounts m
  /\ exists e, DirSkeleton elements sort_by_merge m = Err e
       /\ error_kind e = IllegalMountNotLeaf.
Proof.
  cbv zeta.
  assert (paths_absolute (mkManifest [] (map example_dir ["/A"; "/A/B"]))) as Habs.
  { apply example_dirs_absolute. repeat constructor; eexists; reflexivity. }
  assert (NoDup (mounts (mkManifest [] (map example_dir ["/A"; "/A/B"])))) as Hnd.
  { apply (bool_decide_unpack _). vm_compute. exact I. }
  assert ("/A" ∈ mounts (mkManifest [] (map example_dir ["/A"; "/A/B"]))) as HA.
  { apply (bool_decide_unpack _). vm_compute. exact I. }
  assert ("/A/B" ∈ mounts (mkManifest [] (map example_dir ["/A"; "/A/B"]))) as HAB.
  { apply (bool_decide_unpack _). vm_compute. exact I. }
  repeat (split; [assumption|]).
  exact (DirSkeleton_nested_mount elements sort_by_merge _ Habs Hnd HA HAB).
Defined.

(** With "/A/B" mounted twice the call fails with DuplicateMount, although
    "/A" and "/A/B" are both mounted: the mount paths are checked for
    duplicates before they are checked for leaves. *)
Lemma DirSkeleton_nested_mount_counterexample :
  let m := mkManifest [] (map example_dir ["/A"; "/A/B"; "/A/B"]) in
  Validate m = None
  /\ "/A" ∈ mounts m /\ "/A/B" ∈ mounts m
  /\ DirSkeleton_run m = Err (ErrDirectoryUsedTwice "/A/B")
  /\ error_kind (ErrDirectoryUsedTwice "/A/B") <> IllegalMountNotLeaf.
Proof.
  cbv zeta. split; [reflexivity|].
  split; [apply (bool_decide_unpack _); vm_compute; exact I|].
  split; [apply (bool_decide_unpack _); vm_compute; exact I|].
  split; [vm_compute; reflexivity|discriminate].
Qed.

Lemma DirSkeleton_duplicate_mount_witness :
  let m := mkManifest [] (map example_dir ["/X"; "/X"]) in
  Validate m = None
  /\ exists x, x ∈ mounts m
       /\ DirSkeleton elements sort_by_merge m = Err (ErrDirectoryUsedTwice x)
       /\ error_kind (ErrDirectoryUsedTwice x) = DuplicateMount.
Proof.
  cbv zeta. split; [reflexivity|].
  apply (DirSkeleton_duplicate_mount elements sort_by_merge _ 0 1
           (example_dir "/X") (example_dir "/X"));
    [reflexivity|reflexivity|reflexivity|lia|reflexivity].
Defined.

Lemma DirSkeleton_root_mount_witness :
  let m := mkManifest [] (map example_dir ["/"]) in
  paths_absolute m /\ "/" ∈ mounts m
  /\ exists e, DirSkeleton elements sort_by_merge m = Err e
       /\ error_kind e = if decide (NoDup (mounts m)) then IllegalMountNotLeaf
                         else DuplicateMount.
Proof.
  cbv zeta.
  assert (paths_absolute (mkManifest [] (map example_dir ["/"]))) as Habs.
  { apply example_dirs_absolute. repeat constructor; eexists; reflexivity. }
  assert ("/" ∈ mounts (mkManifest [] (map example_dir ["/"]))) as Hroot.
  { apply (bool_decide_unpack _). vm_compute. exact I. }
  repeat (split; [assumption|]).
  exact (DirSkeleton_root_mount elements sort_by_merge _ Habs Hroot).
Defined.

(** A mount at "/" is rejected as a mount that is not a leaf. *)
Lemma DirSkeleton_root_mount_counterexample :
  let m := mkManifest [] (map example_dir ["/"]) in
  mounts m = ["/"] /\ Validate m = None
  /\ DirSkeleton_run m = Err (ErrNotLeaf "/" ["/"])
  /\ error_kind (ErrNotLeaf "/" ["/"]) <> InvalidMountPath.
Proof.
  cbv zeta. split; [reflexivity|]. split; [reflexivity|].
  split; [vm_compute; reflexivity|discriminate].
Qed.


Lemma Validate_iff_witness :
  let m := mkManifest [example_file "/a"] [example_dir "/b"] in
  (Validate m = None <-> manifest_ok m)
  /\ (~ manifest_ok m ->
      exists e, Validate m = Some e /\ error_kind e = InvalidManifest).
Proof. exact (Validate_iff (mkManifest [example_file "/a"] [example_dir "/b"])). Defined.

Lemma Validate_rejects_foo_witness :
  let fl := ManifestFile.mk "foo-123" "file-1" "/a" "" 0 0 0 in
  let m := mkManifest [example_file "/b"; fl] [] in
  let text := encoding_json.encode (encoding_json.Marshal false false m) in
  fl ∈ Files m /\ ManifestFile.ProjId fl = "foo-123"
  /\ (exists e, Validate m = Some e /\ error_kind e = InvalidManifest)
  /\ (forall fname data,
        Some text = Some data ->
        json_Unmarshal encoding_json.scan data = Some m ->
        exists e, ReadManifest (fun _ => Some text) encoding_json.scan fname = Err e
          /\ error_kind e = InvalidManifest).
Proof.
  cbv zeta.
  assert (ManifestFile.mk "foo-123" "file-1" "/a" "" 0 0 0
          ∈ Files (mkManifest [example_file "/b";
                               ManifestFile.mk "foo-123" "file-1" "/a" "" 0 0 0] []))
    as Hin by (apply list_elem_of_further, list_elem_of_here).
  split; [exact Hin|]. split; [reflexivity|].
  exact (Validate_rejects_foo (fun _ => Some _) encoding_json.scan _ _ Hin eq_refl).
Defined.

Lemma ReadManifest_round_trip_witness :
  let m := mkManifest [ManifestFile.mk "project-1" "file-1" "/a/../b/" "" 0 0 0]
             [ManifestDir.mk "container-2" "/" "/c//d" 5 6] in
  let text := encoding_json.encode (encoding_json.Marshal false false m) in
  let read := fun _ : string => Some text in
  manifest_encodable m /\ Validate m = None
  /\ json_Unmarshal encoding_json.scan text = Some m
  /\ ReadManifest read encoding_json.scan "manifest.json" = Ok (Clean m)
  /\ Clean (Clean m) = Clean m.
Proof.
  cbv zeta.
  set (m := mkManifest [ManifestFile.mk "project-1" "file-1" "/a/../b/" "" 0 0 0]
              [ManifestDir.mk "container-2" "/" "/c//d" 5 6]).
  assert (manifest_encodable m) as Henc.
  { split; repeat constructor. }
  assert (Validate m = None) as Hv by reflexivity.
  split; [exact Henc|]. split; [exact Hv|].
  exact (ReadManifest_round_trip
           (fun _ => Some (encoding_json.encode (encoding_json.Marshal false false m)))
           "manifest.json" false false m eq_refl Henc Hv).
Defined.




(* ================================================================== *)
(** * Part III: more properties

    Properties of the code that Part II leaves aside: the rest of
    [manifest.go] ([MakeManifestFromProjectIds], the sort interface of
    [Dirs]), the two utility functions of [defs.go], and more of what
    [ancestors], [DirSkeleton], [Clean], [ReadManifest] and
    [FillInMissingFields] do. *)
(* ================================================================== *)

(** ** More on ancestors *)

(** Whatever the path and the depth allowed, [ancestors] overflows or
    returns a list that starts with the root. *)
Lemma ancestors_depth_outcome (fuel : nat) (p : string) :
  ancestors_depth fuel p = StackOverflow
  \/ exists rest, ancestors_depth fuel p = Ok ("/" :: rest).
Proof.
  revert p. induction fuel as [|fuel IH]; intros p; [left; reflexivity|].
  rewrite ancestors_depth_S. destruct (_ || _); [right; exists []; reflexivity|].
  destruct (IH (filepath.Dir p)) as [->|[rest ->]]; [left; reflexivity|].
  right. exists (rest ++ [filepath.Clean p])%list. reflexivity.
Qed.

Lemma path_cases (p : string) : p = "" \/ absolute p \/ relative p.
Proof.
  destruct p as [|c rest]; [left; reflexivity|]. right.
  destruct (filepath.IsPathSeparator c) eqn:Hc.
  - left. exists rest. f_equal. unfold filepath.IsPathSeparator in Hc.
    apply Ascii.eqb_eq in Hc. exact Hc.
  - right. exists c, rest. split; [reflexivity|exact Hc].
Qed.

(** X1.  [ancestors] returns exactly on the empty path and on the paths that
    start with a separator, and then a list that starts with the root; on
    any other path the recursion never ends.  Its panic is dead code, at any
    depth. *)
Theorem ancestors_outcome (p : string) :
  (p = "" \/ absolute p -> exists rest, ancestors p = Ok ("/" :: rest))
  /\ (p <> "" -> ~ absolute p ->
      forall fuel, ancestors_depth fuel p = StackOverflow)
  /\ (forall fuel, ancestors_depth fuel p <> Panic)
  /\ (forall fuel e, ancestors_depth fuel p <> Err e).
Proof.
  split; [|split; [|split]].
  - intros [->|Habs]; [exists []; reflexivity|].
    destruct (ancestors_absolute_Ok p Habs) as (ps & Hps & _).
    destruct (ancestors_depth_outcome (S (String.length p)) p) as [H|H]; [|exact H].
    unfold ancestors in Hps. congruence.
  - intros Hne Hnabs fuel. destruct (path_cases p) as [H|[H|H]]; [contradiction..|].
    apply ancestors_relative, H.
  - intros fuel. destruct (ancestors_depth_outcome fuel p) as [H|[rest H]]; congruence.
  - intros fuel e. destruct (ancestors_depth_outcome fuel p) as [H|[rest H]]; congruence.
Qed.

Lemma elem_of_inits {A : Type} (l pre : list A) :
  pre ∈ inits l <-> pre `prefix_of` l.
Proof.
  revert pre. induction l as [|x l IH]; intros pre.
  - simpl. rewrite list_elem_of_singleton. split.
    + intros ->. exists []. reflexivity.
    + intros [k Hk]. destruct pre; [reflexivity|discriminate].
  - change (inits (x :: l)) with ([] :: map (cons x) (inits l)).
    rewrite elem_of_cons, list_elem_of_fmap. split.
    + intros [->|(pre' & -> & Hin)]; [apply prefix_nil|].
      apply prefix_cons, IH, Hin.
    + intros Hpre. destruct pre as [|y pre]; [left; reflexivity|]. right.
      destruct Hpre as [k Hk]. injection Hk as <- ->.
      exists pre. split; [reflexivity|]. apply IH. exists k. reflexivity.
Qed.

Lemma above_or_self_inits (x q : string) :
  x ∈ map render (inits (names_of q)) <-> above_or_self x q.
Proof.
  unfold above_or_self. rewrite list_elem_of_fmap. split.
  - intros (pre & -> & Hin). exists pre. split; [apply elem_of_inits, Hin|reflexivity].
  - intros (pre & Hpre & ->). exists pre. split; [reflexivity|apply elem_of_inits, Hpre].
Qed.

Lemma Dir_root : filepath.Dir "/" = "/".
Proof. reflexivity. Qed.

(** The elements of [ancestors(p)], for an absolute [p]. *)
Lemma elem_of_ancestors (p : string) (ps : list string) (x : string) :
  absolute p -> ancestors p = Ok ps ->
  x ∈ ps <-> above_or_self x (filepath.Dir p) \/ x = filepath.Clean p.
Proof.
  intros Hp Hps. destruct (decide (p = "/")) as [->|Hroot].
  - injection Hps as <-. rewrite list_elem_of_singleton. split; [auto|].
    intros [(pre & Hpre & ->)| ->]; [|reflexivity].
    destruct Hpre as [k Hk]. destruct pre; [reflexivity|discriminate].
  - rewrite ancestors_absolute in Hps by assumption. injection Hps as <-.
    rewrite elem_of_app, above_or_self_inits, list_elem_of_singleton. reflexivity.
Qed.

Lemma names_prefix (pre cs : list string) :
  pre `prefix_of` cs -> names cs -> names pre.
Proof. intros [k ->] H. apply Forall_app in H. tauto. Qed.

Lemma render_canonical (cs : list string) : names cs -> canonical (render cs).
Proof. intros H. split; [eexists; reflexivity|apply Clean_render, H]. Qed.

Lemma Clean_canonical (p : string) : absolute p -> canonical (filepath.Clean p).
Proof.
  intros Hp. rewrite (Clean_absolute p Hp). apply render_canonical, names_of_names.
Qed.

Lemma canonical_render (p : string) :
  canonical p -> p = render (names_of p).
Proof. intros [Habs Hc]. rewrite <- (Clean_absolute p Habs). symmetry. exact Hc. Qed.

Lemma above_or_self_canonical (x q : string) : above_or_self x q -> canonical x.
Proof.
  intros (pre & Hpre & ->). apply render_canonical.
  eapply names_prefix; [exact Hpre|apply names_of_names].
Qed.

(** X2.  what [ancestors] returns on an absolute path holds absolute paths in
    canonical form only, and no more of them than the path has bytes, plus
    one. *)
Theorem ancestors_canonical_elements (p : string) :
  absolute p ->
  exists ps, ancestors p = Ok ps
    /\ Forall canonical ps
    /\ length ps <= S (String.length p).
Proof.
  intros Hp. destruct (decide (p = "/")) as [->|Hroot].
  - exists ["/"]. split; [reflexivity|]. split; [|simpl; lia].
    constructor; [|constructor]. split; [exists ""; reflexivity|reflexivity].
  - rewrite ancestors_absolute by assumption. eexists. split; [reflexivity|]. split.
    + apply Forall_app. split.
      * apply Forall_forall. intros x Hx. apply above_or_self_inits in Hx.
        eapply above_or_self_canonical, Hx.
      * constructor; [apply Clean_canonical, Hp|constructor].
    + rewrite length_app, length_map, length_inits. simpl.
      destruct (Dir_absolute p Hp) as [_ Hw].
      pose proof (weight_names _ (names_of_names (filepath.Dir p))).
      destruct Hp as [s ->]. cbn [String.length] in *. lia.
Qed.

(** X3.  on a path in canonical form, [ancestors] returns the path of every
    prefix of its names, the shortest first: "/", "/a", "/a/b" for
    "/a/b". *)
Theorem ancestors_of_canonical (p : string) :
  canonical p ->
  ancestors p = Ok (map render (inits (names_of p)))
  /\ (forall x, x ∈ map render (inits (names_of p)) <-> above_or_self x p).
Proof.
  intros Hp. split; [|intros x; apply above_or_self_inits].
  rewrite (canonical_render p Hp) at 1. apply ancestors_canonical, names_of_names.
Qed.

(** ** DirSkeleton: what the tree holds *)

Lemma above_or_self_refl (q : string) : canonical q -> above_or_self q q.
Proof.
  intros Hq. exists (names_of q). split; [reflexivity|apply canonical_render, Hq].
Qed.

(** The directory part of a path with a separator ends with a separator, so
    it is its own parent. *)
Lemma dirParent_spec (d : string) :
  absolute d ->
  filepath.Dir (fst (filepath.Split d)) = filepath.Dir d
  /\ filepath.Clean (fst (filepath.Split d)) = filepath.Dir d.
Proof.
  intros [s ->].
  destruct (last_separator_exists (String "/" s)) as [H|(a & c & -> & Hc)];
    [discriminate|].
  rewrite Split_decomp, Dir_decomp by exact Hc. cbn [fst].
  change (a +:+ "/") with (a +:+ String "/" ""). rewrite Dir_decomp by reflexivity.
  split; reflexivity.
Qed.

Lemma elem_of_dir_ancestors (d : string) (ps : list string) (x : string) :
  absolute d -> ancestors (fst (filepath.Split d)) = Ok ps ->
  x ∈ ps <-> above_or_self x (filepath.Dir d).
Proof.
  intros Hd Hps. destruct (dirParent_spec d Hd) as [HDir HClean].
  rewrite (elem_of_ancestors _ ps x (dirParent_absolute d Hd) Hps), HDir, HClean.
  split; [|auto]. intros [H| ->]; [exact H|].
  apply above_or_self_refl. rewrite <- HClean.
  apply Clean_canonical, dirParent_absolute, Hd.
Qed.

Lemma recordFileParents_tree (files : list ManifestFile.t) (tree : gset string) :
  Forall (fun fl => absolute (ManifestFile.Parent fl)) files ->
  exists tree', recordFileParents files tree = Ok tree'
    /\ forall x, x ∈ tree' <->
         x ∈ tree
         \/ exists fl, fl ∈ files
              /\ (above_or_self x (filepath.Dir (ManifestFile.Parent fl))
                  \/ x = filepath.Clean (ManifestFile.Parent fl)).
Proof.
  revert tree. induction files as [|fl files IH]; intros tree Habs.
  - exists tree. split; [reflexivity|]. intros x. split; [auto|].
    intros [H|(fl & Hfl & _)]; [exact H|inversion Hfl].
  - apply Forall_cons in Habs as [Hfl Habs].
    destruct (ancestors_absolute_Ok _ Hfl) as (ps & Hps & _).
    destruct (IH (list_to_set ps ∪ tree) Habs) as (tree' & Hrec & Htree).
    exists tree'. cbn [recordFileParents]. rewrite Hps. cbn [mbind outcome_bind].
    split; [exact Hrec|]. intros x. rewrite Htree, elem_of_union, elem_of_list_to_set.
    rewrite (elem_of_ancestors _ ps x Hfl Hps). split.
    + intros [[H|H]|(fl' & Hfl' & H)]; [|auto|].
      * right. exists fl. split; [apply list_elem_of_here|exact H].
      * right. exists fl'. split; [apply list_elem_of_further, Hfl'|exact H].
    + intros [H|(fl' & Hfl' & H)]; [auto|].
      apply elem_of_cons in Hfl' as [->|Hfl']; [auto|]. right. exists fl'. auto.
Qed.

Lemma recordDirParents_tree (dirs : list ManifestDir.t) :
  forall tree allDirs : gset string,
  Forall (fun d => absolute (ManifestDir.Dirname d)) dirs ->
  fresh_mounts (map ManifestDir.Dirname dirs) allDirs ->
  exists tree' allDirs',
    recordDirParents dirs tree allDirs = Ok (tree', allDirs')
    /\ forall x, x ∈ tree' <->
         x ∈ tree
         \/ exists d, d ∈ dirs
              /\ above_or_self x (filepath.Dir (ManifestDir.Dirname d)).
Proof.
  induction dirs as [|d dirs IH]; intros tree allDirs Habs Hfresh.
  - exists tree, allDirs. split; [reflexivity|]. intros x. split; [auto|].
    intros [H|(d & Hd & _)]; [exact H|inversion Hd].
  - apply Forall_cons in Habs as [Hd Habs].
    cbn [map] in Hfresh. apply fresh_mounts_cons in Hfresh as [Hnin Hfresh].
    destruct (ancestors_absolute_Ok _ (dirParent_absolute _ Hd)) as (ps & Hps & _).
    rewrite (recordDirParents_cons d dirs tree allDirs ps Hps).
    rewrite decide_False by exact Hnin.
    destruct (IH (list_to_set ps ∪ tree) _ Habs Hfresh)
      as (tree' & allDirs' & Hrec & Htree).
    exists tree', allDirs'. split; [exact Hrec|].
    intros x. rewrite Htree, elem_of_union, elem_of_list_to_set.
    rewrite (elem_of_dir_ancestors _ ps x Hd Hps). split.
    + intros [[H|H]|(d' & Hd' & H)]; [|auto|].
      * right. exists d. split; [apply list_elem_of_here|exact H].
      * right. exists d'. split; [apply list_elem_of_further, Hd'|exact H].
    + intros [H|(d' & Hd' & H)]; [auto|].
      apply elem_of_cons in Hd' as [->|Hd']; [auto|]. right. exists d'. auto.
Qed.

Section DirSkeletonTree.

Variable range_keys : gset string -> list string.
Variable sort_Sort : (string -> string -> bool) -> list string -> list string.

(** On absolute paths and distinct mounts, the call comes down to the check
    of the leaves against a tree that holds exactly the paths of
    [in_tree]. *)
Lemma DirSkeleton_tree (m : Manifest) :
  paths_absolute m -> NoDup (mounts m) ->
  exists tree : gset string,
    (forall x, x ∈ tree <-> in_tree m x)
    /\ DirSkeleton range_keys sort_Sort m
       = match checkLeaves (Directories m) tree
                 (sort_Sort Dirs_Less (range_keys tree)) with
         | Some err => Err err
         | None => Ok (filter (fun e => e ≠ "/")
                         (sort_Sort Dirs_Less (range_keys tree)))
         end.
Proof.
  intros [Hfiles Hdirs] Hnd. unfold DirSkeleton.
  destruct (recordFileParents_tree (Files m) ∅ Hfiles) as (tree0 & -> & Htree0).
  cbn [mbind outcome_bind].
  destruct (recordDirParents_tree (Directories m) tree0 ∅ Hdirs)
    as (tree & allDirs & -> & Htree).
  { split; [exact Hnd|]. apply Forall_forall. set_solver. }
  exists tree. split; [|reflexivity].
  intros x. rewrite Htree, Htree0. unfold in_tree. set_solver.
Qed.

(** X4.  on a manifest with absolute paths, what [DirSkeleton] does is decided
    by the mount paths: DuplicateMount when one occurs twice; otherwise
    IllegalMountNotLeaf when one is in the tree; otherwise a list. *)
Theorem DirSkeleton_outcome (m : Manifest) :
  paths_absolute m ->
  (~ NoDup (mounts m) ->
     exists x, x ∈ mounts m
       /\ DirSkeleton range_keys sort_Sort m = Err (ErrDirectoryUsedTwice x))
  /\ (NoDup (mounts m) -> (exists x, x ∈ mounts m /\ in_tree m x) ->
      exists x elems, x ∈ mounts m /\ in_tree m x
        /\ DirSkeleton range_keys sort_Sort m = Err (ErrNotLeaf x elems))
  /\ (NoDup (mounts m) -> (forall x, x ∈ mounts m -> ~ in_tree m x) ->
      exists out, DirSkeleton range_keys sort_Sort m = Ok out).
Proof.
  intros Habs. split; [|split].
  - intros Hdup. pose proof (DirSkeleton_absolute range_keys sort_Sort m Habs) as H.
    rewrite decide_False in H by exact Hdup. exact H.
  - intros Hnd (x & Hx & Hin).
    destruct (DirSkeleton_tree m Habs Hnd) as (tree & Htree & ->).
    destruct (checkLeaves _ _ _) as [e|] eqn:Hleaves.
    + apply checkLeaves_Some in Hleaves as (d & Hd & Hdt & ->).
      eexists _, _. split; [|split; [|reflexivity]].
      * apply elem_of_mounts. eauto.
      * apply Htree, Hdt.
    + exfalso. rewrite checkLeaves_None in Hleaves.
      apply elem_of_mounts in Hx as (d & Hd & <-).
      apply (Hleaves d Hd), Htree, Hin.
  - intros Hnd Hleaf.
    destruct (DirSkeleton_tree m Habs Hnd) as (tree & Htree & ->).
    destruct (checkLeaves _ _ _) as [e|] eqn:Hleaves; [|eauto].
    exfalso. apply checkLeaves_Some in Hleaves as (d & Hd & Hdt & _).
    apply (Hleaf (ManifestDir.Dirname d)); [apply elem_of_mounts; eauto|].
    apply Htree, Hdt.
Qed.

Hypothesis range_keys_perm : forall tree : gset string,
  range_keys tree ≡ₚ elements tree.
Hypothesis sort_Sort_perm : forall l : list string,
  sort_Sort Dirs_Less l ≡ₚ l.

Lemma DirSkeleton_Ok_tree (m : Manifest) (out : list string) :
  paths_absolute m ->
  DirSkeleton range_keys sort_Sort m = Ok out ->
  exists tree : gset string,
    (forall x, x ∈ tree <-> in_tree m x)
    /\ out = filter (fun e => e ≠ "/") (sort_Sort Dirs_Less (range_keys tree))
    /\ forall d, d ∈ Directories m -> ManifestDir.Dirname d ∉ tree.
Proof.
  intros Habs Hok.
  assert (NoDup (mounts m)) as Hnd.
  { destruct (decide (NoDup (mounts m))) as [H|H]; [exact H|].
    pose proof (DirSkeleton_absolute range_keys sort_Sort m Habs) as H'.
    rewrite decide_False in H' by exact H. destruct H' as (x & _ & Hx).
    rewrite Hx in Hok. discriminate. }
  destruct (DirSkeleton_tree m Habs Hnd) as (tree & Htree & Heq).
  rewrite Heq in Hok. destruct (checkLeaves _ _ _) eqn:Hleaves; [discriminate|].
  injection Hok as <-. exists tree. split; [exact Htree|]. split; [reflexivity|].
  eapply checkLeaves_None, Hleaves.
Qed.

(** X5.  what a successful [DirSkeleton] returns, on absolute paths: every
    path of the tree but the root, each once, all in canonical form; and no
    mount path. *)
Theorem DirSkeleton_content (m : Manifest) (out : list string) :
  paths_absolute m ->
  DirSkeleton range_keys sort_Sort m = Ok out ->
  NoDup out
  /\ (forall x, x ∈ out <-> x ≠ "/" /\ in_tree m x)
  /\ Forall canonical out
  /\ (forall x, x ∈ mounts m -> x ∉ out).
Proof.
  intros Habs Hok.
  destruct (DirSkeleton_Ok_tree m out Habs Hok) as (tree & Htree & -> & Hleaves).
  assert (forall x, x ∈ filter (fun e => e ≠ "/")
                         (sort_Sort Dirs_Less (range_keys tree))
                    <-> x ≠ "/" /\ in_tree m x) as Hmem.
  { intros x. rewrite list_elem_of_filter, sort_Sort_perm, range_keys_perm.
    rewrite elem_of_elements, Htree. reflexivity. }
  split; [|split; [exact Hmem|split]].
  - apply NoDup_filter. rewrite sort_Sort_perm, range_keys_perm. apply NoDup_elements.
  - apply Forall_forall. intros x Hx. apply Hmem in Hx as [_ Hx].
    destruct Hx as [(fl & Hfl & [H| ->])|(d & Hd & H)].
    + eapply above_or_self_canonical, H.
    + apply Clean_canonical. destruct Habs as [Hf _]. rewrite Forall_forall in Hf.
      apply Hf, Hfl.
    + eapply above_or_self_canonical, H.
  - intros x Hx Hout. apply Hmem in Hout as [_ Hin].
    apply elem_of_mounts in Hx as (d & Hd & <-). apply (Hleaves d Hd), Htree, Hin.
Qed.

End DirSkeletonTree.

(** ** DirSkeleton: parents are there, and come first *)

Lemma split_slash_snoc (u c : string) :
  sep_free c = true ->
  split_slash (u +:+ String "/" c) = (split_slash u ++ [c])%list.
Proof.
  intros Hc. induction u as [|x u IH].
  - rewrite append_empty_l. cbn [split_slash].
    change (filepath.IsPathSeparator "/") with true. cbv iota.
    rewrite split_slash_sep_free_id by exact Hc. reflexivity.
  - rewrite append_String. cbn [split_slash]. rewrite IH.
    destruct (filepath.IsPathSeparator x); [reflexivity|].
    destruct (split_slash u) as [|e es] eqn:Hu; [|reflexivity].
    exfalso. eapply split_slash_nonempty, Hu.
Qed.

(** The canonical form of an absolute path is that of its parent, changed
    by the last element of the path. *)
Lemma names_of_Clean_step (p : string) :
  absolute p ->
  names_of (filepath.Clean p)
  = step (names_of (filepath.Dir p)) (snd (filepath.Split p)).
Proof.
  intros [s ->].
  destruct (last_separator_exists (String "/" s)) as [H|(a & c & Heq & Hc)];
    [discriminate|].
  rewrite Clean_rooted, names_of_render by apply normalize_names.
  rewrite Heq, Split_decomp, Dir_decomp by exact Hc. cbn [snd].
  destruct a as [|y a].
  - rewrite append_empty_l in Heq. injection Heq as ->.
    rewrite split_slash_sep_free_id by exact Hc. reflexivity.
  - rewrite append_String in Heq. injection Heq as <- ->.
    rewrite append_String, Clean_rooted, names_of_render by apply normalize_names.
    rewrite split_slash_snoc by exact Hc.
    change "/" with (String "/" ""). rewrite split_slash_snoc by reflexivity.
    unfold normalize. rewrite !foldl_app. reflexivity.
Qed.

Lemma removelast_prefix (l : list string) : removelast l `prefix_of` l.
Proof.
  destruct (decide (l = [])) as [->|Hne]; [reflexivity|].
  exists [List.last l ""]. apply app_removelast_last, Hne.
Qed.

Lemma step_snoc_prefix (N cs : list string) (e c : string) :
  step N e = (cs ++ [c])%list -> cs `prefix_of` N.
Proof.
  unfold step. destruct (_ || _).
  - intros ->. exists [c]. reflexivity.
  - destruct (String.eqb e "..").
    + intros H. transitivity (removelast N); [|apply removelast_prefix].
      rewrite H. exists [c]. reflexivity.
    + intros H. apply app_inj_tail in H as [-> _]. reflexivity.
Qed.

Lemma render_inj (cs cs' : list string) :
  names cs -> names cs' -> render cs = render cs' -> cs = cs'.
Proof.
  intros H H' Heq. rewrite <- (names_of_render cs H), <- (names_of_render cs' H').
  rewrite Heq. reflexivity.
Qed.

(** The tree holds the parent of every path it holds. *)
Lemma in_tree_parent (m : Manifest) (cs : list string) (c : string) :
  paths_absolute m -> names (cs ++ [c]) ->
  in_tree m (render (cs ++ [c])) -> in_tree m (render cs).
Proof.
  intros [Hfiles Hdirs] Hn Hin.
  assert (forall X, above_or_self (render (cs ++ [c])) X -> above_or_self (render cs) X)
    as Hup.
  { intros X (pre & Hpre & Heq). exists cs. split; [|reflexivity].
    apply render_inj in Heq; [|exact Hn|].
    - rewrite <- Heq in Hpre. transitivity (cs ++ [c])%list; [|exact Hpre].
      exists [c]. reflexivity.
    - eapply names_prefix; [exact Hpre|apply names_of_names]. }
  destruct Hin as [(fl & Hfl & [H|H])|(d & Hd & H)].
  - left. exists fl. auto.
  - left. exists fl. split; [exact Hfl|]. left.
    rewrite Forall_forall in Hfiles. specialize (Hfiles fl Hfl).
    exists cs. split; [|reflexivity].
    apply (step_snoc_prefix _ cs (snd (filepath.Split (ManifestFile.Parent fl))) c).
    rewrite <- names_of_Clean_step, <- H by exact Hfiles.
    apply names_of_render, Hn.
  - right. exists d. auto.
Qed.

Section DirSkeletonClosure.

Variable range_keys : gset string -> list string.
Variable sort_Sort : (string -> string -> bool) -> list string -> list string.

Hypothesis range_keys_perm : forall tree : gset string,
  range_keys tree ≡ₚ elements tree.
Hypothesis sort_Sort_perm : forall l : list string,
  sort_Sort Dirs_Less l ≡ₚ l.
Hypothesis sort_Sort_sorted : forall l : list string,
  Sorted (fun a b => Dirs_Less b a = false) (sort_Sort Dirs_Less l).

(** X6.  the list can be created from first to last: the parent of every
    returned path is the root or stands earlier in the list. *)
Theorem DirSkeleton_parent_before (m : Manifest) (out : list string)
    (j : nat) (q : string) :
  paths_absolute m ->
  DirSkeleton range_keys sort_Sort m = Ok out ->
  out !! j = Some q ->
  filepath.Dir q = "/"
  \/ exists i, i < j /\ out !! i = Some (filepath.Dir q).
Proof.
  intros Habs Hok Hj.
  destruct (DirSkeleton_Ok_tree range_keys sort_Sort m out Habs Hok)
    as (tree & Htree & Hout & _).
  assert (forall x, x ∈ out <-> x ≠ "/" /\ in_tree m x) as Hmem.
  { intros x. rewrite Hout, list_elem_of_filter, sort_Sort_perm, range_keys_perm.
    rewrite elem_of_elements, Htree. reflexivity. }
  assert (StronglySorted slashes_le out) as Hsorted.
  { rewrite Hout. apply StronglySorted_filter.
    apply Sorted_StronglySorted; [apply _|].
    eapply Sorted_weaken; [|apply sort_Sort_sorted]. intros a b. apply Dirs_Less_false. }
  assert (q ∈ out) as Hq by (eapply list_elem_of_lookup_2, Hj).
  apply Hmem in Hq as [Hroot Hin].
  assert (canonical q) as Hcan.
  { destruct Hin as [(fl & Hfl & [H| ->])|(d & Hd & H)].
    - eapply above_or_self_canonical, H.
    - apply Clean_canonical. destruct Habs as [Hf _]. rewrite Forall_forall in Hf.
      apply Hf, Hfl.
    - eapply above_or_self_canonical, H. }
  pose proof (canonical_render q Hcan) as Hrender.
  pose proof (names_of_names q) as Hn.
  destruct (names_of q) as [|c cs _] using rev_ind; [contradiction|].
  rewrite Hrender in Hin |- *. rewrite Dir_render_snoc by exact Hn.
  destruct (decide (cs = [])) as [->|Hne]; [left; reflexivity|]. right.
  assert (render cs ∈ out) as Hparent.
  { apply Hmem. split.
    - unfold render. intros [= Hj']. apply join_empty in Hj'; [contradiction|].
      apply Forall_app in Hn. tauto.
    - eapply in_tree_parent; eassumption. }
  apply list_elem_of_lookup in Hparent as [i Hi]. exists i. split; [|exact Hi].
  assert (strings.CountByte (render cs) "/" < strings.CountByte q "/") as Hlt.
  { apply ancestor_dir_slashes. exists c. rewrite Hrender. apply render_snoc, Hne. }
  destruct (Nat.lt_trichotomy i j) as [Hlt'|[->|Hgt]]; [exact Hlt'|..]; exfalso.
  - rewrite Hi in Hj. injection Hj as <-. lia.
  - pose proof (StronglySorted_lookup _ _ _ _ _ _ Hsorted Hgt Hj Hi) as Hle.
    unfold slashes_le in Hle. lia.
Qed.

End DirSkeletonClosure.

(** ** DirSkeleton: what it never does *)

Lemma ancestors_Ok_or_overflow (p : string) :
  ancestors p = StackOverflow \/ exists ps, ancestors p = Ok ps.
Proof.
  destruct (ancestors_depth_outcome (S (String.length p)) p) as [H|[rest H]]; eauto.
Qed.

Lemma recordFileParents_outcome (files : list ManifestFile.t) (tree : gset string) :
  recordFileParents files tree = StackOverflow
  \/ exists tree', recordFileParents files tree = Ok tree'.
Proof.
  revert tree. induction files as [|fl files IH]; intros tree; [right; eauto|].
  cbn [recordFileParents].
  destruct (ancestors_Ok_or_overflow (ManifestFile.Parent fl)) as [->|[ps ->]];
    [left; reflexivity|]. apply IH.
Qed.

Lemma recordDirParents_outcome (dirs : list ManifestDir.t) (tree allDirs : gset string) :
  recordDirParents dirs tree allDirs = StackOverflow
  \/ (exists x, x ∈ map ManifestDir.Dirname dirs
        /\ recordDirParents dirs tree allDirs = Err (ErrDirectoryUsedTwice x))
  \/ exists r, recordDirParents dirs tree allDirs = Ok r.
Proof.
  revert tree allDirs. induction dirs as [|d dirs IH]; intros tree allDirs;
    [right; right; eauto|].
  destruct (ancestors_Ok_or_overflow (fst (filepath.Split (ManifestDir.Dirname d))))
    as [Hso|[ps Hps]].
  - left. cbn [recordDirParents]. destruct (filepath.Split _) as [dirParent file].
    cbn [fst] in Hso. rewrite Hso. reflexivity.
  - rewrite (recordDirParents_cons d dirs tree allDirs ps Hps).
    destruct (decide _) as [Hin|Hnin].
    + right. left. eexists. split; [apply list_elem_of_here|reflexivity].
    + destruct (IH (list_to_set ps ∪ tree) ({[ManifestDir.Dirname d]} ∪ allDirs))
        as [H|[(x & Hx & H)|H]]; [auto| |auto].
      right. left. exists x. split; [apply list_elem_of_further, Hx|exact H].
Qed.

Section DirSkeletonNever.

Variable range_keys : gset string -> list string.
Variable sort_Sort : (string -> string -> bool) -> list string -> list string.

(** X7.  on any manifest, [DirSkeleton] does not panic, and an error it
    returns is a DuplicateMount or an IllegalMountNotLeaf that names a mount
    path of the manifest. *)
Theorem DirSkeleton_errors (m : Manifest) :
  DirSkeleton range_keys sort_Sort m <> Panic
  /\ forall e, DirSkeleton range_keys sort_Sort m = Err e ->
       exists x, x ∈ mounts m
         /\ (e = ErrDirectoryUsedTwice x
             \/ exists elems, e = ErrNotLeaf x elems).
Proof.
  unfold DirSkeleton.
  destruct (recordFileParents_outcome (Files m) ∅) as [->|[tree0 ->]];
    [split; [discriminate|intros e; discriminate]|].
  cbn [mbind outcome_bind].
  destruct (recordDirParents_outcome (Directories m) tree0 ∅)
    as [->|[(x & Hx & ->)|[[tree allDirs] ->]]].
  - split; [discriminate|intros e; discriminate].
  - split; [discriminate|]. intros e [= <-]. exists x. split; [exact Hx|auto].
  - cbn [mbind outcome_bind]. cbv zeta.
    destruct (checkLeaves _ _ _) as [e'|] eqn:Hleaves;
      [|split; [discriminate|intros e; discriminate]].
    split; [discriminate|]. intros e [= <-].
    apply checkLeaves_Some in Hleaves as (d & Hd & _ & ->).
    exists (ManifestDir.Dirname d). split; [apply elem_of_mounts; eauto|eauto].
Qed.

End DirSkeletonNever.

(** ** DirSkeleton: two runs *)

(** The leaf check does not depend on the list it is given, the text of its
    error apart. *)
Lemma checkLeaves_elems (dirs : list ManifestDir.t) (tree : gset string)
    (elems elems' : list string) :
  match checkLeaves dirs tree elems with
  | None => checkLeaves dirs tree elems' = None
  | Some e => exists x, e = ErrNotLeaf x elems
                /\ checkLeaves dirs tree elems' = Some (ErrNotLeaf x elems')
  end.
Proof.
  induction dirs as [|d dirs IH]; [reflexivity|]. cbn [checkLeaves].
  destruct (decide _); [eauto|exact IH].
Qed.

Section DirSkeletonTwoRuns.

Variable range_keys range_keys' : gset string -> list string.
Variable sort_Sort sort_Sort' : (string -> string -> bool) -> list string -> list string.

Hypothesis range_keys_perm : forall tree : gset string,
  range_keys tree ≡ₚ elements tree.
Hypothesis range_keys'_perm : forall tree : gset string,
  range_keys' tree ≡ₚ elements tree.
Hypothesis sort_Sort_perm : forall l : list string,
  sort_Sort Dirs_Less l ≡ₚ l.
Hypothesis sort_Sort'_perm : forall l : list string,
  sort_Sort' Dirs_Less l ≡ₚ l.

(** X8.  the order in which the map is visited and the way the sort breaks
    ties decide the order of the result and nothing else: two runs on the
    same manifest return permutations of the same list, or fail alike (the
    list quoted in the not-a-leaf error being permuted too). *)
Theorem DirSkeleton_two_runs (m : Manifest) :
  match DirSkeleton range_keys sort_Sort m with
  | Ok out => exists out', DirSkeleton range_keys' sort_Sort' m = Ok out'
                /\ out ≡ₚ out'
  | Err (ErrNotLeaf x elems) =>
      exists elems', DirSkeleton range_keys' sort_Sort' m = Err (ErrNotLeaf x elems')
        /\ elems ≡ₚ elems'
  | other => DirSkeleton range_keys' sort_Sort' m = other
  end.
Proof.
  unfold DirSkeleton.
  destruct (recordFileParents_outcome (Files m) ∅) as [->|[tree0 ->]]; [reflexivity|].
  cbn [mbind outcome_bind].
  destruct (recordDirParents_outcome (Directories m) tree0 ∅)
    as [->|[(x & _ & ->)|[[tree allDirs] ->]]]; [reflexivity..|].
  cbn [mbind outcome_bind]. cbv zeta.
  pose proof (checkLeaves_elems (Directories m) tree
                (sort_Sort Dirs_Less (range_keys tree))
                (sort_Sort' Dirs_Less (range_keys' tree))) as H.
  assert (sort_Sort Dirs_Less (range_keys tree)
          ≡ₚ sort_Sort' Dirs_Less (range_keys' tree)) as Hperm.
  { rewrite sort_Sort_perm, sort_Sort'_perm, range_keys_perm, range_keys'_perm.
    reflexivity. }
  destruct (checkLeaves _ _ (sort_Sort _ _)) as [e|].
  - destruct H as (x & -> & ->). eexists. split; [reflexivity|exact Hperm].
  - rewrite H. eexists. split; [reflexivity|]. rewrite Hperm. reflexivity.
Qed.

End DirSkeletonTwoRuns.

(** ** Clean and Validate *)

Lemma canonical_absolute (p : string) : canonical p -> absolute p.
Proof. intros [H _]. exact H. Qed.

Lemma Clean_manifest_ok (m : Manifest) : manifest_ok m -> manifest_ok (Clean m).
Proof.
  intros [Hf Hd]. split; cbn [Clean Files Directories]; apply Forall_fmap.
  - eapply Forall_impl; [exact Hf|]. intros fl (H1 & H2 & H3).
    split; [exact H1|]. split; [exact H2|].
    apply canonical_absolute, Clean_canonical, H3.
  - eapply Forall_impl; [exact Hd|]. intros d (H1 & H2).
    split; [exact H1|]. apply canonical_absolute, Clean_canonical, H2.
Qed.

Lemma Clean_paths_canonical (m : Manifest) :
  paths_absolute m -> paths_canonical (Clean m).
Proof.
  intros [Hf Hd]. split; cbn [Clean Files Directories]; apply Forall_fmap.
  - eapply Forall_impl; [exact Hf|]. intros fl H. apply Clean_canonical, H.
  - eapply Forall_impl; [exact Hd|]. intros d H. apply Clean_canonical, H.
Qed.

Lemma paths_canonical_Clean (m : Manifest) : paths_canonical m -> Clean m = m.
Proof.
  intros [Hf Hd]. destruct m as [files dirs]. unfold Clean. cbn [Files Directories] in *.
  f_equal.
  - induction Hf as [|fl files [_ H] _ IH]; [reflexivity|]. cbn [map]. f_equal; [|exact IH].
    destruct fl. unfold cleanFile. cbn in *. rewrite H. reflexivity.
  - induction Hd as [|d dirs [_ H] _ IH]; [reflexivity|]. cbn [map]. f_equal; [|exact IH].
    destruct d. unfold cleanDir. cbn in *. rewrite H. reflexivity.
Qed.

Lemma paths_canonical_absolute (m : Manifest) : paths_canonical m -> paths_absolute m.
Proof.
  intros [Hf Hd]. split; (eapply Forall_impl; [eassumption|]);
    intros x H; apply canonical_absolute, H.
Qed.

(** X9.  [Clean] keeps a valid manifest valid, leaves the number of entries as
    it is, and puts every parent path and mount path in canonical form; on
    a manifest whose paths are in that form it changes nothing. *)
Theorem Clean_keeps_valid (m : Manifest) :
  Validate m = None ->
  Validate (Clean m) = None
  /\ paths_canonical (Clean m)
  /\ length (Files (Clean m)) = length (Files m)
  /\ length (Directories (Clean m)) = length (Directories m)
  /\ (paths_canonical m -> Clean m = m).
Proof.
  intros Hv. split; [|split; [|split; [|split]]].
  - apply Validate_None, Clean_manifest_ok, Validate_None, Hv.
  - apply Clean_paths_canonical, Validate_absolute, Hv.
  - apply length_map.
  - apply length_map.
  - apply paths_canonical_Clean.
Qed.

(** ** ReadManifest *)

Section ReadManifestOutcome.

Variable ioutil_ReadFile : string -> option string.
Variable json_scan : string -> option json.

Lemma ReadManifest_Ok_inv (fname : string) (m : Manifest) :
  ReadManifest ioutil_ReadFile json_scan fname = Ok m ->
  exists data mRaw, ioutil_ReadFile fname = Some data
    /\ json_Unmarshal json_scan data = Some mRaw
    /\ Validate mRaw = None /\ m = Clean mRaw.
Proof.
  unfold ReadManifest.
  destruct (ioutil_ReadFile fname) as [data|] eqn:Hread; [|discriminate].
  destruct (json_Unmarshal json_scan data) as [mRaw|] eqn:Hjson; [|discriminate].
  destruct (Validate mRaw) eqn:Hv; [discriminate|]. intros [= <-].
  exists data, mRaw. repeat split; assumption.
Qed.

(** X10.  [ReadManifest] panics exactly when the file cannot be read; an error
    it returns is that of the JSON decoder or one of [Validate]; and a
    manifest it returns passes [Validate], has all its paths in canonical
    form, and is left as it is by another [Clean]. *)
Theorem ReadManifest_outcome (fname : string) :
  (ReadManifest ioutil_ReadFile json_scan fname = Panic
   <-> ioutil_ReadFile fname = None)
  /\ ReadManifest ioutil_ReadFile json_scan fname <> StackOverflow
  /\ (forall e, ReadManifest ioutil_ReadFile json_scan fname = Err e ->
        error_kind e = MalformedJSON \/ error_kind e = InvalidManifest)
  /\ (forall m, ReadManifest ioutil_ReadFile json_scan fname = Ok m ->
        Validate m = None /\ paths_canonical m /\ Clean m = m).
Proof.
  split; [|split; [|split]].
  - unfold ReadManifest. destruct (ioutil_ReadFile fname) as [data|]; [|tauto].
    destruct (json_Unmarshal json_scan data) as [mRaw|];
      [destruct (Validate mRaw)|]; split; discriminate.
  - unfold ReadManifest. destruct (ioutil_ReadFile fname) as [data|]; [|discriminate].
    destruct (json_Unmarshal json_scan data) as [mRaw|];
      [destruct (Validate mRaw)|]; discriminate.
  - intros e. unfold ReadManifest.
    destruct (ioutil_ReadFile fname) as [data|]; [|discriminate].
    destruct (json_Unmarshal json_scan data) as [mRaw|].
    + destruct (Validate mRaw) as [e'|] eqn:Hv; [|discriminate].
      intros [= <-]. right. eapply Validate_kind, Hv.
    + intros [= <-]. left. reflexivity.
  - intros m Hok. apply ReadManifest_Ok_inv in Hok as (data & mRaw & _ & _ & Hv & ->).
    pose proof (Clean_paths_canonical mRaw (Validate_absolute mRaw Hv)) as Hc.
    split; [|split; [exact Hc|apply paths_canonical_Clean, Hc]].
    apply Validate_None, Clean_manifest_ok, Validate_None, Hv.
Qed.

End ReadManifestOutcome.

(** ** ReadManifest, then DirSkeleton *)

Lemma above_or_self_of_canonical (p x : string) :
  canonical p ->
  above_or_self x (filepath.Dir p) \/ x = filepath.Clean p <-> above_or_self x p.
Proof.
  intros Hp. pose proof (canonical_absolute p Hp) as Habs.
  assert (ancestors p = Ok (map render (inits (names_of p)))) as Hps.
  { rewrite (canonical_render p Hp) at 1. apply ancestors_canonical, names_of_names. }
  rewrite <- (elem_of_ancestors p _ x Habs Hps). apply above_or_self_inits.
Qed.

Section ReadManifestDirSkeleton.

Variable ioutil_ReadFile : string -> option string.
Variable json_scan : string -> option json.
Variable range_keys : gset string -> list string.
Variable sort_Sort : (string -> string -> bool) -> list string -> list string.

Hypothesis range_keys_perm : forall tree : gset string,
  range_keys tree ≡ₚ elements tree.
Hypothesis sort_Sort_perm : forall l : list string,
  sort_Sort Dirs_Less l ≡ₚ l.

(** X11.  on a manifest that [ReadManifest] returned, [DirSkeleton] returns a
    list or an error (it neither panics nor recurses without end), and the
    list holds exactly the directories, the root apart, that are a parent
    path of a file, or above one, or above a mount path. *)
Theorem ReadManifest_DirSkeleton (fname : string) (m : Manifest) :
  ReadManifest ioutil_ReadFile json_scan fname = Ok m ->
  ((exists out, DirSkeleton range_keys sort_Sort m = Ok out)
   \/ exists e, DirSkeleton range_keys sort_Sort m = Err e
        /\ (error_kind e = DuplicateMount \/ error_kind e = IllegalMountNotLeaf))
  /\ forall out, DirSkeleton range_keys sort_Sort m = Ok out ->
       forall x, x ∈ out
         <-> x <> "/"
             /\ ((exists fl, fl ∈ Files m /\ above_or_self x (ManifestFile.Parent fl))
                 \/ exists d, d ∈ Directories m
                      /\ above_or_self x (filepath.Dir (ManifestDir.Dirname d))).
Proof.
  intros Hok. apply ReadManifest_Ok_inv in Hok as (data & mRaw & _ & _ & Hv & ->).
  pose proof (Clean_paths_canonical mRaw (Validate_absolute mRaw Hv)) as Hc.
  pose proof (paths_canonical_absolute _ Hc) as Habs.
  set (m := Clean mRaw) in *. split.
  - destruct (decide (NoDup (mounts m))) as [Hnd|Hdup].
    + destruct (DirSkeleton_tree range_keys sort_Sort m Habs Hnd) as (tree & _ & ->).
      destruct (checkLeaves _ _ _) as [e|] eqn:Hleaves; [|left; eauto].
      right. apply checkLeaves_Some in Hleaves as (d & _ & _ & ->). eauto.
    + pose proof (DirSkeleton_absolute range_keys sort_Sort m Habs) as H.
      rewrite decide_False in H by exact Hdup. destruct H as (x & _ & ->).
      right. eauto.
  - intros out Hout x.
    destruct (DirSkeleton_Ok_tree range_keys sort_Sort m out Habs Hout)
      as (tree & Htree & -> & _).
    rewrite list_elem_of_filter, sort_Sort_perm, range_keys_perm, elem_of_elements, Htree.
    unfold in_tree. destruct Hc as [Hf _]. rewrite Forall_forall in Hf.
    split; intros [Hx H]; (split; [exact Hx|]); destruct H as [(fl & Hfl & H)|H]; auto.
    + left. exists fl. split; [exact Hfl|]. apply above_or_self_of_canonical; auto.
    + left. exists fl. split; [exact Hfl|]. apply above_or_self_of_canonical; auto.
Qed.

End ReadManifestDirSkeleton.

(** ** FillInMissingFields: what it keeps *)

Lemma fillFile_same_keys (dataObjs : gmap string DxDescribe.t) (fl : ManifestFile.t) :
  file_same_keys fl (fillFile dataObjs fl).
Proof.
  unfold fillFile, file_same_keys. destruct (dataObjs !! _) as [fDesc|]; [|tauto].
  cbn. repeat split. intros Hne. apply String.eqb_neq in Hne. rewrite Hne. reflexivity.
Qed.

Lemma fillDir_same_keys (projDescs : gmap string DxDescribePrj.t) (d : ManifestDir.t) :
  dir_same_keys d (fillDir projDescs d).
Proof.
  unfold fillDir, dir_same_keys. destruct (projDescs !! _); cbn; tauto.
Qed.

Lemma Forall2_map_same {A : Type} (P : A -> A -> Prop) (f : A -> A) (l : list A) :
  (forall x, P x (f x)) -> Forall2 P l (map f l).
Proof. intros H. induction l; constructor; auto. Qed.

Lemma validateFiles_same_keys (files files' : list ManifestFile.t) :
  Forall2 file_same_keys files files' -> validateFiles files' = validateFiles files.
Proof.
  induction 1 as [|fl fl' files files' (H1 & H2 & H3 & _) _ IH]; [reflexivity|].
  cbn [validateFiles]. rewrite H1, H2, H3, IH. reflexivity.
Qed.

Lemma validateDirectories_same_keys (dirs dirs' : list ManifestDir.t) :
  Forall2 dir_same_keys dirs dirs' ->
  validateDirectories dirs' = validateDirectories dirs.
Proof.
  induction 1 as [|d d' dirs dirs' (H1 & _ & H3) _ IH]; [reflexivity|].
  cbn [validateDirectories]. rewrite H1, H3, IH. reflexivity.
Qed.

Lemma recordFileParents_same_keys (files files' : list ManifestFile.t) :
  Forall2 file_same_keys files files' ->
  forall tree, recordFileParents files' tree = recordFileParents files tree.
Proof.
  induction 1 as [|fl fl' files files' (_ & _ & H3 & _) _ IH]; [reflexivity|].
  intros tree. cbn [recordFileParents]. rewrite H3.
  destruct (ancestors _); cbn [mbind outcome_bind]; auto.
Qed.

Lemma recordDirParents_same_keys (dirs dirs' : list ManifestDir.t) :
  Forall2 dir_same_keys dirs dirs' ->
  forall tree allDirs,
    recordDirParents dirs' tree allDirs = recordDirParents dirs tree allDirs.
Proof.
  induction 1 as [|d d' dirs dirs' (_ & _ & H3) _ IH]; [reflexivity|].
  intros tree allDirs. cbn [recordDirParents]. rewrite H3.
  destruct (filepath.Split _) as [dirParent file].
  destruct (ancestors _); cbn [mbind outcome_bind]; auto.
  destruct (decide _); auto.
Qed.

Lemma checkLeaves_same_keys (dirs dirs' : list ManifestDir.t) :
  Forall2 dir_same_keys dirs dirs' ->
  forall tree elems, checkLeaves dirs' tree elems = checkLeaves dirs tree elems.
Proof.
  induction 1 as [|d d' dirs dirs' (_ & _ & H3) _ IH]; [reflexivity|].
  intros tree elems. cbn [checkLeaves]. rewrite H3, IH. reflexivity.
Qed.

Lemma Forall2_refl_keys_dir (dirs : list ManifestDir.t) :
  Forall2 dir_same_keys dirs dirs.
Proof. induction dirs; constructor; [repeat split|assumption]. Qed.

Lemma Forall2_refl_keys_file (files : list ManifestFile.t) :
  Forall2 file_same_keys files files.
Proof. induction files; constructor; [repeat split|assumption]. Qed.

Section FillInKeeps.

Variable DxDescribeBulkObjects : list string -> error + gmap string DxDescribe.t.
Variable DxDescribeProject : string -> error + DxDescribePrj.t.
Variable range_fileIds : gset string -> list string.
Variable range_projectIds : gset string -> list string.

Lemma FillInMissingFields_same_keys (m m' : Manifest) (calls : list remote_call)
    (err : option error) :
  FillInMissingFields DxDescribeBulkObjects DxDescribeProject
    range_fileIds range_projectIds m = (calls, m', err) ->
  Forall2 file_same_keys (Files m) (Files m')
  /\ Forall2 dir_same_keys (Directories m) (Directories m').
Proof.
  unfold FillInMissingFields. cbv zeta.
  destruct (DxDescribeBulkObjects _) as [e|dataObjs].
  - intros [= _ <- _]. split;
      [apply Forall2_refl_keys_file|apply Forall2_refl_keys_dir].
  - destruct (describeProjects _ _ _) as [calls' [e|projDescs]];
      intros [= _ <- _]; cbn [Files Directories]; split;
      try apply Forall2_map_same; auto using fillFile_same_keys, fillDir_same_keys,
        Forall2_refl_keys_dir.
Qed.

Variable range_keys : gset string -> list string.
Variable sort_Sort : (string -> string -> bool) -> list string -> list string.

(** X12.  whatever the platform answers, and whether or not it returns an
    error, [FillInMissingFields] leaves the number and the order of the
    entries as they are, and in every entry the project, the file id, the
    parent path, the folder, the mount path and a name that was not empty.
    So [Validate] and [DirSkeleton] give after the call what they gave
    before it. *)
Theorem FillInMissingFields_keeps_keys (m m' : Manifest) (calls : list remote_call)
    (err : option error) :
  FillInMissingFields DxDescribeBulkObjects DxDescribeProject
    range_fileIds range_projectIds m = (calls, m', err) ->
  Forall2 file_same_keys (Files m) (Files m')
  /\ Forall2 dir_same_keys (Directories m) (Directories m')
  /\ Validate m' = Validate m
  /\ DirSkeleton range_keys sort_Sort m' = DirSkeleton range_keys sort_Sort m.
Proof.
  intros H. apply FillInMissingFields_same_keys in H as [Hf Hd].
  split; [exact Hf|]. split; [exact Hd|]. split.
  - unfold Validate. rewrite (validateFiles_same_keys _ _ Hf),
      (validateDirectories_same_keys _ _ Hd). reflexivity.
  - unfold DirSkeleton. rewrite (recordFileParents_same_keys _ _ Hf).
    destruct (recordFileParents (Files m) ∅) as [tree0| | |]; try reflexivity.
    cbn [mbind outcome_bind]. rewrite (recordDirParents_same_keys _ _ Hd).
    destruct (recordDirParents (Directories m) tree0 ∅) as [[tree allDirs]| | |];
      try reflexivity.
    cbn [mbind outcome_bind]. cbv zeta. rewrite (checkLeaves_same_keys _ _ Hd).
    reflexivity.
Qed.

(** ** FillInMissingFields: errors *)

Lemma describeProjects_error (pIds : list string) :
  forall (acc : gmap string DxDescribePrj.t) calls err,
  describeProjects DxDescribeProject pIds acc = (calls, inl err) ->
  exists done pId rest,
    pIds = (done ++ pId :: rest)%list
    /\ calls = map CallDescribeProject (done ++ [pId])
    /\ DxDescribeProject pId = inl err
    /\ Forall (fun p => exists pDesc, DxDescribeProject p = inr pDesc) done.
Proof.
  induction pIds as [|pId pIds IH]; intros acc calls err; cbn [describeProjects];
    [discriminate|].
  destruct (DxDescribeProject pId) as [e|pDesc] eqn:Hd.
  - intros [= <- <-]. exists [], pId, pIds. repeat split; [exact Hd|constructor].
  - destruct (describeProjects _ pIds _) as [calls' r'] eqn:Hrec.
    intros [= <- ->]. destruct (IH _ _ _ Hrec) as (done & p & rest & -> & -> & Hp & Hdone).
    exists (pId :: done), p, rest. repeat split; [exact Hp|].
    constructor; [eauto|exact Hdone].
Qed.

(** X13.  when [FillInMissingFields] returns an error, it is the error of the
    last call made.  If that is the bulk call, the manifest is as it was;
    if it is the description of a project, every project before it was
    described, the file entries have been filled in already and the
    directory entries are as they were. *)
Theorem FillInMissingFields_error (m m' : Manifest) (calls : list remote_call)
    (err : error) :
  FillInMissingFields DxDescribeBulkObjects DxDescribeProject
    range_fileIds range_projectIds m = (calls, m', Some err) ->
  (exists fileIds,
      calls = [CallDescribeBulkObjects fileIds]
      /\ DxDescribeBulkObjects fileIds = inl err /\ m' = m)
  \/ (exists fileIds dataObjs done pId,
        calls = CallDescribeBulkObjects fileIds
                  :: map CallDescribeProject (done ++ [pId])
        /\ DxDescribeBulkObjects fileIds = inr dataObjs
        /\ Forall (fun p => exists pDesc, DxDescribeProject p = inr pDesc) done
        /\ DxDescribeProject pId = inl err
        /\ Files m' = map (fillFile dataObjs) (Files m)
        /\ Directories m' = Directories m).
Proof.
  unfold FillInMissingFields. cbv zeta.
  destruct (DxDescribeBulkObjects _) as [e|dataObjs] eqn:Hbulk.
  - intros [= <- <- <-]. left. eauto.
  - destruct (describeProjects _ _ _) as [calls' [e|projDescs]] eqn:Hdesc;
      [|discriminate].
    intros [= <- <- <-]. right.
    apply describeProjects_error in Hdesc as (done & pId & rest & _ & -> & Hp & Hdone).
    eexists _, dataObjs, done, pId. repeat split; eauto.
Qed.

End FillInKeeps.

(** ** FillInMissingFields: nothing missing, and nothing missing afterwards *)

Lemma collectFileIds_complete (files : list ManifestFile.t) :
  Forall (fun fl => ~ file_incomplete fl) files -> collectFileIds files ∅ = ∅.
Proof.
  intros H. apply set_eq. intros fId. rewrite elem_of_collectFileIds.
  rewrite Forall_forall in H. split; [|set_solver].
  intros [Hin|(fl & Hfl & _ & Hinc)]; [exact Hin|]. destruct (H fl Hfl Hinc).
Qed.

Lemma collectProjectIds_complete (dirs : list ManifestDir.t) :
  Forall (fun d => ~ dir_incomplete d) dirs -> collectProjectIds dirs ∅ = ∅.
Proof.
  intros H. apply set_eq. intros pId. rewrite elem_of_collectProjectIds.
  rewrite Forall_forall in H. split; [|set_solver].
  intros [Hin|(d & Hd & _ & Hinc)]; [exact Hin|]. destruct (H d Hd Hinc).
Qed.

Lemma map_fillDir_empty (dirs : list ManifestDir.t) : map (fillDir ∅) dirs = dirs.
Proof.
  induction dirs as [|d dirs IH]; [reflexivity|]. cbn [map].
  rewrite IH, fillDir_None by apply lookup_empty. reflexivity.
Qed.

Lemma fillFile_complete (dataObjs : gmap string DxDescribe.t) (fl : ManifestFile.t) :
  (forall fDesc, dataObjs !! ManifestFile.FileId fl = Some fDesc ->
     describe_complete fDesc) ->
  (file_incomplete fl -> is_Some (dataObjs !! ManifestFile.FileId fl)) ->
  ~ file_incomplete (fillFile dataObjs fl).
Proof.
  intros Hgood Hneeded. unfold fillFile.
  destruct (dataObjs !! ManifestFile.FileId fl) as [fDesc|] eqn:Hl.
  - destruct (Hgood fDesc eq_refl) as (H1 & H2 & H3 & H4).
    unfold file_incomplete. cbn.
    destruct (String.eqb (ManifestFile.Fname fl) "") eqn:Hn.
    + tauto.
    + apply String.eqb_neq in Hn. tauto.
  - intros Hinc. destruct (Hneeded Hinc) as [x Hx]. discriminate.
Qed.

Lemma fillDir_complete (projDescs : gmap string DxDescribePrj.t) (d : ManifestDir.t) :
  (forall pDesc, projDescs !! ManifestDir.ProjId d = Some pDesc ->
     project_times_set pDesc) ->
  (dir_incomplete d -> is_Some (projDescs !! ManifestDir.ProjId d)) ->
  ~ dir_incomplete (fillDir projDescs d).
Proof.
  intros Hgood Hneeded. unfold fillDir.
  destruct (projDescs !! ManifestDir.ProjId d) as [pDesc|] eqn:Hl.
  - destruct (Hgood pDesc eq_refl) as (H1 & H2). unfold dir_incomplete. cbn. tauto.
  - intros Hinc. destruct (Hneeded Hinc) as [x Hx]. discriminate.
Qed.

Section FillInCompletes.

Variable DxDescribeBulkObjects : list string -> error + gmap string DxDescribe.t.
Variable DxDescribeProject : string -> error + DxDescribePrj.t.
Variable range_fileIds : gset string -> list string.
Variable range_projectIds : gset string -> list string.

Lemma describeProjects_good (pIds : list string) :
  forall acc : gmap string DxDescribePrj.t,
  Forall (fun pId => exists pDesc, DxDescribeProject pId = inr pDesc
            /\ DxDescribePrj.Id pDesc = pId /\ project_times_set pDesc) pIds ->
  (forall k v, acc !! k = Some v -> project_times_set v) ->
  exists projDescs,
    describeProjects DxDescribeProject pIds acc
    = (map CallDescribeProject pIds, inr projDescs)
    /\ (forall k v, projDescs !! k = Some v -> project_times_set v)
    /\ (forall pId, pId ∈ pIds \/ is_Some (acc !! pId) -> is_Some (projDescs !! pId)).
Proof.
  induction pIds as [|pId pIds IH]; intros acc Hall Hacc.
  - exists acc. split; [reflexivity|]. split; [exact Hacc|].
    intros pId [H|H]; [inversion H|exact H].
  - apply Forall_cons in Hall as [(pDesc & Hd & Hid & Hgood) Hall].
    destruct (IH (<[DxDescribePrj.Id pDesc := pDesc]> acc) Hall)
      as (projDescs & Heq & Hg & Hin).
    { intros k v. destruct (decide (DxDescribePrj.Id pDesc = k)) as [<-|Hne].
      - rewrite lookup_insert_eq. intros [= <-]. exact Hgood.
      - rewrite lookup_insert_ne by exact Hne. apply Hacc. }
    exists projDescs. cbn [describeProjects]. rewrite Hd, Heq.
    split; [reflexivity|]. split; [exact Hg|].
    intros p [Hp|Hp]; apply Hin.
    + apply elem_of_cons in Hp as [->|Hp]; [|left; exact Hp].
      right. rewrite Hid, lookup_insert_eq. eauto.
    + right. destruct (decide (DxDescribePrj.Id pDesc = p)) as [<-|Hne].
      * rewrite lookup_insert_eq. eauto.
      * rewrite lookup_insert_ne by exact Hne. exact Hp.
Qed.

Hypothesis range_fileIds_perm : forall s : gset string,
  range_fileIds s ≡ₚ elements s.
Hypothesis range_projectIds_perm : forall s : gset string,
  range_projectIds s ≡ₚ elements s.

Lemma range_empty (range : gset string -> list string) :
  (forall s : gset string, range s ≡ₚ elements s) -> range ∅ = [].
Proof.
  intros H. apply Permutation_nil_r. rewrite H, elements_empty. reflexivity.
Qed.

(** X14.  on a manifest in which nothing is missing, [FillInMissingFields]
    still makes the bulk call, for no file id, and no other call.  If that
    call fails, so does [FillInMissingFields]; if it returns no description,
    the manifest is left as it is. *)
Theorem FillInMissingFields_nothing_missing (m : Manifest) :
  Forall (fun fl => ~ file_incomplete fl) (Files m) ->
  Forall (fun d => ~ dir_incomplete d) (Directories m) ->
  FillInMissingFields DxDescribeBulkObjects DxDescribeProject
    range_fileIds range_projectIds m
  = match DxDescribeBulkObjects [] with
    | inl err => ([CallDescribeBulkObjects []], m, Some err)
    | inr dataObjs =>
        ([CallDescribeBulkObjects []],
         mkManifest (map (fillFile dataObjs) (Files m)) (Directories m), None)
    end
  /\ (DxDescribeBulkObjects [] = inr ∅ ->
      FillInMissingFields DxDescribeBulkObjects DxDescribeProject
        range_fileIds range_projectIds m
      = ([CallDescribeBulkObjects []], m, None)).
Proof.
  intros Hf Hd. unfold FillInMissingFields. cbv zeta.
  rewrite (collectFileIds_complete _ Hf), (collectProjectIds_complete _ Hd).
  rewrite (range_empty _ range_fileIds_perm), (range_empty _ range_projectIds_perm).
  cbn [describeProjects]. split.
  - destruct (DxDescribeBulkObjects []); [reflexivity|].
    rewrite map_fillDir_empty. reflexivity.
  - intros ->. rewrite map_fillDir_empty. destruct m as [files dirs].
    cbn [Files Directories]. do 3 f_equal.
    clear Hf Hd. induction files as [|fl files IH]; [reflexivity|]. cbn [map].
    rewrite IH, fillFile_None by apply lookup_empty. reflexivity.
Qed.

(** X15.  on a platform that describes every file asked for and every project
    asked for, in full, [FillInMissingFields] returns no error and leaves
    nothing missing: no entry of the manifest lacks a name, a size or a
    time afterwards. *)
Theorem FillInMissingFields_completes (m : Manifest)
    (dataObjs : gmap string DxDescribe.t) :
  DxDescribeBulkObjects (range_fileIds (collectFileIds (Files m) ∅)) = inr dataObjs ->
  (forall fId, file_id_needed m fId -> is_Some (dataObjs !! fId)) ->
  (forall fId fDesc, dataObjs !! fId = Some fDesc -> describe_complete fDesc) ->
  (forall pId, project_id_needed m pId ->
     exists pDesc, DxDescribeProject pId = inr pDesc
       /\ DxDescribePrj.Id pDesc = pId /\ project_times_set pDesc) ->
  exists calls m',
    FillInMissingFields DxDescribeBulkObjects DxDescribeProject
      range_fileIds range_projectIds m = (calls, m', None)
    /\ Forall (fun fl => ~ file_incomplete fl) (Files m')
    /\ Forall (fun d => ~ dir_incomplete d) (Directories m').
Proof.
  intros Hbulk Hneeded Hgood Hproj. unfold FillInMissingFields. cbv zeta.
  rewrite Hbulk.
  destruct (describeProjects_good
              (range_projectIds (collectProjectIds (Directories m) ∅)) ∅)
    as (projDescs & -> & Hg & Hin).
  { apply Forall_forall. intros pId Hp. apply Hproj.
    rewrite range_projectIds_perm, elem_of_elements, elem_of_collectProjectIds in Hp.
    destruct Hp as [Hp|Hp]; [set_solver|exact Hp]. }
  { intros k v. rewrite lookup_empty. discriminate. }
  eexists _, _. split; [reflexivity|]. cbn [Files Directories]. split.
  - apply Forall_fmap, Forall_forall. intros fl Hfl. apply fillFile_complete.
    + intros fDesc. apply Hgood.
    + intros Hinc. apply Hneeded. exists fl. auto.
  - apply Forall_fmap, Forall_forall. intros d Hd. apply fillDir_complete.
    + intros pDesc. apply Hg.
    + intros Hinc. apply Hin. left.
      rewrite range_projectIds_perm, elem_of_elements, elem_of_collectProjectIds.
      right. exists d. auto.
Qed.

End FillInCompletes.

(** ** MakeManifestFromProjectIds *)

Lemma projectDir_canonical (pDesc : DxDescribePrj.t) :
  canonical (ManifestDir.Dirname (projectDir pDesc)).
Proof. apply Clean_canonical. eexists. reflexivity. Qed.

Lemma validateDirectories_projectDir (pDescs : list DxDescribePrj.t) :
  match validateDirectories (map projectDir pDescs) with
  | None => Forall (fun pDesc => valid_project_id (DxDescribePrj.Id pDesc)) pDescs
  | Some e => exists pDesc, pDesc ∈ pDescs
                /\ ~ valid_project_id (DxDescribePrj.Id pDesc)
                /\ e = ErrProjectInvalidID (DxDescribePrj.Id pDesc)
  end.
Proof.
  induction pDescs as [|pDesc pDescs IH]; [constructor|].
  cbn [map validateDirectories].
  change (ManifestDir.ProjId (projectDir pDesc)) with (DxDescribePrj.Id pDesc).
  destruct (validProject (DxDescribePrj.Id pDesc)) eqn:Hv; cbn [negb].
  - apply validProject_spec in Hv.
    assert (validateDirName (ManifestDir.Dirname (projectDir pDesc)) = None) as ->.
    { apply validateDirName_None, canonical_absolute, projectDir_canonical. }
    destruct (validateDirectories _) as [e|].
    + destruct IH as (p & Hp & Hbad & ->). exists p.
      split; [apply list_elem_of_further, Hp|auto].
    + constructor; assumption.
  - exists pDesc. split; [apply list_elem_of_here|]. split; [|reflexivity].
    rewrite <- validProject_spec, Hv. discriminate.
Qed.

Lemma filter_only_root (l : list string) :
  (forall x, x ∈ l -> x = "/") -> filter (fun e => e ≠ "/") l = [].
Proof.
  induction l as [|x l IH]; intros H; [reflexivity|].
  rewrite filter_cons, decide_False.
  - apply IH. intros y Hy. apply H, list_elem_of_further, Hy.
  - intros Hne. apply Hne, H, list_elem_of_here.
Qed.

Section MakeManifest.

Variable DxDescribeProject : string -> error + DxDescribePrj.t.
Variable FilenameIsPosixCompliant : string -> bool.
Variable range_validate : gmap string DxDescribePrj.t -> list DxDescribePrj.t.
Variable range_build : gmap string DxDescribePrj.t -> list DxDescribePrj.t.

Lemma checkProjectNames_spec (pDescs : list DxDescribePrj.t) :
  match checkProjectNames FilenameIsPosixCompliant pDescs with
  | None => Forall (fun pDesc =>
              FilenameIsPosixCompliant (DxDescribePrj.Name pDesc) = true) pDescs
  | Some e => exists pDesc, pDesc ∈ pDescs
                /\ FilenameIsPosixCompliant (DxDescribePrj.Name pDesc) = false
                /\ e = ErrNonPosixName (DxDescribePrj.Id pDesc) (DxDescribePrj.Name pDesc)
  end.
Proof.
  induction pDescs as [|pDesc pDescs IH]; [constructor|]. cbn [checkProjectNames].
  destruct (FilenameIsPosixCompliant (DxDescribePrj.Name pDesc)) eqn:Hp; cbn [negb].
  - destruct (checkProjectNames _ _) as [e|].
    + destruct IH as (p & Hin & Hbad & ->). exists p.
      split; [apply list_elem_of_further, Hin|auto].
    + constructor; assumption.
  - exists pDesc. split; [apply list_elem_of_here|auto].
Qed.

(** The platform describes the project it is asked for. *)
Hypothesis DxDescribeProject_Id : forall pId pDesc,
  DxDescribeProject pId = inr pDesc -> DxDescribePrj.Id pDesc = pId.

Lemma describeProjects_exact (pIds : list string) :
  forall (acc : gmap string DxDescribePrj.t) calls projDescs,
  (forall k v, acc !! k = Some v -> DxDescribeProject k = inr v) ->
  describeProjects DxDescribeProject pIds acc = (calls, inr projDescs) ->
  forall k v, projDescs !! k = Some v
    <-> DxDescribeProject k = inr v /\ (k ∈ pIds \/ is_Some (acc !! k)).
Proof.
  induction pIds as [|pId pIds IH]; intros acc calls projDescs Hacc;
    cbn [describeProjects].
  - intros [= <- <-] k v. split.
    + intros H. split; [apply Hacc, H|right; eauto].
    + intros [Hd [H|[v' Hv']]]; [inversion H|].
      rewrite Hv'. f_equal. apply Hacc in Hv'. congruence.
  - destruct (DxDescribeProject pId) as [err|pDesc] eqn:Hd; [discriminate|].
    destruct (describeProjects _ pIds _) as [calls' r'] eqn:Hrec.
    intros [= <- ->] k v. rewrite (DxDescribeProject_Id _ _ Hd) in Hrec.
    assert (forall k' v', <[pId := pDesc]> acc !! k' = Some v' ->
              DxDescribeProject k' = inr v') as Hacc'.
    { intros k' v'. destruct (decide (pId = k')) as [<-|Hne].
      - rewrite lookup_insert_eq. intros [= <-]. exact Hd.
      - rewrite lookup_insert_ne by exact Hne. apply Hacc. }
    rewrite (IH _ _ _ Hacc' Hrec).
    rewrite elem_of_cons. destruct (decide (pId = k)) as [<-|Hne].
    + rewrite lookup_insert_eq. split; intros [H _]; (split; [exact H|]); eauto.
    + rewrite lookup_insert_ne by exact Hne. split; intros [H H']; (split; [exact H|]).
      * destruct H'; auto.
      * destruct H' as [[->|H']|H']; [contradiction|auto..].
Qed.

(** What Go guarantees of the two iterations over the map: every value
    once. *)
Hypothesis range_validate_perm : forall projDescs : gmap string DxDescribePrj.t,
  range_validate projDescs ≡ₚ map snd (map_to_list projDescs).
Hypothesis range_build_perm : forall projDescs : gmap string DxDescribePrj.t,
  range_build projDescs ≡ₚ map snd (map_to_list projDescs).

Lemma elem_of_values (projDescs : gmap string DxDescribePrj.t) (v : DxDescribePrj.t) :
  v ∈ map snd (map_to_list projDescs) <-> exists k, projDescs !! k = Some v.
Proof.
  rewrite list_elem_of_fmap. split.
  - intros ([k v'] & -> & Hin). exists k. apply elem_of_map_to_list, Hin.
  - intros [k Hk]. exists (k, v). split; [reflexivity|]. apply elem_of_map_to_list, Hk.
Qed.

Lemma MakeManifest_inv (projectIds : list string) (calls : list remote_call)
    (m : Manifest) :
  MakeManifestFromProjectIds DxDescribeProject FilenameIsPosixCompliant
    range_validate range_build projectIds = (calls, inr m) ->
  exists projDescs,
    describeProjects DxDescribeProject projectIds ∅ = (calls, inr projDescs)
    /\ checkProjectNames FilenameIsPosixCompliant (range_validate projDescs) = None
    /\ m = mkManifest [] (map projectDir (range_build projDescs))
    /\ Validate m = None.
Proof.
  unfold MakeManifestFromProjectIds.
  destruct (describeProjects _ _ _) as [calls' [err|projDescs]]; [discriminate|].
  destruct (checkProjectNames _ _) eqn:Hnames; [discriminate|]. cbv zeta.
  destruct (Validate _) eqn:Hv; [discriminate|]. intros [= <- <-].
  exists projDescs. auto.
Qed.

Lemma MakeManifest_dirs (projectIds : list string) (calls : list remote_call)
    (m : Manifest) :
  MakeManifestFromProjectIds DxDescribeProject FilenameIsPosixCompliant
    range_validate range_build projectIds = (calls, inr m) ->
  Files m = []
  /\ NoDup (map ManifestDir.ProjId (Directories m))
  /\ forall d, d ∈ Directories m
       <-> exists pId pDesc, pId ∈ projectIds
             /\ DxDescribeProject pId = inr pDesc /\ d = projectDir pDesc.
Proof.
  intros H. apply MakeManifest_inv in H as (projDescs & Hdesc & _ & -> & _).
  assert (forall k v, (∅ : gmap string DxDescribePrj.t) !! k = Some v ->
            DxDescribeProject k = inr v) as Hempty.
  { intros k v. rewrite lookup_empty. discriminate. }
  pose proof (describeProjects_exact _ _ _ _ Hempty Hdesc) as Hex.
  cbn [Files Directories]. split; [reflexivity|]. split.
  - rewrite map_map, range_build_perm, map_map.
    rewrite (map_ext_Forall _ fst).
    + apply NoDup_fst_map_to_list.
    + apply Forall_forall. intros [k v] Hin. apply elem_of_map_to_list, Hex in Hin.
      cbn. apply DxDescribeProject_Id. tauto.
  - intros d. rewrite list_elem_of_fmap. split.
    + intros (pDesc & -> & Hin). rewrite range_build_perm in Hin.
      apply elem_of_values in Hin as [k Hk]. apply Hex in Hk as [Hd [Hk|[x Hx]]].
      * eauto.
      * rewrite lookup_empty in Hx. discriminate.
    + intros (pId & pDesc & Hin & Hd & ->). exists pDesc. split; [reflexivity|].
      rewrite range_build_perm. apply elem_of_values. exists pId. apply Hex. auto.
Qed.

(** X16.  a manifest that [MakeManifestFromProjectIds] returns has no file
    entry and one directory entry for each project of the list, however
    often its id is given: the root folder of the project, mounted at the
    canonical form of "/" followed by the name of the project, with the
    times of the project.  Every project of the list was described, in the
    order of the list, and has a compliant name and a valid id; the manifest
    passes [Validate]. *)
Theorem MakeManifestFromProjectIds_Ok (projectIds : list string)
    (calls : list remote_call) (m : Manifest) :
  MakeManifestFromProjectIds DxDescribeProject FilenameIsPosixCompliant
    range_validate range_build projectIds = (calls, inr m) ->
  calls = map CallDescribeProject projectIds
  /\ Files m = []
  /\ NoDup (map ManifestDir.ProjId (Directories m))
  /\ (forall d, d ∈ Directories m
        <-> exists pId pDesc, pId ∈ projectIds
              /\ DxDescribeProject pId = inr pDesc
              /\ d = ManifestDir.mk pId "/"
                       (filepath.Clean (String "/" (DxDescribePrj.Name pDesc)))
                       (DxDescribePrj.CtimeMillisec pDesc)
                       (DxDescribePrj.MtimeMillisec pDesc))
  /\ (forall pId, pId ∈ projectIds ->
        exists pDesc, DxDescribeProject pId = inr pDesc
          /\ FilenameIsPosixCompliant (DxDescribePrj.Name pDesc) = true
          /\ valid_project_id pId)
  /\ Validate m = None
  /\ paths_canonical m.
Proof.
  intros H. destruct (MakeManifest_dirs _ _ _ H) as (Hfiles & Hnd & Hdirs).
  apply MakeManifest_inv in H as (projDescs & Hdesc & Hnames & Hm & Hv).
  assert (forall k v, (∅ : gmap string DxDescribePrj.t) !! k = Some v ->
            DxDescribeProject k = inr v) as Hempty.
  { intros k v. rewrite lookup_empty. discriminate. }
  pose proof (describeProjects_exact _ _ _ _ Hempty Hdesc) as Hex.
  destruct (describeProjects_spec _ _ _ _ _ Hdesc) as [_ [Hcalls _]].
  split; [exact Hcalls|]. split; [exact Hfiles|]. split; [exact Hnd|].
  split; [|split; [|split; [exact Hv|]]].
  - intros d. rewrite Hdirs. split; intros (pId & pDesc & Hin & Hd & ->);
      exists pId, pDesc; (split; [exact Hin|]); (split; [exact Hd|]);
      unfold projectDir; rewrite (DxDescribeProject_Id _ _ Hd); reflexivity.
  - intros pId Hin.
    assert (exists pDesc, DxDescribeProject pId = inr pDesc
              /\ projectDir pDesc ∈ Directories m) as (pDesc & Hd & Hdir).
    { destruct (DxDescribeProject pId) as [err|pDesc] eqn:Hd.
      - exfalso. clear -Hdesc Hin Hd. revert Hdesc. generalize (∅ : gmap string DxDescribePrj.t).
        revert calls. induction projectIds as [|p ps IH]; [inversion Hin|].
        intros calls acc. cbn [describeProjects].
        apply elem_of_cons in Hin as [<-|Hin]; [rewrite Hd; discriminate|].
        destruct (DxDescribeProject p); [discriminate|].
        destruct (describeProjects _ ps _) as [calls' r'] eqn:Hrec.
        intros [= <- ->]. eapply IH; eassumption.
      - exists pDesc. split; [reflexivity|]. apply Hdirs. eauto. }
    exists pDesc. split; [exact Hd|]. split.
    + pose proof (checkProjectNames_spec (range_validate projDescs)) as Hn.
      rewrite Hnames in Hn. rewrite Forall_forall in Hn. apply Hn.
      rewrite range_validate_perm. apply elem_of_values. exists pId. apply Hex. auto.
    + apply Validate_None in Hv as [_ Hv]. rewrite Forall_forall in Hv.
      destruct (Hv _ Hdir) as [Hid _]. cbn in Hid.
      rewrite (DxDescribeProject_Id _ _ Hd) in Hid. exact Hid.
  - split; [rewrite Hfiles; constructor|]. apply Forall_forall. intros d Hd.
    apply Hdirs in Hd as (pId & pDesc & _ & _ & ->). apply projectDir_canonical.
Qed.

(** X17.  when [MakeManifestFromProjectIds] fails, either the description of a
    project failed (every project before it in the list was described, none
    after it, and its error is returned), or all projects were described
    and one of them has a name that is not compliant, or all were described
    and named well and one of them has an id that [Validate] rejects.  The
    mount paths never make [Validate] fail here. *)
Theorem MakeManifestFromProjectIds_Err (projectIds : list string)
    (calls : list remote_call) (e : make_error) :
  MakeManifestFromProjectIds DxDescribeProject FilenameIsPosixCompliant
    range_validate range_build projectIds = (calls, inl e) ->
  (exists done pId rest err,
      projectIds = (done ++ pId :: rest)%list
      /\ calls = map CallDescribeProject (done ++ [pId])
      /\ Forall (fun p => exists pDesc, DxDescribeProject p = inr pDesc) done
      /\ DxDescribeProject pId = inl err
      /\ e = MakePassedOn err)
  \/ (calls = map CallDescribeProject projectIds
      /\ exists pId pDesc, pId ∈ projectIds
           /\ DxDescribeProject pId = inr pDesc
           /\ ((FilenameIsPosixCompliant (DxDescribePrj.Name pDesc) = false
                /\ e = ErrNonPosixName (DxDescribePrj.Id pDesc)
                         (DxDescribePrj.Name pDesc))
               \/ (~ valid_project_id (DxDescribePrj.Id pDesc)
                   /\ e = MakePassedOn
                            (ErrProjectInvalidID (DxDescribePrj.Id pDesc))))).
Proof.
  unfold MakeManifestFromProjectIds.
  destruct (describeProjects _ _ _) as [calls' [err|projDescs]] eqn:Hdesc.
  - intros [= <- <-]. left.
    apply describeProjects_error in Hdesc as (done & pId & rest & -> & -> & Hp & Hdone).
    exists done, pId, rest, err. auto.
  - destruct (describeProjects_spec _ _ _ _ _ Hdesc) as [_ [Hcalls Hfrom]].
    assert (forall pDesc, pDesc ∈ map snd (map_to_list projDescs) ->
              exists pId, pId ∈ projectIds /\ DxDescribeProject pId = inr pDesc)
      as Hval.
    { intros pDesc Hin. apply elem_of_values in Hin as [k Hk].
      destruct (Hfrom k pDesc Hk) as [H|(pId & Hin & Hd & _)]; [|eauto].
      rewrite lookup_empty in H. discriminate. }
    pose proof (checkProjectNames_spec (range_validate projDescs)) as Hn.
    destruct (checkProjectNames _ _) as [e'|].
    + intros [= <- <-]. right. split; [exact Hcalls|].
      destruct Hn as (pDesc & Hin & Hbad & ->). rewrite range_validate_perm in Hin.
      destruct (Hval pDesc Hin) as (pId & Hp & Hd). exists pId, pDesc. auto.
    + cbv zeta. unfold Validate. cbn [Files Directories validateFiles].
      pose proof (validateDirectories_projectDir (range_build projDescs)) as Hv.
      destruct (validateDirectories _) as [e'|]; [|discriminate].
      intros [= <- <-]. right. split; [exact Hcalls|].
      destruct Hv as (pDesc & Hin & Hbad & ->). rewrite range_build_perm in Hin.
      destruct (Hval pDesc Hin) as (pId & Hp & Hd). exists pId, pDesc. auto.
Qed.

Variable range_keys : gset string -> list string.
Variable sort_Sort : (string -> string -> bool) -> list string -> list string.


Hypothesis range_keys_perm : forall tree : gset string,
  range_keys tree ≡ₚ elements tree.
Hypothesis sort_Sort_perm : forall l : list string,
  sort_Sort Dirs_Less l ≡ₚ l.

(** X19.  when the projects have plain names (no separator in them, not empty,
    not "." or ".."), different for different projects, every project is
    mounted right under the root and [DirSkeleton] has no directory to
    create: it returns the empty list. *)
Theorem MakeManifestFromProjectIds_skeleton (projectIds : list string)
    (calls : list remote_call) (m : Manifest) :
  MakeManifestFromProjectIds DxDescribeProject FilenameIsPosixCompliant
    range_validate range_build projectIds = (calls, inr m) ->
  (forall pId pDesc, pId ∈ projectIds -> DxDescribeProject pId = inr pDesc ->
     is_name (DxDescribePrj.Name pDesc) = true) ->
  (forall pId1 pId2 pDesc1 pDesc2, pId1 ∈ projectIds -> pId2 ∈ projectIds ->
     DxDescribeProject pId1 = inr pDesc1 -> DxDescribeProject pId2 = inr pDesc2 ->
     DxDescribePrj.Name pDesc1 = DxDescribePrj.Name pDesc2 -> pId1 = pId2) ->
  (forall d, d ∈ Directories m -> filepath.Dir (ManifestDir.Dirname d) = "/")
  /\ DirSkeleton range_keys sort_Sort m = Ok [].
Proof.
  intros H Hplain Hdiff.
  destruct (MakeManifest_dirs _ _ _ H) as (Hfiles & HndId & Hdirs).
  apply MakeManifest_inv in H as (projDescs & _ & _ & _ & Hv).
  assert (forall d, d ∈ Directories m ->
            exists pId pDesc, pId ∈ projectIds /\ DxDescribeProject pId = inr pDesc
              /\ d = projectDir pDesc
              /\ ManifestDir.Dirname d = render [DxDescribePrj.Name pDesc]
              /\ names [DxDescribePrj.Name pDesc]) as Hmount.
  { intros d Hd. apply Hdirs in Hd as (pId & pDesc & Hin & Hd & ->).
    exists pId, pDesc. split; [exact Hin|]. split; [exact Hd|]. split; [reflexivity|].
    assert (names [DxDescribePrj.Name pDesc]) as Hn.
    { constructor; [eapply Hplain; eassumption|constructor]. }
    split; [|exact Hn]. apply (Clean_render _ Hn). }
  assert (forall d, d ∈ Directories m -> filepath.Dir (ManifestDir.Dirname d) = "/")
    as Hdir.
  { intros d Hd. destruct (Hmount d Hd) as (pId & pDesc & _ & _ & _ & -> & Hn).
    apply (Dir_render_snoc [] _ Hn). }
  split; [exact Hdir|].
  assert (NoDup (mounts m)) as Hnd.
  { unfold mounts. apply NoDup_fmap_2_strong; [|eapply NoDup_fmap_1, HndId].
    intros d d' Hd Hd' Heq.
    destruct (Hmount d Hd) as (p & pd & Hp & Hpd & -> & Hname & _).
    destruct (Hmount d' Hd') as (p' & pd' & Hp' & Hpd' & -> & Hname' & _).
    rewrite Hname, Hname' in Heq. injection Heq as Heq.
    assert (p = p') as <- by (eapply Hdiff; eassumption). congruence. }
  destruct (DirSkeleton_tree range_keys sort_Sort m (Validate_absolute m Hv) Hnd)
    as (tree & Htree & ->).
  assert (forall x, x ∈ tree -> x = "/") as Hroot.
  { intros x Hx. apply Htree in Hx as [(fl & Hfl & _)|(d & Hd & Hx)].
    - rewrite Hfiles in Hfl. inversion Hfl.
    - rewrite (Hdir d Hd) in Hx. destruct Hx as (pre & [k Hk] & ->).
      destruct pre; [reflexivity|discriminate]. }
  destruct (checkLeaves _ _ _) as [e|] eqn:Hleaves.
  - exfalso. apply checkLeaves_Some in Hleaves as (d & Hd & Hin & _).
    apply Hroot in Hin. destruct (Hmount d Hd) as (_ & pDesc & _ & _ & _ & Hname & Hn).
    rewrite Hname in Hin. injection Hin as Hin.
    apply Forall_cons in Hn as [Hn _]. rewrite Hin in Hn. discriminate.
  - f_equal. apply filter_only_root. intros x Hx. apply Hroot.
    rewrite sort_Sort_perm, range_keys_perm in Hx. apply elem_of_elements, Hx.
Qed.

End MakeManifest.

(** ** Dirs as a sort.Interface *)

(** X20.  [Dirs.Less] is what [sort.Sort] asks for, a strict weak order: no
    path is less than itself, less is transitive, and so is being neither
    less nor greater.  A directory is less than every path below it. *)
Theorem Dirs_Less_strict_weak_order :
  (forall a, Dirs_Less a a = false)
  /\ (forall a b c, Dirs_Less a b = true -> Dirs_Less b c = true ->
        Dirs_Less a c = true)
  /\ (forall a b c,
        Dirs_Less a b = false -> Dirs_Less b a = false ->
        Dirs_Less b c = false -> Dirs_Less c b = false ->
        Dirs_Less a c = false /\ Dirs_Less c a = false)
  /\ (forall p q, ancestor_dir p q ->
        Dirs_Less p q = true /\ Dirs_Less q p = false).
Proof.
  unfold Dirs_Less. cbv zeta. repeat split.
  - intros a. apply Nat.ltb_irrefl.
  - intros a b c. rewrite !Nat.ltb_lt. lia.
  - revert H H0 H1 H2. rewrite !Nat.ltb_ge. lia.
  - revert H H0 H1 H2. rewrite !Nat.ltb_ge. lia.
  - apply Nat.ltb_lt, ancestor_dir_slashes, H.
  - apply Nat.ltb_ge. apply ancestor_dir_slashes in H. lia.
Qed.

Lemma swap_index_inj (i j : nat) : Inj eq eq (swap_index i j).
Proof.
  intros k l. unfold swap_index. repeat destruct (decide _); congruence.
Qed.

Lemma Dirs_Swap_lookup (elems elems' : list string) (i j k : nat) :
  Dirs_Swap elems i j = Some elems' -> elems' !! k = elems !! swap_index i j k.
Proof.
  unfold Dirs_Swap, swap_index.
  destruct (elems !! i) as [ei|] eqn:Hi; [|discriminate].
  destruct (elems !! j) as [ej|] eqn:Hj; [|discriminate]. intros [= <-].
  pose proof (lookup_lt_Some _ _ _ Hi). pose proof (lookup_lt_Some _ _ _ Hj).
  destruct (decide (k = j)) as [->|Hkj].
  - rewrite list_lookup_insert_eq by (rewrite length_insert; lia).
    destruct (decide (j = i)) as [->|]; congruence.
  - rewrite list_lookup_insert_ne by congruence.
    destruct (decide (k = i)) as [->|Hki].
    + rewrite list_lookup_insert_eq by lia. congruence.
    + rewrite list_lookup_insert_ne by congruence. reflexivity.
Qed.

(** X21.  [Dirs.Swap] panics exactly when an index is out of range; otherwise
    it exchanges the two elements and leaves the others where they are, so
    the slice keeps its length and its elements, [Less] on the two indices
    is [Less] the other way round on the old slice, and swapping again
    restores the slice. *)
Theorem Dirs_Swap_spec (elems : list string) (i j : nat) :
  (Dirs_Swap elems i j = None <-> ~ (i < Dirs_Len elems /\ j < Dirs_Len elems))
  /\ forall elems', Dirs_Swap elems i j = Some elems' ->
       elems' !! i = elems !! j /\ elems' !! j = elems !! i
       /\ (forall k, k <> i -> k <> j -> elems' !! k = elems !! k)
       /\ Dirs_Len elems' = Dirs_Len elems
       /\ elems' ≡ₚ elems
       /\ Dirs_Less_at elems' i j = Dirs_Less_at elems j i
       /\ Dirs_Swap elems' i j = Some elems.
Proof.
  split.
  - unfold Dirs_Swap, Dirs_Len.
    destruct (elems !! i) as [ei|] eqn:Hi; [destruct (elems !! j) as [ej|] eqn:Hj|].
    + apply lookup_lt_Some in Hi, Hj. split; [discriminate|]. intros H. destruct H. lia.
    + apply lookup_ge_None in Hj. split; [|reflexivity]. intros _. lia.
    + apply lookup_ge_None in Hi. split; [|reflexivity]. intros _. lia.
  - intros elems' Hswap.
    pose proof (fun k => Dirs_Swap_lookup elems elems' i j k Hswap) as Hl.
    assert (elems' !! i = elems !! j) as Hi.
    { rewrite Hl. unfold swap_index. rewrite decide_True by reflexivity. reflexivity. }
    assert (elems' !! j = elems !! i) as Hj.
    { rewrite Hl. unfold swap_index. destruct (decide (j = i)) as [->|]; [reflexivity|].
      rewrite decide_True by reflexivity. reflexivity. }
    assert (length elems' = length elems) as Hlen.
    { unfold Dirs_Swap in Hswap. destruct (elems !! i), (elems !! j); try discriminate.
      injection Hswap as <-. rewrite !length_insert. reflexivity. }
    split; [exact Hi|]. split; [exact Hj|]. split; [|split; [exact Hlen|split; [|split]]].
    + intros k Hki Hkj. rewrite Hl. unfold swap_index.
      rewrite !decide_False by assumption. reflexivity.
    + apply Permutation_inj. split; [exact Hlen|].
      exists (swap_index i j). split; [apply swap_index_inj|exact Hl].
    + unfold Dirs_Less_at. rewrite Hi, Hj. reflexivity.
    + unfold Dirs_Swap in *. rewrite Hi, Hj.
      destruct (elems !! i) as [ei|] eqn:Hei; [|discriminate].
      destruct (elems !! j) as [ej|] eqn:Hej; [|discriminate]. f_equal.
      apply list_eq. intros k.
      pose proof (lookup_lt_Some _ _ _ Hei). pose proof (lookup_lt_Some _ _ _ Hej).
      destruct (decide (k = j)) as [->|Hkj].
      * rewrite list_lookup_insert_eq by (rewrite length_insert; lia). congruence.
      * rewrite list_lookup_insert_ne by congruence.
        destruct (decide (k = i)) as [->|Hki].
        -- rewrite list_lookup_insert_eq by lia. congruence.
        -- rewrite list_lookup_insert_ne by congruence. rewrite Hl.
           unfold swap_index. rewrite !decide_False by assumption. reflexivity.
Qed.

(** ** MaxInt64 and MinInt64 *)

(** X22.  [MaxInt64] returns the larger of its arguments and [MinInt64] the
    smaller: each returns one of the two, a number is below the minimum
    exactly when it is below both, and above the maximum exactly when it is
    above both. *)
Theorem MaxInt64_MinInt64_spec (x y : Z) :
  (MaxInt64 x y = x \/ MaxInt64 x y = y)
  /\ (MinInt64 x y = x \/ MinInt64 x y = y)
  /\ (forall z, MaxInt64 x y <= z <-> x <= z /\ y <= z)%Z
  /\ (forall z, z <= MinInt64 x y <-> z <= x /\ z <= y)%Z
  /\ MaxInt64 x y = Z.max x y /\ MinInt64 x y = Z.min x y.
Proof.
  unfold MaxInt64, MinInt64. rewrite Z.gtb_ltb.
  destruct (Z.ltb_spec x y), (Z.ltb_spec y x); repeat split; try intros z; lia.
Qed.

(** ** More theorems at work *)

Lemma triple_eta {A B C : Type} (x : A * B * C) : x = (fst (fst x), snd (fst x), snd x).
Proof. destruct x as [[a b] c]. reflexivity. Qed.

Lemma elements_backwards_perm (tree : gset string) :
  elements_backwards tree ≡ₚ elements tree.
Proof. apply reverse_Permutation. Qed.

Lemma range_values_perm (projDescs : gmap string DxDescribePrj.t) :
  range_values projDescs ≡ₚ map snd (map_to_list projDescs).
Proof. reflexivity. Qed.

Lemma example_tree_manifest_absolute : paths_absolute example_tree_manifest.
Proof. split; repeat constructor; eexists; reflexivity. Qed.

Lemma example_DescribeNamed_Id (pId : string) (pDesc : DxDescribePrj.t) :
  example_DescribeNamed pId = inr pDesc -> DxDescribePrj.Id pDesc = pId.
Proof. intros [= <-]. reflexivity. Qed.

Lemma ancestors_canonical_elements_witness :
  exists ps, ancestors "/A/B/" = Ok ps
    /\ Forall canonical ps
    /\ length ps <= S (String.length "/A/B/").
Proof.
  apply (ancestors_canonical_elements "/A/B/"). exists "A/B/". reflexivity.
Defined.

Lemma ancestors_of_canonical_witness :
  ancestors "/A/B" = Ok (map render (inits (names_of "/A/B")))
  /\ (forall x, x ∈ map render (inits (names_of "/A/B")) <-> above_or_self x "/A/B").
Proof.
  apply (ancestors_of_canonical "/A/B"). split; [exists "A/B"; reflexivity|].
  vm_compute. reflexivity.
Defined.

Lemma DirSkeleton_outcome_witness :
  (~ NoDup (mounts example_tree_manifest) ->
     exists x, x ∈ mounts example_tree_manifest
       /\ DirSkeleton elements sort_by_merge example_tree_manifest
          = Err (ErrDirectoryUsedTwice x))
  /\ (NoDup (mounts example_tree_manifest) ->
      (exists x, x ∈ mounts example_tree_manifest /\ in_tree example_tree_manifest x) ->
      exists x elems, x ∈ mounts example_tree_manifest
        /\ in_tree example_tree_manifest x
        /\ DirSkeleton elements sort_by_merge example_tree_manifest
           = Err (ErrNotLeaf x elems))
  /\ (NoDup (mounts example_tree_manifest) ->
      (forall x, x ∈ mounts example_tree_manifest -> ~ in_tree example_tree_manifest x) ->
      exists out, DirSkeleton elements sort_by_merge example_tree_manifest = Ok out).
Proof.
  exact (DirSkeleton_outcome elements sort_by_merge example_tree_manifest
           example_tree_manifest_absolute).
Defined.

Lemma DirSkeleton_content_witness :
  NoDup ["/A"; "/D"; "/A/B"; "/A/B/C"]
  /\ (forall x, x ∈ ["/A"; "/D"; "/A/B"; "/A/B/C"]
        <-> x ≠ "/" /\ in_tree example_tree_manifest x)
  /\ Forall canonical ["/A"; "/D"; "/A/B"; "/A/B/C"]
  /\ (forall x, x ∈ mounts example_tree_manifest -> x ∉ ["/A"; "/D"; "/A/B"; "/A/B/C"]).
Proof.
  apply (DirSkeleton_content elements sort_by_merge elements_perm
           (sort_by_merge_perm Dirs_Less) example_tree_manifest).
  - exact example_tree_manifest_absolute.
  - vm_compute. reflexivity.
Defined.

Lemma DirSkeleton_parent_before_witness :
  filepath.Dir "/A/B" = "/"
  \/ exists i, i < 2
       /\ ["/A"; "/D"; "/A/B"; "/A/B/C"] !! i = Some (filepath.Dir "/A/B").
Proof.
  apply (DirSkeleton_parent_before elements sort_by_merge elements_perm
           (sort_by_merge_perm Dirs_Less) sort_by_merge_sorted example_tree_manifest).
  - exact example_tree_manifest_absolute.
  - vm_compute. reflexivity.
  - reflexivity.
Defined.

Lemma DirSkeleton_two_runs_witness :
  match DirSkeleton elements sort_by_merge example_tree_manifest with
  | Ok out =>
      exists out', DirSkeleton elements_backwards sort_by_merge example_tree_manifest
                   = Ok out'
        /\ out ≡ₚ out'
  | Err (ErrNotLeaf x elems) =>
      exists elems', DirSkeleton elements_backwards sort_by_merge example_tree_manifest
                     = Err (ErrNotLeaf x elems')
        /\ elems ≡ₚ elems'
  | other => DirSkeleton elements_backwards sort_by_merge example_tree_manifest = other
  end.
Proof.
  exact (DirSkeleton_two_runs elements elements_backwards sort_by_merge sort_by_merge
           elements_perm elements_backwards_perm
           (sort_by_merge_perm Dirs_Less) (sort_by_merge_perm Dirs_Less)
           example_tree_manifest).
Defined.

Lemma Clean_keeps_valid_witness :
  let m := mkManifest [example_file "/a/../b/"] [example_dir "/c//d"] in
  Validate (Clean m) = None
  /\ paths_canonical (Clean m)
  /\ length (Files (Clean m)) = length (Files m)
  /\ length (Directories (Clean m)) = length (Directories m)
  /\ (paths_canonical m -> Clean m = m).
Proof.
  exact (Clean_keeps_valid (mkManifest [example_file "/a/../b/"] [example_dir "/c//d"])
           eq_refl).
Defined.

Lemma ReadManifest_DirSkeleton_witness :
  ((exists out, DirSkeleton elements sort_by_merge (Clean example_tree_manifest) = Ok out)
   \/ exists e, DirSkeleton elements sort_by_merge (Clean example_tree_manifest) = Err e
        /\ (error_kind e = DuplicateMount \/ error_kind e = IllegalMountNotLeaf))
  /\ forall out, DirSkeleton elements sort_by_merge (Clean example_tree_manifest) = Ok out ->
       forall x, x ∈ out
         <-> x <> "/"
             /\ ((exists fl, fl ∈ Files (Clean example_tree_manifest)
                    /\ above_or_self x (ManifestFile.Parent fl))
                 \/ exists d, d ∈ Directories (Clean example_tree_manifest)
                      /\ above_or_self x (filepath.Dir (ManifestDir.Dirname d))).
Proof.
  apply (ReadManifest_DirSkeleton example_ReadFile example_scan elements sort_by_merge
           elements_perm (sort_by_merge_perm Dirs_Less) "manifest.json").
  vm_compute. reflexivity.
Defined.

Lemma FillInMissingFields_keeps_keys_witness :
  Forall2 file_same_keys (Files example_manifest) (Files (snd (fst example_filled)))
  /\ Forall2 dir_same_keys (Directories example_manifest)
       (Directories (snd (fst example_filled)))
  /\ Validate (snd (fst example_filled)) = Validate example_manifest
  /\ DirSkeleton elements sort_by_merge (snd (fst example_filled))
     = DirSkeleton elements sort_by_merge example_manifest.
Proof.
  exact (FillInMissingFields_keeps_keys example_DescribeBulk example_DescribeProject
           elements elements elements sort_by_merge example_manifest
           (snd (fst example_filled)) (fst (fst example_filled)) (snd example_filled)
           (triple_eta example_filled)).
Defined.

Lemma FillInMissingFields_error_witness :
  (exists fileIds,
      fst (fst example_failed) = [CallDescribeBulkObjects fileIds]
      /\ example_DescribeBulk fileIds = inl (ErrRemote "project-2")
      /\ snd (fst example_failed) = example_manifest)
  \/ (exists fileIds dataObjs done pId,
        fst (fst example_failed)
        = CallDescribeBulkObjects fileIds :: map CallDescribeProject (done ++ [pId])
        /\ example_DescribeBulk fileIds = inr dataObjs
        /\ Forall (fun p => exists pDesc, example_DescribeFails p = inr pDesc) done
        /\ example_DescribeFails pId = inl (ErrRemote "project-2")
        /\ Files (snd (fst example_failed))
           = map (fillFile dataObjs) (Files example_manifest)
        /\ Directories (snd (fst example_failed)) = Directories example_manifest).
Proof.
  apply (FillInMissingFields_error example_DescribeBulk example_DescribeFails
           elements elements example_manifest).
  vm_compute. reflexivity.
Defined.

Lemma example_DescribeBulk_complete (fileIds : list string)
    (dataObjs : gmap string DxDescribe.t) :
  example_DescribeBulk fileIds = inr dataObjs ->
  (forall fId, fId ∈ fileIds -> is_Some (dataObjs !! fId))
  /\ (forall fId fDesc, dataObjs !! fId = Some fDesc -> describe_complete fDesc).
Proof.
  unfold example_DescribeBulk. intros [= <-]. split.
  - intros fId Hin. apply not_eq_None_Some. intros Hnone.
    apply not_elem_of_list_to_map_2 in Hnone. apply Hnone.
    apply list_elem_of_fmap. exists (fId, DxDescribe.mk "data" 7 1 2).
    split; [reflexivity|]. apply list_elem_of_fmap. eauto.
  - intros fId fDesc Hl. apply elem_of_list_to_map_2 in Hl.
    apply list_elem_of_fmap in Hl as (y & [= _ ->] & _). repeat split; discriminate.
Qed.

Lemma example_complete_manifest_complete :
  Forall (fun fl => ~ file_incomplete fl) (Files example_complete_manifest)
  /\ Forall (fun d => ~ dir_incomplete d) (Directories example_complete_manifest).
Proof.
  split; repeat constructor.
  - intros [H|[H|[H|H]]]; discriminate.
  - intros [H|H]; discriminate.
Qed.

Lemma FillInMissingFields_nothing_missing_witness :
  FillInMissingFields example_DescribeBulk example_DescribeProject
    elements elements example_complete_manifest
  = match example_DescribeBulk [] with
    | inl err => ([CallDescribeBulkObjects []], example_complete_manifest, Some err)
    | inr dataObjs =>
        ([CallDescribeBulkObjects []],
         mkManifest (map (fillFile dataObjs) (Files example_complete_manifest))
           (Directories example_complete_manifest), None)
    end
  /\ (example_DescribeBulk [] = inr ∅ ->
      FillInMissingFields example_DescribeBulk example_DescribeProject
        elements elements example_complete_manifest
      = ([CallDescribeBulkObjects []], example_complete_manifest, None)).
Proof.
  exact (FillInMissingFields_nothing_missing example_DescribeBulk example_DescribeProject
           elements elements elements_perm elements_perm example_complete_manifest
           (proj1 example_complete_manifest_complete)
           (proj2 example_complete_manifest_complete)).
Defined.

Lemma FillInMissingFields_completes_witness :
  exists calls m',
    FillInMissingFields example_DescribeBulk example_DescribeProject
      elements elements example_manifest = (calls, m', None)
    /\ Forall (fun fl => ~ file_incomplete fl) (Files m')
    /\ Forall (fun d => ~ dir_incomplete d) (Directories m').
Proof.
  destruct (example_DescribeBulk_complete
              (elements (collectFileIds (Files example_manifest) ∅)) _ eq_refl)
    as [Hall Hgood].
  apply (FillInMissingFields_completes example_DescribeBulk example_DescribeProject
           elements elements elements_perm elements_perm example_manifest _ eq_refl).
  - intros fId Hneeded. apply Hall. apply elem_of_elements, elem_of_collectFileIds.
    right. exact Hneeded.
  - exact Hgood.
  - intros pId _. eexists. split; [reflexivity|]. split; [reflexivity|].
    split; discriminate.
Defined.

Lemma MakeManifestFromProjectIds_Ok_witness :
  let projectIds := ["project-1"; "project-2"] in
  let m := example_made_manifest in
  map CallDescribeProject projectIds = map CallDescribeProject projectIds
  /\ Files m = []
  /\ NoDup (map ManifestDir.ProjId (Directories m))
  /\ (forall d, d ∈ Directories m
        <-> exists pId pDesc, pId ∈ projectIds
              /\ example_DescribeNamed pId = inr pDesc
              /\ d = ManifestDir.mk pId "/"
                       (filepath.Clean (String "/" (DxDescribePrj.Name pDesc)))
                       (DxDescribePrj.CtimeMillisec pDesc)
                       (DxDescribePrj.MtimeMillisec pDesc))
  /\ (forall pId, pId ∈ projectIds ->
        exists pDesc, example_DescribeNamed pId = inr pDesc
          /\ example_compliant (DxDescribePrj.Name pDesc) = true
          /\ valid_project_id pId)
  /\ Validate m = None
  /\ paths_canonical m.
Proof.
  cbv zeta.
  apply (MakeManifestFromProjectIds_Ok example_DescribeNamed example_compliant
           range_values range_values example_DescribeNamed_Id
           range_values_perm range_values_perm).
  vm_compute. reflexivity.
Defined.

Lemma MakeManifestFromProjectIds_Err_witness :
  let projectIds := ["project-1"; "project-2"] in
  let calls := [CallDescribeProject "project-1"] in
  let e := MakePassedOn (ErrRemote "project-1") in
  (exists done pId rest err,
      projectIds = (done ++ pId :: rest)%list
      /\ calls = map CallDescribeProject (done ++ [pId])
      /\ Forall (fun p => exists pDesc, example_DescribeFails p = inr pDesc) done
      /\ example_DescribeFails pId = inl err
      /\ e = MakePassedOn err)
  \/ (calls = map CallDescribeProject projectIds
      /\ exists pId pDesc, pId ∈ projectIds
           /\ example_DescribeFails pId = inr pDesc
           /\ ((example_compliant (DxDescribePrj.Name pDesc) = false
                /\ e = ErrNonPosixName (DxDescribePrj.Id pDesc)
                         (DxDescribePrj.Name pDesc))
               \/ (~ valid_project_id (DxDescribePrj.Id pDesc)
                   /\ e = MakePassedOn
                            (ErrProjectInvalidID (DxDescribePrj.Id pDesc))))).
Proof.
  cbv zeta.
  apply (MakeManifestFromProjectIds_Err example_DescribeFails example_compliant
           range_values range_values range_values_perm range_values_perm).
  vm_compute. reflexivity.
Defined.


Lemma MakeManifestFromProjectIds_skeleton_witness :
  (forall d, d ∈ Directories example_made_manifest ->
     filepath.Dir (ManifestDir.Dirname d) = "/")
  /\ DirSkeleton elements sort_by_merge example_made_manifest = Ok [].
Proof.
  apply (MakeManifestFromProjectIds_skeleton example_DescribeNamed example_compliant
           range_values range_values example_DescribeNamed_Id range_values_perm
           elements sort_by_merge elements_perm (sort_by_merge_perm Dirs_Less)
           ["project-1"; "project-2"]
           (map CallDescribeProject ["project-1"; "project-2"])).
  - vm_compute. reflexivity.
  - intros pId pDesc Hin [= <-]. cbn [DxDescribePrj.Name].
    apply elem_of_cons in Hin as [->|Hin]; [reflexivity|].
    apply elem_of_cons in Hin as [->|Hin]; [reflexivity|]. inversion Hin.
  - intros pId1 pId2 pDesc1 pDesc2 _ _ [= <-] [= <-] H. exact H.
Defined.

Lemma ancestors_outcome_witness :
  (exists rest, ancestors "/A/B" = Ok ("/" :: rest))
  /\ (forall fuel, ancestors_depth fuel "A/B" = StackOverflow).
Proof.
  split.
  - apply (ancestors_outcome "/A/B"). right. exists "A/B". reflexivity.
  - apply (ancestors_outcome "A/B"); [discriminate|]. intros [rest H]. discriminate.
Defined.

Lemma DirSkeleton_errors_witness :
  exists x, x ∈ mounts example_clash_manifest
    /\ (ErrDirectoryUsedTwice "/proj" = ErrDirectoryUsedTwice x
        \/ exists elems, ErrDirectoryUsedTwice "/proj" = ErrNotLeaf x elems).
Proof.
  apply (proj2 (DirSkeleton_errors elements sort_by_merge example_clash_manifest)).
  vm_compute. reflexivity.
Defined.

Lemma ReadManifest_outcome_witness :
  Validate (Clean example_tree_manifest) = None
  /\ paths_canonical (Clean example_tree_manifest)
  /\ Clean (Clean example_tree_manifest) = Clean example_tree_manifest.
Proof.
  apply (proj2 (proj2 (proj2
           (ReadManifest_outcome example_ReadFile example_scan "manifest.json")))).
  vm_compute. reflexivity.
Defined.

Lemma Dirs_Swap_spec_witness :
  ["/b/c"; "/a"] !! 0 = ["/a"; "/b/c"] !! 1
  /\ ["/b/c"; "/a"] !! 1 = ["/a"; "/b/c"] !! 0
  /\ (forall k, k <> 0 -> k <> 1 -> ["/b/c"; "/a"] !! k = ["/a"; "/b/c"] !! k)
  /\ Dirs_Len ["/b/c"; "/a"] = Dirs_Len ["/a"; "/b/c"]
  /\ ["/b/c"; "/a"] ≡ₚ ["/a"; "/b/c"]
  /\ Dirs_Less_at ["/b/c"; "/a"] 0 1 = Dirs_Less_at ["/a"; "/b/c"] 1 0
  /\ Dirs_Swap ["/b/c"; "/a"] 0 1 = Some ["/a"; "/b/c"].
Proof.
  apply (proj2 (Dirs_Swap_spec ["/a"; "/b/c"] 0 1)). reflexivity.
Defined.
